(** * audio-transcriber: the sequential chunking-and-transcription pipeline

    A shallow embedding of [src/audio_transcriber.py] (class
    [AudioTranscriber] and [main]) and the properties of its locator,
    chunk planner, materializer, transcription driver and batch
    aggregator.

    Python [str] values are sequences of Unicode code points, modelled as
    [list N].  The interpreter's Unicode tables, the platform, the file
    system and the two remote services are the environment of a run and
    are gathered in the record [Env]. *)

From Stdlib Require Import NArith ZArith QArith List Bool Lia Permutation Sorted.
From Stdlib Require Import Strings.String Strings.Ascii Numbers.DecimalString.
Import ListNotations.

Set Implicit Arguments.
Local Open Scope N_scope.
Local Open Scope list_scope.

(* ================================================================== *)
(** * Python strings *)

Module PyStr.

Definition pystr := list N.

(** A literal of the source, given by its ASCII characters. *)
Definition lit (s : string) : pystr := map N_of_ascii (list_ascii_of_string s).
Arguments lit : simpl never.

Definition eqb (s t : pystr) : bool :=
  if list_eq_dec N.eq_dec s t then true else false.

(** [bool(s)]: a string or a list is truthy when it is not empty. *)
Definition truthy {A} (s : list A) : bool :=
  match s with [] => false | _ :: _ => true end.

(** [str.isspace] on one code point: the white space of [str.strip()]. *)
Definition isspace (c : N) : bool :=
  ((9 <=? c) && (c <=? 13)) || ((28 <=? c) && (c <=? 32))
  || (c =? 133) || (c =? 160) || (c =? 5760)
  || ((8192 <=? c) && (c <=? 8202))
  || (c =? 8232) || (c =? 8233) || (c =? 8239) || (c =? 8287) || (c =? 12288).

Fixpoint lstrip (s : pystr) : pystr :=
  match s with
  | c :: s' => if isspace c then lstrip s' else s
  | [] => []
  end.

Definition rstrip (s : pystr) : pystr := rev (lstrip (rev s)).

(** [s.strip()] *)
Definition strip (s : pystr) : pystr := rstrip (lstrip s).

(** [s.startswith(pre)] *)
Fixpoint startswith (pre s : pystr) : bool :=
  match pre, s with
  | [], _ => true
  | p :: pre', c :: s' => (p =? c) && startswith pre' s'
  | _ :: _, [] => false
  end.

(** [s.endswith(suf)] *)
Definition endswith (suf s : pystr) : bool := startswith (rev suf) (rev s).

(** [sep.join(parts)] *)
Fixpoint join (sep : pystr) (parts : list pystr) : pystr :=
  match parts with
  | [] => []
  | [x] => x
  | x :: rest => x ++ sep ++ join sep rest
  end.

(** [str(n)] for a non-negative integer. *)
Definition str_of_N (n : N) : pystr := lit (NilEmpty.string_of_uint (N.to_uint n)).

(** The format [{n:03d}]: decimal, padded with zeros to three characters. *)
Definition format_03d (n : N) : pystr :=
  let s := str_of_N n in
  repeat 48 (3 - List.length s)%nat ++ s.

(** [s.rfind('.')], [None] standing for [-1]. *)
Fixpoint rfind_dot (s : pystr) : option nat :=
  match s with
  | [] => None
  | c :: s' =>
      match rfind_dot s' with
      | Some i => Some (S i)
      | None => if c =? 46 then Some 0%nat else None
      end
  end.

End PyStr.
Export PyStr.

(* ================================================================== *)
(** * Paths *)

(** A [pathlib.Path], as its directory and its final component. *)
Record Path := mkPath { parent : pystr; name : pystr }.

(** [directory / filename] *)
Definition joinpath (dir filename : pystr) : Path := mkPath dir filename.

(** [Path.stem]: the final component without its last suffix. *)
Definition stem (p : Path) : pystr :=
  match rfind_dot (name p) with
  | Some i =>
      if ((0 <? i) && (i <? List.length (name p) - 1))%nat
      then firstn i (name p) else name p
  | None => name p
  end.

Definition Path_eqb (p q : Path) : bool :=
  PyStr.eqb (parent p) (parent q) && PyStr.eqb (name p) (name q).

(* ================================================================== *)
(** * The environment of a run *)

(** What a remote call gives back: the text of the reply, or the error it
    raised (network, authentication, quota, rejected format, ...). *)
Inductive Response :=
| Reply (text : pystr)
| Failed (detail : pystr).

(** The interpreter's Unicode tables, the platform, the file system as the
    program reads it, and the remote services.  [whisper k p lang] is the
    outcome of the request number [k] (counted from 0 over the whole
    process) sent for the artifact [p].

    The paths the program is given exist and can be read, local writes
    succeed, and [tqdm] is installed; console output is not modelled. *)
Record Env := mkEnv {
  decimal_value : N -> option N;      (* [\d] and [int()]: value of a decimal digit *)
  same_case : N -> N -> bool;         (* [re.IGNORECASE]: pattern character, subject character *)
  glob_case_sensitive : bool;         (* [Path.glob]: true on POSIX, false on Windows *)
  listdir : pystr -> list pystr;      (* the entries of a directory, in the order it is read *)
  st_size : Path -> N;                (* [file_path.stat().st_size] *)
  decode : Path -> option N;          (* [AudioSegment.from_file]: [len(audio)] in ms, or no decoding *)
  getenv_api_key : option pystr;      (* [os.getenv('OPENAI_API_KEY')] *)
  tmp_suffix : list pystr -> pystr;   (* the random part chosen by [tempfile.mkdtemp] *)
  whisper : nat -> Path -> pystr -> Response;
  chat : pystr -> pystr -> Response   (* system message, user message *)
}.

(* ================================================================== *)
(** * Audio segments (pydub) *)

(** A [pydub.AudioSegment] obtained from a source file: the span
    [start_ms, stop_ms) of the decoded stream of [source]. *)
Record AudioSegment := mkAudio { source : Path; start_ms : N; stop_ms : N }.

(** [len(audio)]: the duration in milliseconds. *)
Definition len (a : AudioSegment) : N := stop_ms a - start_ms a.

(** [audio[i:j]]: both bounds are clamped to [len(audio)]. *)
Definition slice (a : AudioSegment) (i j : N) : AudioSegment :=
  mkAudio (source a) (start_ms a + N.min i (len a)) (start_ms a + N.min j (len a)).

(** [ceil(n / float(d))].  The source computes the quotient in binary
    floating point; for [n] below 2^53 and the window of the source the
    rounded quotient has the ceiling of the exact one. *)
Definition ceil_div (n d : N) : N := (n + d - 1) / d.

(** [pydub.utils.make_chunks(audio, chunk_length)] *)
Definition make_chunks (a : AudioSegment) (chunk_length : N) : list AudioSegment :=
  map (fun i => slice a (N.of_nat i * chunk_length) ((N.of_nat i + 1) * chunk_length))
      (seq 0 (N.to_nat (ceil_div (len a) chunk_length))).

(* ================================================================== *)
(** * Effects: events, the world, exceptions *)

Inductive event :=
| EvMkdtemp (d : pystr)                           (* tempfile.mkdtemp *)
| EvDecode (p : Path)                             (* AudioSegment.from_file *)
| EvExport (p : Path) (a : AudioSegment)          (* audio.export(path, format="mp4") *)
| EvSetDescription (i nfiles j nchunks current_chunk total_chunks : N)
| EvRequest (p : Path) (language : pystr)         (* client.audio.transcriptions.create *)
| EvTqdm (total : N)                              (* tqdm(total=total_chunks, ...) *)
| EvUpdate (n : N)                                (* overall_progress.update(n) *)
| EvClose                                         (* overall_progress.close() *)
| EvRmtree (d : pystr)                            (* shutil.rmtree(d, ignore_errors=True) *)
| EvChat (system user : pystr)                    (* client.chat.completions.create *)
| EvWrite (p : Path) (content : pystr).           (* open(p, 'w').write(content) *)

(** The part of the world the program changes: what it did so far, the
    temporary directories and the artifacts in them, the text files
    written. *)
Record World := mkWorld {
  trace : list event;
  dirs : list pystr;
  artifacts : list (Path * AudioSegment);
  outputs : list (Path * pystr)
}.

Definition empty_world : World := mkWorld [] [] [] [].

Inductive exn :=
| ValueError (msg : pystr)
| OpenAIError (msg : pystr)
| CouldntDecodeError (p : Path)
| APIError (detail : pystr).

Inductive result (A : Type) :=
| Val (a : A)
| Raise (e : exn).
Arguments Val {A} a.
Arguments Raise {A} e.

(** A computation: it reads and changes the world, and returns or raises. *)
Definition M (A : Type) : Type := World -> result A * World.

Definition ret {A} (a : A) : M A := fun w => (Val a, w).

Definition raise {A} (e : exn) : M A := fun w => (Raise e, w).

Definition bind {A B} (m : M A) (k : A -> M B) : M B :=
  fun w => match m w with
           | (Val a, w') => k a w'
           | (Raise e, w') => (Raise e, w')
           end.

Notation "x <- m ;; k" := (bind m (fun x => k))
  (at level 61, m at next level, right associativity).
Notation "m ;;; k" := (bind m (fun _ => k))
  (at level 61, right associativity).

(** [try: body finally: cleanup] *)
Definition try_finally {A} (body : M A) (cleanup : M unit) : M A :=
  fun w => match body w with
           | (r, w') =>
               match cleanup w' with
               | (Val _, w'') => (r, w'')
               | (Raise e, w'') => (Raise e, w'')
               end
           end.

(** [try: body except Exception as e: handler(e)] *)
Definition try_except {A} (body : M A) (handler : exn -> M A) : M A :=
  fun w => match body w with
           | (Val a, w') => (Val a, w')
           | (Raise e, w') => handler e w'
           end.

Definition emit (e : event) : M unit :=
  fun w => (Val tt, mkWorld (trace w ++ [e]) (dirs w) (artifacts w) (outputs w)).

(** The number of transcription requests sent so far. *)
Fixpoint requests_of (tr : list event) : nat :=
  match tr with
  | [] => 0%nat
  | EvRequest _ _ :: tr' => S (requests_of tr')
  | _ :: tr' => requests_of tr'
  end.

(* ================================================================== *)
(** * Stable sorting by a key ([list.sort(key=...)]) *)

Section SortBy.
Variable A : Type.
Variable key : A -> N.

(** [x] goes before the first element whose key is not smaller: among
    equal keys the element inserted last stays first. *)
Fixpoint insert_by (x : A) (l : list A) : list A :=
  match l with
  | [] => [x]
  | y :: l' => if key x <=? key y then x :: l else y :: insert_by x l'
  end.

(** Insertion from the right end: elements with equal keys keep the order
    they had in [l], as [list.sort] guarantees. *)
Definition sort_by (l : list A) : list A := fold_right insert_by [] l.

End SortBy.

(* ================================================================== *)
(** * class AudioTranscriber *)

Record AudioTranscriber := mkTranscriber {
  max_file_size_mb : N;
  chunk_length_ms : N;
  test_mode : bool;
  test_duration_ms : N
}.

(** The attributes [__init__] sets. *)
Definition new_transcriber (test : bool) : AudioTranscriber :=
  mkTranscriber 10 (10 * 60 * 1000) test (60 * 1000).

Definition error_prefix : pystr := lit "[ERROR".

(** The test marker of the source, a test tube (U+1F9EA) and [" TEST "]. *)
Definition test_marker : pystr := 129514 :: lit " TEST ".

Section Program.
Variable E : Env.

(** [__init__]: the client takes [api_key or os.getenv('OPENAI_API_KEY')];
    without any key the client's constructor raises, with an empty one the
    source raises [ValueError]. *)
Definition init (api_key : option pystr) (test : bool) : M AudioTranscriber :=
  let key := match api_key with
             | Some (c :: k) => Some (c :: k)
             | _ => getenv_api_key E
             end in
  match key with
  | None => raise (OpenAIError (lit "The api_key client option must be set"))
  | Some [] =>
      raise (ValueError (lit "OpenAI API key not found. Please set OPENAI_API_KEY in .env file"))
  | Some (_ :: _) => ret (new_transcriber test)
  end.

(** ** SequenceLocator *)

(** The literal part of a compiled pattern under [re.IGNORECASE]: every
    character of [pat] against the next character of the subject.  The
    result is the rest of the subject. *)
Fixpoint match_literal (pat s : pystr) : option pystr :=
  match pat, s with
  | [], _ => Some s
  | p :: pat', c :: s' => if same_case E p c then match_literal pat' s' else None
  | _ :: _, [] => None
  end.

(** [$]: the end of the string, or just before a newline that ends it. *)
Definition at_end (s : pystr) : bool :=
  match s with
  | [] => true
  | [c] => c =? 10
  | _ => false
  end.

(** [\.m4a$] *)
Definition match_tail (s : pystr) : bool :=
  match match_literal (lit ".m4a") s with
  | Some r => at_end r
  | None => false
  end.

Definition is_digit (c : N) : bool :=
  match decimal_value E c with Some _ => true | None => false end.

(** [(\d+)\.m4a$]: the group takes as many digits as it can and gives
    them back one at a time until the rest of the pattern matches.  The
    result is the group. *)
Fixpoint match_digits (s : pystr) : option pystr :=
  match s with
  | c :: s' =>
      if is_digit c then
        match match_digits s' with
        | Some ds => Some (c :: ds)
        | None => if match_tail s' then Some [c] else None
        end
      else None
  | [] => None
  end.

(** [pattern.match(name)] for
    [re.compile(rf"{re.escape(pattern_prefix)}_(\d+)\.m4a$", re.IGNORECASE)]:
    [group(1)] when the name matches.  [re.escape] makes every character of
    the prefix a literal of the pattern. *)
Definition pattern_match (pattern_prefix nm : pystr) : option pystr :=
  match match_literal (pattern_prefix ++ lit "_") nm with
  | Some r => match_digits r
  | None => None
  end.

(** [int(digits)], for the digits of a file name. *)
Definition int_of (ds : pystr) : N :=
  fold_left (fun acc c => 10 * acc + match decimal_value E c with Some v => v | None => 0 end)
            ds 0.

(** The pattern ["*.m4a"] of [Path.glob] on one entry: any characters, then
    the extension, compared as the platform compares file names. *)
Definition glob_m4a (nm : pystr) : bool :=
  if glob_case_sensitive E then endswith (lit ".m4a") nm
  else
    (4 <=? List.length nm)%nat &&
    match match_literal (lit ".m4a") (skipn (List.length nm - 4) nm) with
    | Some [] => true
    | _ => false
    end.

Definition glob (directory : pystr) : list Path :=
  map (joinpath directory) (filter glob_m4a (listdir E directory)).

(** The loop of [find_sequential_files] that collects
    [(sequence_num, file_path)]. *)
Fixpoint collect (pattern_prefix : pystr) (paths : list Path) : list (N * Path) :=
  match paths with
  | [] => []
  | file_path :: rest =>
      match pattern_match pattern_prefix (name file_path) with
      | Some g => (int_of g, file_path) :: collect pattern_prefix rest
      | None => collect pattern_prefix rest
      end
  end.

Definition find_sequential_files (directory pattern_prefix : pystr) : list Path :=
  let files := collect pattern_prefix (glob directory) in
  let files := sort_by fst files in
  map snd files.

(** ** ChunkPlanner *)

(** [st_size / (1024 * 1024)].  The source computes it in binary floating
    point; a division by 2^20 is exact there for every size below 2^53 and
    monotone above, so the comparison with the limit is that of the
    rationals. *)
Definition get_file_size_mb (file_path : Path) : Q :=
  Z.of_N (st_size E file_path) # 1048576.

Definition within_limit (self : AudioTranscriber) (file_path : Path) : bool :=
  Qle_bool (get_file_size_mb file_path) (inject_Z (Z.of_N (max_file_size_mb self))).

(** [AudioSegment.from_file(str(file_path))] *)
Definition from_file (file_path : Path) : M AudioSegment :=
  emit (EvDecode file_path) ;;;
  match decode E file_path with
  | Some d => ret (mkAudio file_path 0 d)
  | None => raise (CouldntDecodeError file_path)
  end.

Definition get_chunk_count (self : AudioTranscriber) (file_path : Path) : M N :=
  if test_mode self then ret 1
  else if within_limit self file_path then ret 1
  else
    audio <- from_file file_path ;;
    let chunks := make_chunks audio (chunk_length_ms self) in
    ret (N.of_nat (List.length chunks)).

(** ** SegmentMaterializer *)

(** [audio.export(str(path), format="mp4")]: the artifact replaces any
    file of the same path. *)
Definition export (a : AudioSegment) (p : Path) : M unit :=
  fun w =>
    (Val tt,
     mkWorld (trace w ++ [EvExport p a]) (dirs w)
             ((p, a) :: filter (fun x => negb (Path_eqb (fst x) p)) (artifacts w))
             (outputs w)).

(** The loop over [enumerate(chunks)] that exports every chunk. *)
Fixpoint export_chunks (file_path : Path) (temp_dir : pystr) (i : N)
    (chunks : list AudioSegment) (chunk_files : list Path) : M (list Path) :=
  match chunks with
  | [] => ret chunk_files
  | chunk :: rest =>
      let chunk_filename := stem file_path ++ lit "_chunk_" ++ format_03d (i + 1) ++ lit ".mp4" in
      let chunk_path := joinpath temp_dir chunk_filename in
      export chunk chunk_path ;;;
      export_chunks file_path temp_dir (i + 1) rest (chunk_files ++ [chunk_path])
  end.

Definition chunk_audio_file (self : AudioTranscriber) (file_path : Path) (temp_dir : pystr)
    : M (list Path) :=
  audio <- from_file file_path ;;
  if test_mode self then
    let audio := slice audio 0 (test_duration_ms self) in
    let test_filename := stem file_path ++ lit "_test_1min.mp4" in
    let test_path := joinpath temp_dir test_filename in
    export audio test_path ;;;
    ret [test_path]
  else if within_limit self file_path then ret [file_path]
  else
    let chunks := make_chunks audio (chunk_length_ms self) in
    export_chunks file_path temp_dir 0 chunks [].

(** ** TranscriptionDriver *)

(** [client.audio.transcriptions.create(model="whisper-1", file=...,
    language=language, response_format="text")] *)
Definition create_transcription (file_path : Path) (language : pystr) : M pystr :=
  fun w =>
    let k := requests_of (trace w) in
    let w' := mkWorld (trace w ++ [EvRequest file_path language])
                      (dirs w) (artifacts w) (outputs w) in
    match whisper E k file_path language with
    | Reply text => (Val text, w')
    | Failed detail => (Raise (APIError detail), w')
    end.

Definition transcribe_audio (self : AudioTranscriber) (file_path : Path) (language : pystr)
    (current_chunk total_chunks : N) : M pystr :=
  try_except
    (transcript <- create_transcription file_path language ;;
     ret (strip transcript))
    (fun e => ret (lit "[ERROR: Could not transcribe " ++ name file_path ++ lit "]")).

(** ** BatchAggregator *)

(** [tempfile.mkdtemp(prefix=...)] *)
Definition mkdtemp (prefix : pystr) : M pystr :=
  fun w =>
    let d := prefix ++ tmp_suffix E (dirs w) in
    (Val d, mkWorld (trace w ++ [EvMkdtemp d]) (d :: dirs w) (artifacts w) (outputs w)).

(** [shutil.rmtree(d, ignore_errors=True)] *)
Definition rmtree (d : pystr) : M unit :=
  fun w =>
    (Val tt,
     mkWorld (trace w ++ [EvRmtree d])
             (filter (fun x => negb (PyStr.eqb x d)) (dirs w))
             (filter (fun x => negb (PyStr.eqb (parent (fst x)) d)) (artifacts w))
             (outputs w)).

(** [sum(self.get_chunk_count(file_path) for file_path in files)] *)
Fixpoint sum_chunk_counts (self : AudioTranscriber) (files : list Path) (acc : N) : M N :=
  match files with
  | [] => ret acc
  | file_path :: rest =>
      n <- get_chunk_count self file_path ;;
      sum_chunk_counts self rest (acc + n)
  end.

(** The test of the source on a transcript: the text is kept when it is
    not empty and does not start with the error prefix. *)
Definition keep (transcript : pystr) : bool :=
  truthy transcript && negb (startswith error_prefix transcript).

(** The inner loop, [for j, chunk_file in enumerate(chunk_files, 1)]; its
    state is [(current_chunk, file_transcripts)]. *)
Fixpoint transcribe_chunks (self : AudioTranscriber) (language : pystr)
    (i nfiles nchunks total_chunks : N) (chunk_files : list Path) (j : N)
    (current_chunk : N) (file_transcripts : list pystr) : M (N * list pystr) :=
  match chunk_files with
  | [] => ret (current_chunk, file_transcripts)
  | chunk_file :: rest =>
      let current_chunk := current_chunk + 1 in
      emit (EvSetDescription i nfiles j nchunks current_chunk total_chunks) ;;;
      transcript <- transcribe_audio self chunk_file language current_chunk total_chunks ;;
      let file_transcripts :=
        if keep transcript then file_transcripts ++ [transcript] else file_transcripts in
      emit (EvUpdate 1) ;;;
      transcribe_chunks self language i nfiles nchunks total_chunks rest (j + 1)
                        current_chunk file_transcripts
  end.

(** The block of one file:
    [f"=== {prefix}File {i}: {file_path.name} ===\n{combined_transcript}"] *)
Definition file_block (self : AudioTranscriber) (i : N) (file_path : Path)
    (file_transcripts : list pystr) : pystr :=
  let combined_transcript := join (lit " ") file_transcripts in
  let prefix := if test_mode self then test_marker else [] in
  lit "=== " ++ prefix ++ lit "File " ++ str_of_N i ++ lit ": " ++ name file_path
    ++ lit " ===" ++ [10] ++ combined_transcript.

(** The outer loop, [for i, file_path in enumerate(files, 1)]; its state
    is [(current_chunk, all_transcripts)]. *)
Fixpoint process_files (self : AudioTranscriber) (language : pystr) (temp_dir : pystr)
    (nfiles total_chunks : N) (files : list Path) (i : N)
    (current_chunk : N) (all_transcripts : list pystr) : M (N * list pystr) :=
  match files with
  | [] => ret (current_chunk, all_transcripts)
  | file_path :: rest =>
      chunk_files <- chunk_audio_file self file_path temp_dir ;;
      st <- transcribe_chunks self language i nfiles (N.of_nat (List.length chunk_files))
                              total_chunks chunk_files 1 current_chunk [] ;;
      let '(current_chunk, file_transcripts) := st in
      let all_transcripts :=
        if truthy file_transcripts
        then all_transcripts ++ [file_block self i file_path file_transcripts]
        else all_transcripts in
      process_files self language temp_dir nfiles total_chunks rest (i + 1)
                    current_chunk all_transcripts
  end.

Definition process_sequential_files (self : AudioTranscriber) (files : list Path)
    (language : pystr) : M pystr :=
  temp_dir <- mkdtemp (lit "audio_chunks_") ;;
  all_transcripts <-
    try_finally
      (total_chunks <- sum_chunk_counts self files 0 ;;
       emit (EvTqdm total_chunks) ;;;
       st <- process_files self language temp_dir (N.of_nat (List.length files))
                           total_chunks files 1 0 [] ;;
       emit EvClose ;;;
       ret (snd st))
      (rmtree temp_dir) ;;
  ret (join [10; 10] all_transcripts).

(** ** Summary and output files *)

Definition generate_summary (self : AudioTranscriber) (transcript language : pystr) : M pystr :=
  try_except
    (let test_note :=
       if test_mode self
       then lit "Note: This summary is based on a 1-minute test sample." else [] in
     let system :=
       lit "You are a helpful assistant that creates concise summaries. Please summarize the following transcript in "
       ++ language
       ++ lit ". Focus on key points, main topics discussed, and important conclusions. "
       ++ test_note in
     let user := lit "Please summarize this transcript:" ++ [10; 10] ++ transcript in
     emit (EvChat system user) ;;;
     match chat E system user with
     | Failed detail => raise (APIError detail)
     | Reply content =>
         let summary := strip content in
         let summary :=
           if test_mode self
           then 129514 :: lit " TEST MODE SUMMARY (1 minute sample)" ++ [10; 10] ++ summary
           else summary in
         ret summary
     end)
    (fun e => ret (lit "[ERROR: Could not generate summary]")).

(** [with open(p, 'w', encoding='utf-8') as f: f.write(content)] *)
Definition write_text (p : Path) (content : pystr) : M unit :=
  fun w =>
    (Val tt,
     mkWorld (trace w ++ [EvWrite p content]) (dirs w) (artifacts w)
             ((p, content) :: filter (fun x => negb (Path_eqb (fst x) p)) (outputs w))).

(** [output_dir.mkdir(exist_ok=True)] and the two writes are taken to
    succeed. *)
Definition save_outputs (self : AudioTranscriber) (transcript summary : pystr)
    (output_dir prefix : pystr) : M unit :=
  let file_prefix := if test_mode self then prefix ++ lit "_test" else prefix in
  let transcript_file := joinpath output_dir (file_prefix ++ lit "_transcript.txt") in
  write_text transcript_file transcript ;;;
  let summary_file := joinpath output_dir (file_prefix ++ lit "_summary.txt") in
  write_text summary_file summary.

(** ** The command line *)

Record Args := mkArgs {
  directory : pystr;
  prefix : pystr;
  language : pystr;
  output : pystr;
  summary_lang : pystr;
  test : bool
}.

(** [main()]: the value it returns, [None] or [1]. *)
Definition main (args : Args) : M (option Z) :=
  try_except
    (transcriber <- init None (test args) ;;
     let files := find_sequential_files (directory args) (prefix args) in
     match files with
     | [] => ret None
     | _ :: _ =>
         transcript <- process_sequential_files transcriber files (language args) ;;
         if negb (truthy transcript) then ret None
         else
           summary <- generate_summary transcriber transcript (summary_lang args) ;;
           save_outputs transcriber transcript summary (output args) (prefix args) ;;;
           ret None
     end)
    (fun e => ret (Some 1%Z)).

(** [if __name__ == "__main__": main()]: the value of [main] is dropped and
    the interpreter ends with the status of a script that ran to its
    end. *)
Definition script (args : Args) : World -> Z * World :=
  fun w => let '(_, w') := main args w in (0%Z, w').

End Program.

(* ================================================================== *)
(** * Definitions used to state the properties *)

(** The body of the [try] of [process_sequential_files]. *)
Definition batch_body (E : Env) (self : AudioTranscriber) (files : list Path)
    (lang temp_dir : pystr) : M (list pystr) :=
  total_chunks <- sum_chunk_counts E self files 0 ;;
  emit (EvTqdm total_chunks) ;;;
  st <- process_files E self lang temp_dir (N.of_nat (List.length files))
                      total_chunks files 1 0 [] ;;
  emit EvClose ;;;
  ret (snd st).

(** [w'] comes after [w] in a run that wrote no text file. *)
Definition extends (w w' : World) : Prop :=
  (exists evs, trace w' = trace w ++ evs) /\ outputs w' = outputs w.

(** A computation only adds events to the trace and writes no text file. *)
Definition grows {A} (m : M A) : Prop := forall w, extends w (snd (m w)).

(** The directory [process_sequential_files] creates when started in [w]. *)
Definition workspace (E : Env) (w : World) : pystr :=
  lit "audio_chunks_" ++ tmp_suffix E (dirs w).

(** The path of the artifact of window [k] (counted from 0) of a file. *)
Definition chunk_path (f : Path) (tmp : pystr) (k : nat) : Path :=
  joinpath tmp (stem f ++ lit "_chunk_" ++ format_03d (N.of_nat k + 1) ++ lit ".mp4").

(** ** Names of sequential files *)

(** [s] is [pat] up to the case of its characters. *)
Definition ci_equal (E : Env) (pat s : pystr) : Prop :=
  Forall2 (fun p c => same_case E p c = true) pat s.

(** What the compiled pattern accepts with [ds] as its group: the prefix
    and the underscore up to case, the digits [ds], the extension up to
    case, and possibly one final newline. *)
Definition accepted (E : Env) (pattern_prefix nm ds : pystr) : Prop :=
  exists pre ext nl,
    nm = pre ++ ds ++ ext ++ nl /\
    ci_equal E (pattern_prefix ++ lit "_") pre /\
    ds <> [] /\ Forall (fun c => is_digit E c = true) ds /\
    ci_equal E (lit ".m4a") ext /\
    (nl = [] \/ nl = [10]).

(** The name of a sequential file with the digits [ds]: the prefix and
    the underscore up to case, the digits, the extension up to case. *)
Definition seq_name (E : Env) (pattern_prefix nm ds : pystr) : Prop :=
  exists pre ext,
    nm = pre ++ ds ++ ext /\
    ci_equal E (pattern_prefix ++ lit "_") pre /\
    ds <> [] /\ Forall (fun c => is_digit E c = true) ds /\
    ci_equal E (lit ".m4a") ext.

(** No name that ends with a newline has an extension the glob selects:
    so it is where names are compared case-sensitively, and so it is
    where a newline is not a case variant of the letter [a]. *)
Definition newline_is_no_extension (E : Env) : Prop :=
  glob_case_sensitive E = true \/ same_case E 97 10 = false.

(** The name as the specification words it: the prefix itself, an
    underscore, digits, and the extension up to case. *)
Definition named_as_specified (E : Env) (pattern_prefix nm : pystr) : Prop :=
  exists ds ext,
    nm = pattern_prefix ++ lit "_" ++ ds ++ ext /\
    ds <> [] /\ Forall (fun c => is_digit E c = true) ds /\
    ci_equal E (lit ".m4a") ext.

(** The sequence number [find_sequential_files] gives a path. *)
Definition sequence_num (E : Env) (pattern_prefix : pystr) (p : Path) : option N :=
  option_map (int_of E) (pattern_match E pattern_prefix (name p)).

Definition matches (E : Env) (pattern_prefix : pystr) (p : Path) : bool :=
  match pattern_match E pattern_prefix (name p) with Some _ => true | None => false end.

Definition has_num (E : Env) (pattern_prefix : pystr) (n : N) (p : Path) : bool :=
  match sequence_num E pattern_prefix p with
  | Some m => m =? n
  | None => false
  end.

(** [p] and [q] are numbered, and [p] not after [q]. *)
Definition seq_le (E : Env) (pattern_prefix : pystr) (p q : Path) : Prop :=
  match sequence_num E pattern_prefix p, sequence_num E pattern_prefix q with
  | Some a, Some b => a <= b
  | _, _ => False
  end.

(** ** Plans, segments and outcomes of a batch *)

(** The value of [get_chunk_count] and of [chunk_audio_file] for a file;
    neither depends on the world they run in. *)
Definition planned (E : Env) (self : AudioTranscriber) (f : Path) : result N :=
  fst (get_chunk_count E self f empty_world).

Definition segments (E : Env) (self : AudioTranscriber) (f : Path) (tmp : pystr)
    : result (list Path) :=
  fst (chunk_audio_file E self f tmp empty_world).

(** The sum of the planned counts, or the first exception of the planning. *)
Fixpoint planned_total (E : Env) (self : AudioTranscriber) (files : list Path) (acc : N)
    : result N :=
  match files with
  | [] => Val acc
  | f :: rest =>
      match planned E self f with
      | Val n => planned_total E self rest (acc + n)
      | Raise e => Raise e
      end
  end.

(** The exception of the first file that cannot be materialized. *)
Fixpoint first_failure (E : Env) (self : AudioTranscriber) (tmp : pystr) (files : list Path)
    : option exn :=
  match files with
  | [] => None
  | f :: rest =>
      match segments E self f tmp with
      | Val _ => first_failure E self tmp rest
      | Raise e => Some e
      end
  end.

(** The segments of the files up to the first that cannot be
    materialized, in file order and ordinal order. *)
Fixpoint attempted (E : Env) (self : AudioTranscriber) (tmp : pystr) (files : list Path)
    : list Path :=
  match files with
  | [] => []
  | f :: rest =>
      match segments E self f tmp with
      | Val segs => segs ++ attempted E self tmp rest
      | Raise _ => []
      end
  end.

(** The outcomes of the requests number [k], [k + 1], ... sent for
    [segs] in this order. *)
Fixpoint responses (E : Env) (lang : pystr) (k : nat) (segs : list Path) : list Response :=
  match segs with
  | [] => []
  | s :: rest => whisper E k s lang :: responses E lang (S k) rest
  end.

(** The texts of the successful outcomes, trimmed. *)
Definition successful_texts (rs : list Response) : list pystr :=
  flat_map (fun r => match r with Reply text => [strip text] | Failed _ => [] end) rs.

(** Those of them that are not empty and do not start with [[ERROR]. *)
Definition kept_texts (rs : list Response) : list pystr :=
  filter keep (successful_texts rs).

(** The blocks of the combined transcript: for the files numbered from
    [i], the requests numbered from [k], one block for every file of which
    [texts_of] retains a text. *)
Fixpoint blocks (E : Env) (self : AudioTranscriber) (lang tmp : pystr)
    (texts_of : list Response -> list pystr) (k : nat) (i : N) (files : list Path)
    : list pystr :=
  match files with
  | [] => []
  | f :: rest =>
      match segments E self f tmp with
      | Val segs =>
          match texts_of (responses E lang k segs) with
          | [] => []
          | t :: ts => [file_block self i f (t :: ts)]
          end ++ blocks E self lang tmp texts_of (k + List.length segs) (i + 1) rest
      | Raise _ => []
      end
  end.

(** The combined transcript of a batch started in [w]. *)
Definition transcript_of (E : Env) (self : AudioTranscriber) (lang : pystr)
    (texts_of : list Response -> list pystr) (files : list Path) (w : World) : pystr :=
  join [10; 10]
       (blocks E self lang (workspace E w) texts_of (requests_of (trace w)) 1 files).

(** An outcome with its unkept reply turned into a failure. *)
Definition as_failure (r : Response) : Response :=
  match r with
  | Reply text => if keep (strip text) then r else Failed []
  | Failed _ => r
  end.

(** The environment [E] with another transcription service. *)
Definition with_service (E : Env) (service : nat -> Path -> pystr -> Response) : Env :=
  mkEnv (decimal_value E) (same_case E) (glob_case_sensitive E) (listdir E) (st_size E)
        (decode E) (getenv_api_key E) (tmp_suffix E) service (chat E).

(** ** The output files *)

Definition file_prefix (args : Args) : pystr :=
  if test args then prefix args ++ lit "_test" else prefix args.

Definition transcript_file (args : Args) : Path :=
  joinpath (output args) (file_prefix args ++ lit "_transcript.txt").

Definition summary_file (args : Args) : Path :=
  joinpath (output args) (file_prefix args ++ lit "_summary.txt").

(** The text files after [p] was written with [content]. *)
Definition written (p : Path) (content : pystr) (files : list (Path * pystr))
    : list (Path * pystr) :=
  (p, content) :: filter (fun x => negb (Path_eqb (fst x) p)) files.

(** ** The progress counter *)

Definition is_progress (e : event) : bool :=
  match e with
  | EvRequest _ _ | EvUpdate _ | EvTqdm _ => true
  | _ => false
  end.

(** The requests and the operations on the progress bar of a trace. *)
Definition progress_part (evs : list event) : list event := filter is_progress evs.

(** The count of the progress bar after the events [evs], from zero. *)
Fixpoint completed (evs : list event) : N :=
  match evs with
  | [] => 0
  | EvUpdate n :: evs' => n + completed evs'
  | _ :: evs' => completed evs'
  end.

(** Decoding and exporting: the events of the planning and of the
    materialization. *)
Definition is_local (e : event) : Prop :=
  match e with
  | EvDecode _ | EvExport _ _ => True
  | _ => False
  end.

(** Read with a bar that counts [c]: every description in [evs] shows the
    total [total] and, as the current chunk, the count of the bar plus
    one. *)
Fixpoint described (total c : N) (evs : list event) : Prop :=
  match evs with
  | [] => True
  | EvSetDescription _ _ _ _ current_chunk total_chunks :: evs' =>
      total_chunks = total /\ current_chunk = c + 1 /\ described total c evs'
  | EvUpdate n :: evs' => described total (c + n) evs'
  | _ :: evs' => described total c evs'
  end.

(** One request and one step of the progress bar for every segment. *)
Definition attempt_events (lang : pystr) (segs : list Path) : list event :=
  flat_map (fun p => [EvRequest p lang; EvUpdate 1]) segs.

(** ** Sample environments *)

(** The ASCII part of the Unicode tables. *)
Definition ascii_decimal (c : N) : option N :=
  if (48 <=? c) && (c <=? 57) then Some (c - 48) else None.

Definition ascii_lower (c : N) : N :=
  if (65 <=? c) && (c <=? 90) then c + 32 else c.

Definition ascii_same_case (p c : N) : bool := ascii_lower p =? ascii_lower c.

(** A POSIX machine with an API key, the entries [entries] in every
    directory, and the given sizes, decodings and transcription service. *)
Definition posix_env (entries : list pystr) (size : Path -> N) (dec : Path -> option N)
    (service : nat -> Path -> pystr -> Response) : Env :=
  mkEnv ascii_decimal ascii_same_case true (fun _ => entries) size dec
        (Some (lit "sk-test")) (fun _ => lit "k3x9") service
        (fun _ _ => Reply (lit "summary")).

(** Two recordings: [meet_1.m4a] of 5 MB and [meet_2.m4a] of 25 MB and 22
    minutes; the service answers the number of the request. *)
Definition meet_1 : Path := mkPath (lit "rec") (lit "meet_1.m4a").
Definition meet_2 : Path := mkPath (lit "rec") (lit "meet_2.m4a").

Definition meeting_env : Env :=
  posix_env [lit "meet_2.m4a"; lit "meet_1.m4a"]
            (fun p => if PyStr.eqb (name p) (lit "meet_1.m4a")
                      then 5 * 1024 * 1024 else 25 * 1024 * 1024)
            (fun p => if PyStr.eqb (name p) (lit "meet_1.m4a")
                      then Some 300000 else Some 1320000)
            (fun k _ _ => Reply (lit " part " ++ str_of_N (N.of_nat k) ++ [10])).

(* ================================================================== *)
(** * Definitions used to state further properties *)

From Stdlib Require Import DecimalN.

Unset Implicit Arguments.

(** The windows [cs] follow one another from [from] to [to]: each starts
    where the one before stops. *)
Fixpoint chained (from : N) (cs : list AudioSegment) (to : N) : Prop :=
  match cs with
  | [] => from = to
  | c :: rest => start_ms c = from /\ chained (stop_ms c) rest to
  end.

(** [open(p).read()] on the text files written: the content of [p], if it
    exists. *)
Definition read_text (p : Path) (files : list (Path * pystr)) : option pystr :=
  option_map snd (find (fun x => Path_eqb (fst x) p) files).

(** A computation relates the world it starts in to the world it ends
    in by [R]. *)
Definition preserves (R : World -> World -> Prop) {A} (m : M A) : Prop :=
  forall w, R w (snd (m w)).

(** The artifact [x] is not in the directory [d]. *)
Definition outside (d : pystr) (x : Path * AudioSegment) : bool :=
  negb (PyStr.eqb (parent (fst x)) d).

(** From [w] to [w'] the temporary directories are the same, and so are
    the artifacts that are not in [d]. *)
Definition same_outside (d : pystr) (w w' : World) : Prop :=
  dirs w' = dirs w /\
  filter (outside d) (artifacts w') = filter (outside d) (artifacts w).

(** The audio of the exports of a trace, in order. *)
Definition exported (evs : list event) : list AudioSegment :=
  flat_map (fun e => match e with EvExport _ a => [a] | _ => [] end) evs.

(** The requests of a trace, in order. *)
Definition is_request (e : event) : bool :=
  match e with EvRequest _ _ => true | _ => false end.

Definition requests_in (evs : list event) : list event := filter is_request evs.

(** Tables that agree with ASCII where the naming scheme needs it: a
    character is its own case variant, the ten ASCII digits have their
    values, and the full stop is no digit. *)
Definition ascii_compatible (E : Env) : Prop :=
  (forall c, same_case E c c = true) /\
  (forall c, 48 <= c <= 57 -> decimal_value E c = Some (c - 48)) /\
  decimal_value E 46 = None.

(** One step of [int()]: the value so far, then one more digit. *)
Definition int_step (E : Env) (acc c : N) : N :=
  10 * acc + match decimal_value E c with Some v => v | None => 0 end.

(** The environment [E] with the entries [entries] in every directory. *)
Definition with_entries (E : Env) (entries : list pystr) : Env :=
  mkEnv (decimal_value E) (same_case E) (glob_case_sensitive E) (fun _ => entries)
        (st_size E) (decode E) (getenv_api_key E) (tmp_suffix E) (whisper E) (chat E).

(** The name of file number [n] of a sequence. *)
Definition sequential_name (pattern_prefix : pystr) (n : N) : pystr :=
  pattern_prefix ++ lit "_" ++ str_of_N n ++ lit ".m4a".

(** The client is given a key that is not empty: [__init__] returns. *)
Definition has_api_key (E : Env) : bool :=
  match getenv_api_key E with Some (_ :: _) => true | _ => false end.

(** The environment [E] with another summarization service. *)
Definition with_chat (E : Env) (service : pystr -> pystr -> Response) : Env :=
  mkEnv (decimal_value E) (same_case E) (glob_case_sensitive E) (listdir E) (st_size E)
        (decode E) (getenv_api_key E) (tmp_suffix E) (whisper E) service.

(** The two files [save_outputs] writes for a prefix. *)
Definition transcript_path (self : AudioTranscriber) (output_dir prefix : pystr) : Path :=
  joinpath output_dir
           ((if test_mode self then prefix ++ lit "_test" else prefix) ++ lit "_transcript.txt").

Definition summary_path (self : AudioTranscriber) (output_dir prefix : pystr) : Path :=
  joinpath output_dir
           ((if test_mode self then prefix ++ lit "_test" else prefix) ++ lit "_summary.txt").

(** The two messages [generate_summary] sends. *)
Definition system_message (self : AudioTranscriber) (language : pystr) : pystr :=
  lit "You are a helpful assistant that creates concise summaries. Please summarize the following transcript in "
  ++ language
  ++ lit ". Focus on key points, main topics discussed, and important conclusions. "
  ++ (if test_mode self
      then lit "Note: This summary is based on a 1-minute test sample." else []).

Definition user_message (transcript : pystr) : pystr :=
  lit "Please summarize this transcript:" ++ [10; 10] ++ transcript.

(** The outcome of a request gives no text to keep: the request failed,
    or the trimmed reply is empty or starts with the error prefix. *)
Definition unkept (r : Response) : bool :=
  match r with
  | Reply text => negb (keep (strip text))
  | Failed _ => true
  end.

(** The command line of the sample batch. *)
Definition meeting_args : Args :=
  mkArgs (lit "rec") (lit "meet") (lit "th") (lit "output") (lit "thai") false.

(** The sample batch with a transcription service that is down, and
    with a summarization service that is down. *)
Definition silent_env : Env :=
  with_service meeting_env (fun _ _ _ => Failed (lit "503")).

Definition no_summary_env : Env :=
  with_chat meeting_env (fun _ _ => Failed (lit "quota")).

(** The transcript of the sample batch. *)
Definition meeting_transcript : pystr :=
  lit "=== File 1: meet_1.m4a ===" ++ [10] ++ lit "part 0" ++ [10; 10]
  ++ lit "=== File 2: meet_2.m4a ===" ++ [10] ++ lit "part 1 part 2 part 3".

(** The error marker as the specification words it: annotated with the
    name of the file the segment [a] originates from. *)
Definition marker_of_origin (a : AudioSegment) : pystr :=
  lit "[ERROR: Could not transcribe " ++ name (source a) ++ lit "]".

Set Implicit Arguments.

(* ================================================================== *)
(** * The web front end ([src/web_app.py]): logging in and the route
      that runs the pipeline *)

From Stdlib Require Import Lqa.

Unset Implicit Arguments.

Module WebApp.

(** [a < b] on readings of [time.time()], in seconds.  The source
    subtracts two readings in binary floating point; readings between
    2^30 and 2^31 seconds (the years 2004 to 2038) are multiples of
    2^-22 s, so that their difference is computed exactly. *)
Definition Qlt_bool (a b : Q) : bool := negb (Qle_bool b a).

(** The Flask session, a signed cookie the client keeps: the keys the
    program uses.  [login_attempts s ip] is
    [session[f'login_attempts_{ip}']] when the key is there; the
    messages of [flash] wait in the session too. *)
Record Session := mkSession {
  authenticated : bool;                       (* session.get('authenticated') *)
  login_time : option Q;                      (* session['login_time'] *)
  permanent : bool;                           (* session.permanent *)
  login_attempts : pystr -> option (list Q);
  flashes : list (pystr * string)             (* message, category *)
}.

(** [session.clear()] *)
Definition clear (s : Session) : Session := mkSession false None false (fun _ => None) [].

(** [flash(message, category)] *)
Definition flash (message : pystr) (category : string) (s : Session) : Session :=
  mkSession (authenticated s) (login_time s) (permanent s) (login_attempts s)
            (flashes s ++ [(message, category)]).

(** [session[f'login_attempts_{ip}'] = v], or [del] of the key for
    [None]. *)
Definition set_attempts (ip : pystr) (v : option (list Q)) (s : Session) : Session :=
  mkSession (authenticated s) (login_time s) (permanent s)
            (fun k => if PyStr.eqb k ip then v else login_attempts s k) (flashes s).

(** What a view returns: [redirect(url_for(endpoint))], the page of a
    template, or the page of the results. *)
Inductive HttpResponse :=
| Redirect (endpoint : string)
| Page (template : string)
| Results (session_id transcript summary transcript_file summary_file : pystr)
          (test_mode : bool).

(** The parts of a request the views read. *)
Record Request := mkRequest {
  http_x_forwarded_for : option pystr;   (* request.environ.get('HTTP_X_FORWARDED_FOR') *)
  remote_addr : option pystr;            (* request.environ.get('REMOTE_ADDR') *)
  form_passcode : option pystr;          (* request.form.get('passcode') *)
  args_files : list pystr;               (* request.args.getlist('files') *)
  args_language : option pystr;
  args_summary_lang : option pystr;
  args_model : option pystr;
  args_test_mode : option pystr
}.

(** [d.get(key, default)] *)
Definition get_default {A} (v : option A) (default : A) : A :=
  match v with Some x => x | None => default end.

Definition SESSION_TIMEOUT : Q := 3600.

Definition client_ip (rq : Request) : pystr :=
  get_default (http_x_forwarded_for rq) (get_default (remote_addr rq) (lit "unknown")).

(** The attempts of [attempts] that are less than 15 minutes old. *)
Definition recent (current_time : Q) (attempts : list Q) : list Q :=
  filter (fun t => Qlt_bool (current_time - t) 900) attempts.

(** [login_post()], the view of [POST /login], at the time
    [current_time] read from the clock. *)
Definition login_post (APP_PASSCODE : pystr) (rq : Request) (current_time : Q) (s : Session)
    : HttpResponse * Session :=
  let ip := client_ip rq in
  let s := match login_attempts s ip with
           | Some _ => s
           | None => set_attempts ip (Some []) s
           end in
  let s := set_attempts ip (Some (recent current_time (get_default (login_attempts s ip) []))) s in
  if (5 <=? List.length (get_default (login_attempts s ip) []))%nat then
    (Redirect "login",
     flash (lit "Too many login attempts. Please wait 15 minutes before trying again.")
           "error" s)
  else
    let passcode := strip (get_default (form_passcode rq) []) in
    if negb (truthy passcode) then
      (Redirect "login", flash (lit "Please enter a passcode.") "error" s)
    else if PyStr.eqb passcode APP_PASSCODE then
      let s := mkSession true (Some current_time) true (login_attempts s) (flashes s) in
      let s := match login_attempts s ip with
               | Some _ => set_attempts ip None s
               | None => s
               end in
      (Redirect "index", flash (lit "Access granted! Welcome to Audio Transcriber.") "success" s)
    else
      let s := set_attempts ip (Some (get_default (login_attempts s ip) [] ++ [current_time])) s in
      (Redirect "login", flash (lit "Invalid passcode. Please try again.") "error" s).

(** The state of the application: the session of the client and the
    world of the pipeline. *)
Definition State : Type := Session * World.

(** The decorator [login_required], around a view [f]; [now] is the
    reading of the clock, taken when the session has a login time. *)
Definition login_required (f : State -> HttpResponse * State) (now : Q) (st : State)
    : HttpResponse * State :=
  let '(s, w) := st in
  if negb (authenticated s) then
    (Redirect "login",
     (flash (lit "Please enter the passcode to access this application.") "error" s, w))
  else
    match login_time s with
    | Some t =>
        if Qlt_bool SESSION_TIMEOUT (now - t) then
          (Redirect "login",
           (flash (lit "Session expired. Please log in again.") "error" (clear s), w))
        else f st
    | None => f st
    end.

(** Requests to [POST /login], one after the other. *)
Fixpoint login_posts (APP_PASSCODE : pystr) (rqs : list (Request * Q)) (s : Session) : Session :=
  match rqs with
  | [] => s
  | (rq, current_time) :: rest =>
      login_posts APP_PASSCODE rest (snd (login_post APP_PASSCODE rq current_time s))
  end.

(** No key of the session holds more than five attempts. *)
Definition bounded (s : Session) : Prop :=
  forall ip l, login_attempts s ip = Some l -> (List.length l <= 5)%nat.

(** ** The view that runs the pipeline *)

(** The exceptions a view can see: those of the pipeline, and the
    [TypeError] of a call that does not fit the signature of the
    callee. *)
Inductive web_exn :=
| Pipeline (e : exn)
| TypeError (msg : pystr).

Inductive wresult (A : Type) :=
| WVal (a : A)
| WRaise (e : web_exn).
Arguments WVal {A} a.
Arguments WRaise {A} e.

Definition WM (A : Type) : Type := State -> wresult A * State.

Definition wret {A} (a : A) : WM A := fun st => (WVal a, st).

Definition wbind {A B} (m : WM A) (k : A -> WM B) : WM B :=
  fun st => match m st with
            | (WVal a, st') => k a st'
            | (WRaise e, st') => (WRaise e, st')
            end.

(** A method of the pipeline, called from a view. *)
Definition lift {A} (m : M A) : WM A :=
  fun st => match m (snd st) with
            | (Val a, w) => (WVal a, (fst st, w))
            | (Raise e, w) => (WRaise (Pipeline e), (fst st, w))
            end.

Definition wflash (message : pystr) (category : string) : WM unit :=
  fun st => (WVal tt, (flash message category (fst st), snd st)).

(** The parameters of [AudioTranscriber.__init__] after [self]. *)
Definition init_parameters : list string := ["api_key"; "test_mode"]%string.

(** [s <= t] on strings: the order of the code points, the shorter of a
    string and its extension first. *)
Fixpoint str_leb (s t : pystr) : bool :=
  match s, t with
  | [], _ => true
  | _ :: _, [] => false
  | a :: s', b :: t' => (a <? b) || ((a =? b) && str_leb s' t')
  end.

(** [file_paths.sort(key=lambda x: x.name)]: a stable sort. *)
Fixpoint insert_by_name (x : Path) (l : list Path) : list Path :=
  match l with
  | [] => [x]
  | y :: l' => if str_leb (name x) (name y) then x :: l else y :: insert_by_name x l'
  end.

Definition sort_by_name (l : list Path) : list Path := fold_right insert_by_name [] l.

Section Views.
Variable E : Env.
(** [str(e)] for the [TypeError] of a keyword that is no parameter, and
    for the exceptions of the pipeline. *)
Variable unexpected_keyword : string -> pystr.
Variable str_of_exn : exn -> pystr.
(** [Path(f)] *)
Variable Path_of_str : pystr -> Path.

Definition str_of_web_exn (e : web_exn) : pystr :=
  match e with
  | Pipeline e => str_of_exn e
  | TypeError msg => msg
  end.

(** [AudioTranscriber(k1=..., k2=...)] with the keywords [keywords]: the
    call binds them to the parameters of [__init__] before its body
    runs, and raises [TypeError] for the first that is no parameter. *)
Definition construct (keywords : list string) (api_key : option pystr) (test : bool)
    : WM AudioTranscriber :=
  match find (fun k => negb (existsb (String.eqb k) init_parameters)) keywords with
  | Some k => fun st => (WRaise (TypeError (unexpected_keyword k)), st)
  | None => lift (init E api_key test)
  end.

(** [process_audio(session_id)], the view of [/process/<session_id>]
    under its decorator.  [results_dir.mkdir(exist_ok=True)] and the two
    writes are taken to succeed. *)
Definition process_audio (session_id : pystr) (rq : Request) (st : State)
    : HttpResponse * State :=
  let body : WM HttpResponse :=
    let files := args_files rq in
    let language := get_default (args_language rq) (lit "th") in
    let summary_lang := get_default (args_summary_lang rq) (lit "thai") in
    let model := get_default (args_model rq) (lit "whisper-1") in
    let test_mode :=
      match args_test_mode rq with
      | Some v => PyStr.eqb v (lit "True")
      | None => false
      end in
    if negb (truthy files) then
      wbind (wflash (lit "No files to process") "error") (fun _ =>
      wret (Redirect "index"))
    else
      wbind (construct ["test_mode"; "model"]%string None test_mode) (fun transcriber =>
      let results_dir := lit "results" ++ lit "/" ++ session_id in
      let file_paths := map Path_of_str files in
      let file_paths := sort_by_name file_paths in
      wbind (lift (process_sequential_files E transcriber file_paths language))
            (fun transcript =>
      if negb (truthy transcript) then
        wbind (wflash (lit "No transcript generated. Please check your audio files.") "error")
              (fun _ =>
        wret (Redirect "index"))
      else
        wbind (lift (generate_summary E transcriber transcript summary_lang)) (fun summary =>
        let prefix := lit "session_" ++ firstn 8 session_id in
        let prefix := if test_mode then prefix ++ lit "_test" else prefix in
        let transcript_file := joinpath results_dir (prefix ++ lit "_transcript.txt") in
        let summary_file := joinpath results_dir (prefix ++ lit "_summary.txt") in
        wbind (lift (write_text transcript_file transcript)) (fun _ =>
        wbind (lift (write_text summary_file summary)) (fun _ =>
        wret (Results session_id transcript summary (name transcript_file)
                      (name summary_file) test_mode)))))) in
  match body st with
  | (WVal r, st') => (r, st')
  | (WRaise e, st') =>
      (Redirect "index",
       (flash (lit "Error processing audio: " ++ str_of_web_exn e) "error" (fst st'), snd st'))
  end.

End Views.

(** ** A sample client *)

Definition fresh_session : Session := mkSession false None false (fun _ => None) [].

(** A request from 10.0.0.7 to [POST /login] with the passcode
    [passcode]. *)
Definition login_request (passcode : string) : Request :=
  mkRequest None (Some (lit "10.0.0.7")) (Some (lit passcode)) [] None None None None.

End WebApp.

Set Implicit Arguments.

(* ================================================================== *)
(** * Facts about strings *)

Lemma lstrip_split (s : pystr) :
  exists l, s = l ++ lstrip s /\ forallb isspace l = true.
Proof.
  induction s as [|c s IH]; simpl.
  - exists []; split; reflexivity.
  - destruct (isspace c) eqn:Hc.
    + destruct IH as [l [Hs Hl]].
      exists (c :: l); simpl; rewrite Hc, Hl; split; [now f_equal | reflexivity].
    + exists []; split; reflexivity.
Qed.

Lemma lstrip_head (s : pystr) c s' : lstrip s = c :: s' -> isspace c = false.
Proof.
  induction s as [|a s IH]; simpl; [discriminate|].
  destruct (isspace a) eqn:Ha; [exact IH|].
  intros H; injection H as <- _; exact Ha.
Qed.

Lemma forallb_rev {A} (f : A -> bool) l : forallb f (rev l) = forallb f l.
Proof.
  induction l as [|a l IH]; simpl; [reflexivity|].
  rewrite forallb_app, IH; simpl. rewrite andb_true_r. apply andb_comm.
Qed.

(** [strip] removes a run of white space at each end and stops at the
    first character that is none. *)
Lemma strip_spec (t : pystr) :
  exists l r,
    t = l ++ strip t ++ r /\
    forallb isspace l = true /\ forallb isspace r = true /\
    (forall c s, strip t = c :: s -> isspace c = false) /\
    (forall s c, strip t = s ++ [c] -> isspace c = false).
Proof.
  destruct (lstrip_split t) as [l [Ht Hl]].
  destruct (lstrip_split (rev (lstrip t))) as [r [Hu Hr]].
  assert (Hu' : lstrip t = strip t ++ rev r).
  { unfold strip, rstrip. rewrite <- rev_app_distr, <- Hu. symmetry; apply rev_involutive. }
  exists l, (rev r). repeat split.
  - rewrite <- Hu'. exact Ht.
  - exact Hl.
  - rewrite forallb_rev. exact Hr.
  - intros c s Hs. rewrite Hs in Hu'. simpl in Hu'. exact (lstrip_head _ Hu').
  - intros s c Hs. unfold strip, rstrip in Hs.
    apply (f_equal (@rev N)) in Hs. rewrite rev_involutive, rev_app_distr in Hs.
    simpl in Hs. exact (lstrip_head _ Hs).
Qed.

Example strip_example :
  strip (9 :: lit "  hello  world " ++ [13; 10; 12288]) = lit "hello  world".
Proof. reflexivity. Qed.

Example join_example :
  join (lit ", ") [lit "a"; lit "b"; lit "c"] = lit "a, b, c" /\
  join (lit ", ") [lit "a"] = lit "a" /\ join (lit ", ") [] = [].
Proof. repeat split. Qed.

Example str_of_N_example :
  str_of_N 0 = lit "0" /\ str_of_N 12 = lit "12" /\
  format_03d 7 = lit "007" /\ format_03d 1234 = lit "1234".
Proof. repeat split. Qed.

Example stem_example :
  stem (mkPath (lit "rec") (lit "meet_2.m4a")) = lit "meet_2" /\
  stem (mkPath (lit "rec") (lit "a.b.m4a")) = lit "a.b" /\
  stem (mkPath (lit "rec") (lit ".m4a")) = lit ".m4a".
Proof. repeat split. Qed.

Lemma startswith_app (pre s : pystr) : startswith pre (pre ++ s) = true.
Proof.
  induction pre as [|p pre IH]; simpl; [reflexivity|].
  now rewrite N.eqb_refl.
Qed.

Lemma eqb_eq (s t : pystr) : PyStr.eqb s t = true <-> s = t.
Proof.
  unfold PyStr.eqb. destruct (list_eq_dec N.eq_dec s t); split; intros; congruence.
Qed.

Lemma eqb_refl (s : pystr) : PyStr.eqb s s = true.
Proof. now apply eqb_eq. Qed.

(* ================================================================== *)
(** * Facts about computations *)

Lemma requests_of_app tr1 tr2 :
  requests_of (tr1 ++ tr2) = (requests_of tr1 + requests_of tr2)%nat.
Proof.
  induction tr1 as [|e tr1 IH]; simpl; [reflexivity|].
  destruct e; simpl; rewrite IH; reflexivity.
Qed.

Lemma extends_refl w : extends w w.
Proof. split; [exists []; now rewrite app_nil_r | reflexivity]. Qed.

Lemma extends_trans w1 w2 w3 : extends w1 w2 -> extends w2 w3 -> extends w1 w3.
Proof.
  intros [[e1 H1] O1] [[e2 H2] O2]. split.
  - exists (e1 ++ e2). now rewrite H2, H1, app_assoc.
  - congruence.
Qed.

Lemma extends_event w e :
  extends w (mkWorld (trace w ++ [e]) (dirs w) (artifacts w) (outputs w)).
Proof. split; [now exists [e] | reflexivity]. Qed.

Lemma grows_ret {A} (a : A) : grows (ret a).
Proof. intros w. apply extends_refl. Qed.

Lemma grows_raise {A} e : grows (@raise A e).
Proof. intros w. apply extends_refl. Qed.

Lemma grows_emit e : grows (emit e).
Proof. intros w. apply extends_event. Qed.

Lemma grows_bind {A B} (m : M A) (k : A -> M B) :
  grows m -> (forall a, grows (k a)) -> grows (bind m k).
Proof.
  intros Hm Hk w. unfold bind. specialize (Hm w).
  destruct (m w) as [[a|e] w1]; simpl in *.
  - eapply extends_trans; [exact Hm | apply Hk].
  - exact Hm.
Qed.

Lemma grows_try_except {A} (m : M A) (h : exn -> M A) :
  grows m -> (forall e, grows (h e)) -> grows (try_except m h).
Proof.
  intros Hm Hh w. unfold try_except. specialize (Hm w).
  destruct (m w) as [[a|e] w1]; simpl in *.
  - exact Hm.
  - eapply extends_trans; [exact Hm | apply Hh].
Qed.

Ltac grows_step :=
  first [ apply grows_bind; [|intro] | apply grows_try_except; [|intro]
        | apply grows_ret | apply grows_raise | apply grows_emit ].

Section BasicFacts.
Variable E : Env.

Lemma grows_from_file p : grows (from_file E p).
Proof.
  unfold from_file. grows_step; [grows_step|].
  destruct (decode E p); grows_step.
Qed.

Lemma grows_get_chunk_count self p : grows (get_chunk_count E self p).
Proof.
  unfold get_chunk_count.
  destruct (test_mode self); [grows_step|].
  destruct (within_limit E self p); [grows_step|].
  grows_step; [apply grows_from_file | grows_step].
Qed.

Lemma grows_export a p : grows (export a p).
Proof. intros w. split; [now exists [EvExport p a] | reflexivity]. Qed.

Lemma grows_export_chunks f tmp chunks : forall i acc, grows (export_chunks f tmp i chunks acc).
Proof.
  induction chunks as [|c chunks IH]; intros i acc; simpl.
  - grows_step.
  - grows_step; [apply grows_export | apply IH].
Qed.

Lemma grows_chunk_audio_file self p tmp : grows (chunk_audio_file E self p tmp).
Proof.
  unfold chunk_audio_file. grows_step; [apply grows_from_file|].
  destruct (test_mode self).
  - grows_step; [apply grows_export | grows_step].
  - destruct (within_limit E self p); [grows_step | apply grows_export_chunks].
Qed.

Lemma grows_create_transcription p lang : grows (create_transcription E p lang).
Proof.
  intros w. unfold create_transcription.
  destruct (whisper E _ p lang); apply extends_event.
Qed.

Lemma grows_transcribe_audio self p lang c t : grows (transcribe_audio E self p lang c t).
Proof.
  unfold transcribe_audio. grows_step; [|grows_step].
  grows_step; [apply grows_create_transcription | grows_step].
Qed.

Lemma grows_transcribe_chunks self lang i nf nc tot chunks :
  forall j cur acc, grows (transcribe_chunks E self lang i nf nc tot chunks j cur acc).
Proof.
  induction chunks as [|c chunks IH]; intros j cur acc; simpl.
  - grows_step.
  - grows_step; [grows_step|].
    grows_step; [apply grows_transcribe_audio|].
    grows_step; [grows_step | apply IH].
Qed.

Lemma grows_process_files self lang tmp nf tot files :
  forall i cur acc, grows (process_files E self lang tmp nf tot files i cur acc).
Proof.
  induction files as [|f files IH]; intros i cur acc; simpl.
  - grows_step.
  - grows_step; [apply grows_chunk_audio_file|].
    grows_step; [apply grows_transcribe_chunks|].
    destruct a0 as [c ts]. apply IH.
Qed.

Lemma grows_sum_chunk_counts self files : forall acc, grows (sum_chunk_counts E self files acc).
Proof.
  induction files as [|f files IH]; intros acc; simpl.
  - grows_step.
  - grows_step; [apply grows_get_chunk_count | apply IH].
Qed.

Lemma grows_batch_body self files lang tmp : grows (batch_body E self files lang tmp).
Proof.
  unfold batch_body. grows_step; [apply grows_sum_chunk_counts|].
  grows_step; [grows_step|].
  grows_step; [apply grows_process_files|].
  grows_step; grows_step.
Qed.

(** [process_sequential_files] step by step: the directory is made, the
    body runs, the directory is removed whatever the body did. *)
Lemma process_sequential_files_unfold self files lang w :
  let d := lit "audio_chunks_" ++ tmp_suffix E (dirs w) in
  let w1 := mkWorld (trace w ++ [EvMkdtemp d]) (d :: dirs w) (artifacts w) (outputs w) in
  let rb := batch_body E self files lang d w1 in
  let w2 := mkWorld (trace (snd rb) ++ [EvRmtree d])
                    (filter (fun x => negb (PyStr.eqb x d)) (dirs (snd rb)))
                    (filter (fun x => negb (PyStr.eqb (parent (fst x)) d)) (artifacts (snd rb)))
                    (outputs (snd rb)) in
  process_sequential_files E self files lang w =
    (match fst rb with
     | Val all => Val (join [10; 10] all)
     | Raise e => Raise e
     end, w2).
Proof.
  cbv zeta. unfold process_sequential_files, batch_body.
  unfold bind at 1. unfold mkdtemp. cbv beta iota.
  unfold bind at 1. unfold try_finally, rmtree.
  match goal with
  | |- context [bind (sum_chunk_counts ?a ?b ?c ?d) ?k ?w0] =>
      destruct (bind (sum_chunk_counts a b c d) k w0) as [[all|e] wb]
  end; reflexivity.
Qed.

End BasicFacts.

(* ================================================================== *)
(** * TranscriptionDriver *)

Section DriverFacts.
Variable E : Env.

Lemma transcribe_audio_eq self p lang cur total w :
  transcribe_audio E self p lang cur total w =
    (Val match whisper E (requests_of (trace w)) p lang with
         | Reply text => strip text
         | Failed _ => lit "[ERROR: Could not transcribe " ++ name p ++ lit "]"
         end,
     mkWorld (trace w ++ [EvRequest p lang]) (dirs w) (artifacts w) (outputs w)).
Proof.
  unfold transcribe_audio, try_except, bind, create_transcription.
  destruct (whisper E _ p lang); reflexivity.
Qed.

End DriverFacts.

(* ================================================================== *)
(** * The workspace *)

Section WorkspaceFacts.
Variable E : Env.

Lemma filter_neq_not_in (d : pystr) (l : list pystr) :
  ~ In d (filter (fun x => negb (PyStr.eqb x d)) l).
Proof.
  intros H. apply filter_In in H. destruct H as [_ H].
  rewrite eqb_refl in H. discriminate.
Qed.

(** C8. Whatever the body of the [try] does, return or raise, the last
    thing [process_sequential_files] does is to remove the directory it
    created: afterwards the directory does not exist and no artifact is
    left in it. *)
Theorem workspace_removed self files lang w :
  let d := workspace E w in
  let r := fst (process_sequential_files E self files lang w) in
  let w' := snd (process_sequential_files E self files lang w) in
  (exists evs, trace w' = trace w ++ EvMkdtemp d :: evs ++ [EvRmtree d]) /\
  ~ In d (dirs w') /\
  (forall p a, In (p, a) (artifacts w') -> parent p <> d) /\
  match fst (batch_body E self files lang d (snd (mkdtemp E (lit "audio_chunks_") w))) with
  | Val all_transcripts => r = Val (join [10; 10] all_transcripts)
  | Raise e => r = Raise e
  end.
Proof.
  cbv zeta. rewrite process_sequential_files_unfold. cbv zeta.
  fold (workspace E w). set (d := workspace E w).
  set (w1 := mkWorld _ _ _ _).
  change (snd (mkdtemp E (lit "audio_chunks_") w)) with w1.
  destruct (grows_batch_body E self files lang d w1) as [[evs Hevs] _].
  destruct (batch_body E self files lang d w1) as [rb wb] eqn:Hb.
  simpl in *. repeat split.
  - exists evs. rewrite Hevs. subst w1; simpl.
    rewrite <- !app_assoc. reflexivity.
  - apply filter_neq_not_in.
  - intros p a H Hp. apply filter_In in H. destruct H as [_ H]. simpl in H.
    rewrite Hp, eqb_refl in H. discriminate.
  - destruct rb; reflexivity.
Qed.

(** The cleanup also runs on the exit by an exception: a batch whose only
    file does not decode raises, and its directory is gone. *)
Example workspace_removed_on_raise :
  let E0 := posix_env [] (fun _ => 5) (fun _ => None) (fun _ _ _ => Reply []) in
  let f := mkPath (lit "rec") (lit "a_1.m4a") in
  let run := process_sequential_files E0 (new_transcriber false) [f] (lit "th") empty_world in
  fst run = Raise (CouldntDecodeError f) /\
  dirs (snd run) = [] /\
  trace (snd run) =
    [EvMkdtemp (lit "audio_chunks_k3x9"); EvTqdm 1; EvDecode f; EvRmtree (lit "audio_chunks_k3x9")].
Proof. vm_compute. repeat split. Qed.

End WorkspaceFacts.

(* ================================================================== *)
(** * ChunkPlanner and SegmentMaterializer *)

Section PlannerFacts.
Variable E : Env.

(** The comparison of the size in MB with the limit of 10 is the
    comparison of the size in bytes with 10 * 1024 * 1024. *)
Lemma within_limit_bytes test p :
  within_limit E (new_transcriber test) p = (st_size E p <=? 10 * 1024 * 1024).
Proof.
  unfold within_limit, get_file_size_mb, Qle_bool, new_transcriber; simpl.
  destruct (N.leb_spec (st_size E p) 10485760);
    [apply Z.leb_le | apply Z.leb_gt]; lia.
Qed.

(** [ceil_div] is the ceiling of the quotient. *)
Lemma ceil_div_spec d L n : 0 < L -> (ceil_div d L = n <-> (n - 1) * L < d + (if n =? 0 then 1 else 0) /\ d <= n * L).
Proof.
  intros HL. unfold ceil_div.
  assert (HL0 : L <> 0) by lia.
  pose proof (N.div_mod (d + L - 1) L HL0) as Hdm.
  pose proof (N.mod_lt (d + L - 1) L HL0) as Hlt.
  set (q := (d + L - 1) / L) in *. set (r := (d + L - 1) mod L) in *.
  destruct (N.eqb_spec n 0) as [->|Hn].
  - split.
    + intros Hq. rewrite Hq in Hdm. nia.
    + intros [_ Hd]. assert (d = 0) by lia. subst d.
      destruct (N.eq_dec q 0) as [|Hq]; [assumption|]. nia.
  - split.
    + intros <-. nia.
    + intros [H1 H2]. nia.
Qed.

Lemma lt_ceil_div d L k : 0 < L -> (k < ceil_div d L <-> k * L < d).
Proof.
  intros HL. unfold ceil_div.
  assert (HL0 : L <> 0) by lia.
  pose proof (N.div_mod (d + L - 1) L HL0) as Hdm.
  pose proof (N.mod_lt (d + L - 1) L HL0) as Hlt.
  set (q := (d + L - 1) / L) in *. set (r := (d + L - 1) mod L) in *.
  split; intros H; nia.
Qed.

Lemma map_combine_self {A B C} (g : A * B -> C) (h : A -> B) (l : list A) :
  map g (combine l (map h l)) = map (fun k => g (k, h k)) l.
Proof. induction l as [|x l IH]; simpl; [reflexivity | now rewrite IH]. Qed.

Lemma length_make_chunks a L :
  List.length (make_chunks a L) = N.to_nat (ceil_div (len a) L).
Proof. unfold make_chunks. now rewrite length_map, length_seq. Qed.

(** The windows of [make_chunks]: window [k] starts at [k * L] and stops
    at [(k + 1) * L] or at the end of the audio. *)
Lemma make_chunks_windows f d L :
  0 < L ->
  make_chunks (mkAudio f 0 d) L =
    map (fun k => mkAudio f (N.of_nat k * L) (N.min ((N.of_nat k + 1) * L) d))
        (seq 0 (N.to_nat (ceil_div d L))).
Proof.
  intros HL. unfold make_chunks, len; simpl. rewrite N.sub_0_r.
  apply map_ext_in. intros k Hk. apply in_seq in Hk.
  assert (Hlt : N.of_nat k < ceil_div d L) by lia.
  apply lt_ceil_div in Hlt; [|assumption].
  unfold slice, len; simpl. rewrite N.sub_0_r.
  f_equal. lia.
Qed.

Lemma export_chunks_eq f tmp chunks : forall i acc w,
  exists w',
    export_chunks f tmp (N.of_nat i) chunks acc w =
      (Val (acc ++ map (chunk_path f tmp) (seq i (List.length chunks))), w') /\
    trace w' =
      trace w ++ map (fun kc => EvExport (chunk_path f tmp (fst kc)) (snd kc))
                     (combine (seq i (List.length chunks)) chunks) /\
    dirs w' = dirs w /\ outputs w' = outputs w.
Proof.
  induction chunks as [|c chunks IH]; intros i acc w.
  - exists w. cbn. rewrite !app_nil_r. repeat split.
  - cbn [export_chunks]. unfold bind, export.
    fold (chunk_path f tmp i).
    replace (N.of_nat i + 1) with (N.of_nat (S i)) by lia.
    edestruct (IH (S i)) as (w' & H1 & H2 & H3 & H4).
    exists w'. rewrite H1, H2, H3, H4.
    cbn [List.length seq map combine fst snd trace dirs outputs].
    rewrite <- !app_assoc. repeat split.
Qed.

Lemma ceil_div_least d L :
  0 < L -> d <= ceil_div d L * L /\ forall m, d <= m * L -> ceil_div d L <= m.
Proof.
  intros HL. split.
  - destruct (N.le_gt_cases d (ceil_div d L * L)) as [H|H]; [exact H|].
    apply lt_ceil_div in H; [lia | exact HL].
  - intros m Hm. destruct (N.le_gt_cases (ceil_div d L) m) as [H|H]; [exact H|].
    apply lt_ceil_div in H; [lia | exact HL].
Qed.

Lemma get_chunk_count_test f w :
  get_chunk_count E (new_transcriber true) f w = (Val 1, w).
Proof. reflexivity. Qed.

Lemma get_chunk_count_small f w :
  st_size E f <= 10485760 ->
  get_chunk_count E (new_transcriber false) f w = (Val 1, w).
Proof.
  intros H. unfold get_chunk_count. cbn [test_mode new_transcriber].
  rewrite within_limit_bytes. apply N.leb_le in H. change (10 * 1024 * 1024) with 10485760.
  rewrite H. reflexivity.
Qed.

Lemma get_chunk_count_large f w :
  10485760 < st_size E f ->
  get_chunk_count E (new_transcriber false) f w =
    match decode E f with
    | Some d => (Val (ceil_div d 600000),
                 mkWorld (trace w ++ [EvDecode f]) (dirs w) (artifacts w) (outputs w))
    | None => (Raise (CouldntDecodeError f),
               mkWorld (trace w ++ [EvDecode f]) (dirs w) (artifacts w) (outputs w))
    end.
Proof.
  intros H. unfold get_chunk_count. cbn [test_mode new_transcriber].
  rewrite within_limit_bytes. apply N.leb_gt in H. change (10 * 1024 * 1024) with 10485760.
  rewrite H. unfold bind, from_file, emit, bind.
  destruct (decode E f) as [d|]; [|reflexivity].
  unfold ret. rewrite length_make_chunks, N2Nat.id.
  unfold len; cbn [start_ms stop_ms chunk_length_ms]. rewrite N.sub_0_r. reflexivity.
Qed.

(** C2. Outside of test mode a file of at most 10 * 1024 * 1024 bytes is
    planned as one segment and materialized as the file itself, nothing
    being written (WHOLE); a larger file is planned as [n] segments, [n]
    the ceiling of its duration over the window of 600 000 ms, and
    materialized as [n] exported windows, each 600 000 ms long but the
    last, which stops with the audio (SPLIT). *)
Theorem chunk_plan f tmp w :
  let self := new_transcriber false in
  let decoded := mkWorld (trace w ++ [EvDecode f]) (dirs w) (artifacts w) (outputs w) in
  (st_size E f <= 10 * 1024 * 1024 ->
     get_chunk_count E self f w = (Val 1, w) /\
     forall d, decode E f = Some d ->
       chunk_audio_file E self f tmp w = (Val [f], decoded)) /\
  (10 * 1024 * 1024 < st_size E f ->
     forall d, decode E f = Some d ->
       let n := ceil_div d 600000 in
       (d <= n * 600000 /\ forall m, d <= m * 600000 -> n <= m) /\
       get_chunk_count E self f w = (Val n, decoded) /\
       fst (chunk_audio_file E self f tmp w) =
         Val (map (chunk_path f tmp) (seq 0 (N.to_nat n))) /\
       trace (snd (chunk_audio_file E self f tmp w)) =
         trace w ++ EvDecode f ::
           map (fun k => EvExport (chunk_path f tmp k)
                           (mkAudio f (N.of_nat k * 600000)
                                    (N.min ((N.of_nat k + 1) * 600000) d)))
               (seq 0 (N.to_nat n))).
Proof.
  cbv zeta. change (10 * 1024 * 1024) with 10485760. split.
  - intros Hs. split; [now apply get_chunk_count_small|].
    intros d Hd. unfold chunk_audio_file, bind, from_file, emit, bind. rewrite Hd.
    cbn [test_mode new_transcriber ret]. rewrite within_limit_bytes.
    change (10 * 1024 * 1024) with 10485760.
    apply N.leb_le in Hs. rewrite Hs. reflexivity.
  - intros Hs d Hd. split; [apply ceil_div_least; lia|].
    split; [rewrite get_chunk_count_large, Hd by exact Hs; reflexivity|].
    unfold chunk_audio_file, bind, from_file, emit, bind. rewrite Hd.
    cbn [test_mode new_transcriber ret chunk_length_ms]. rewrite within_limit_bytes.
    change (10 * 1024 * 1024) with 10485760.
    apply N.leb_gt in Hs. rewrite Hs.
    change (10 * 60 * 1000) with 600000.
    rewrite make_chunks_windows by lia.
    set (ws := map _ (seq 0 _)).
    destruct (export_chunks_eq f tmp ws 0 []
                (mkWorld (trace w ++ [EvDecode f]) (dirs w) (artifacts w) (outputs w)))
      as (w' & H1 & H2 & _).
    change (N.of_nat 0) with 0 in H1. rewrite H1. cbn [fst snd].
    rewrite H2. cbn [trace]. subst ws. rewrite length_map, length_seq.
    split; [reflexivity|].
    rewrite <- app_assoc. cbn [app]. do 2 f_equal.
    apply map_combine_self.
Qed.

(** C9. In test mode every file is planned as one segment, whatever its
    size and without a look at its audio; a file that decodes is
    materialized as one artifact, written in the workspace, that holds the
    audio from its start to 60 000 ms or to its end when it is shorter
    (TRUNCATED_SAMPLE). *)
Theorem test_mode_sample f tmp w :
  let self := new_transcriber true in
  get_chunk_count E self f w = (Val 1, w) /\
  forall d, decode E f = Some d ->
    let p := joinpath tmp (stem f ++ lit "_test_1min.mp4") in
    let a := mkAudio f 0 (N.min 60000 d) in
    chunk_audio_file E self f tmp w =
      (Val [p],
       mkWorld (trace w ++ [EvDecode f; EvExport p a]) (dirs w)
               ((p, a) :: filter (fun x => negb (Path_eqb (fst x) p)) (artifacts w))
               (outputs w)) /\
    parent p = tmp /\ source a = f /\ start_ms a = 0 /\
    len a = N.min 60000 d /\ len a <= 60000.
Proof.
  cbv zeta. split; [reflexivity|]. intros d Hd. split.
  - unfold chunk_audio_file, bind, from_file, emit, bind. rewrite Hd.
    cbn [test_mode new_transcriber ret test_duration_ms]. unfold export, slice, len.
    cbn [trace dirs artifacts outputs source start_ms stop_ms].
    rewrite <- app_assoc, N.sub_0_r. change (60 * 1000) with 60000.
    rewrite N.min_0_l, !N.add_0_l. reflexivity.
  - unfold len; cbn. rewrite N.sub_0_r. repeat split. apply N.le_min_l.
Qed.

End PlannerFacts.

(* ================================================================== *)
(** * Stable sorting *)

Section SortFacts.
Variable A : Type.
Variable key : A -> N.

Lemma insert_by_perm x l : Permutation (insert_by key x l) (x :: l).
Proof.
  induction l as [|y l IH]; simpl; [constructor; constructor|].
  destruct (key x <=? key y); [reflexivity|].
  rewrite perm_swap. now constructor.
Qed.

Lemma sort_by_perm l : Permutation (sort_by key l) l.
Proof.
  induction l as [|x l IH]; simpl; [constructor|].
  rewrite insert_by_perm. now constructor.
Qed.

Lemma insert_by_sorted x l :
  StronglySorted (fun a b => key a <= key b) l ->
  StronglySorted (fun a b => key a <= key b) (insert_by key x l).
Proof.
  induction l as [|y l IH]; intros Hs; simpl.
  - constructor; constructor.
  - inversion Hs as [|y' l' Hl Hy]; subst.
    destruct (N.leb_spec (key x) (key y)) as [Hle|Hgt].
    + constructor; [exact Hs|]. constructor; [exact Hle|].
      eapply Forall_impl; [|exact Hy]. cbv beta. intros a Ha. lia.
    + constructor; [now apply IH|].
      eapply Permutation_Forall; [symmetry; apply insert_by_perm|].
      constructor; [lia | exact Hy].
Qed.

Lemma sort_by_sorted l : StronglySorted (fun a b => key a <= key b) (sort_by key l).
Proof.
  induction l as [|x l IH]; simpl; [constructor | now apply insert_by_sorted].
Qed.

(** Stability: the elements of one key are in the order they had. *)
Lemma insert_by_stable k x l :
  filter (fun a => key a =? k) (insert_by key x l) = filter (fun a => key a =? k) (x :: l).
Proof.
  induction l as [|y l IH]; [reflexivity|].
  cbn [insert_by]. destruct (N.leb_spec (key x) (key y)) as [Hle|Hgt]; [reflexivity|].
  cbn [filter] in *. rewrite IH.
  destruct (N.eqb_spec (key x) k), (N.eqb_spec (key y) k); try reflexivity. lia.
Qed.

Lemma sort_by_stable k l :
  filter (fun a => key a =? k) (sort_by key l) = filter (fun a => key a =? k) l.
Proof.
  induction l as [|x l IH]; [reflexivity|].
  cbn [sort_by fold_right]. fold (sort_by key l).
  rewrite insert_by_stable. cbn [filter]. now rewrite IH.
Qed.

End SortFacts.

(* ================================================================== *)
(** * SequenceLocator *)

Section LocatorFacts.
Variable E : Env.

Lemma match_literal_sound pat : forall s r,
  match_literal E pat s = Some r -> exists s1, s = s1 ++ r /\ ci_equal E pat s1.
Proof.
  induction pat as [|p pat IH]; intros s r H; simpl in H.
  - injection H as <-. exists []. split; [reflexivity | constructor].
  - destruct s as [|c s]; [discriminate|].
    destruct (same_case E p c) eqn:Hc; [|discriminate].
    destruct (IH _ _ H) as [s1 [-> H1]].
    exists (c :: s1). split; [reflexivity | now constructor].
Qed.

Lemma match_literal_complete pat s1 r :
  ci_equal E pat s1 -> match_literal E pat (s1 ++ r) = Some r.
Proof.
  induction 1 as [|p c pat s1 Hc _ IH]; simpl.
  - now destruct r.
  - now rewrite Hc.
Qed.

Lemma at_end_spec s : at_end s = true <-> s = [] \/ s = [10].
Proof.
  destruct s as [|c [|c' s]]; simpl.
  - intuition.
  - rewrite N.eqb_eq. split; [intros ->; now right | intros [H|H]; congruence].
  - split; [discriminate | intros [H|H]; discriminate].
Qed.

Lemma match_tail_spec s :
  match_tail E s = true <->
  exists ext nl, s = ext ++ nl /\ ci_equal E (lit ".m4a") ext /\ (nl = [] \/ nl = [10]).
Proof.
  unfold match_tail. split.
  - destruct (match_literal E (lit ".m4a") s) as [r|] eqn:Hm; [|discriminate].
    intros Hr. apply match_literal_sound in Hm. destruct Hm as [ext [-> Hext]].
    exists ext, r. repeat split; [exact Hext | now apply at_end_spec].
  - intros (ext & nl & -> & Hext & Hnl).
    rewrite (match_literal_complete _ Hext). now apply at_end_spec.
Qed.

Lemma match_digits_sound : forall s ds,
  match_digits E s = Some ds ->
  ds <> [] /\ Forall (fun c => is_digit E c = true) ds /\
  exists rest, s = ds ++ rest /\ match_tail E rest = true.
Proof.
  induction s as [|c s IH]; intros ds H; simpl in H; [discriminate|].
  destruct (is_digit E c) eqn:Hc; [|discriminate].
  destruct (match_digits E s) as [ds'|] eqn:Hs.
  - injection H as <-. destruct (IH _ eq_refl) as (_ & Hds & rest & -> & Ht).
    repeat split; [discriminate | now constructor | now exists rest].
  - destruct (match_tail E s) eqn:Ht; [|discriminate]. injection H as <-.
    repeat split; [discriminate | now repeat constructor | now exists s].
Qed.

Lemma match_digits_complete ds rest :
  ds <> [] -> Forall (fun c => is_digit E c = true) ds -> match_tail E rest = true ->
  exists ds', match_digits E (ds ++ rest) = Some ds'.
Proof.
  intros Hne Hds Ht. induction Hds as [|c ds Hc Hds IH]; [congruence|].
  simpl. rewrite Hc. destruct ds as [|c' ds].
  - simpl. destruct (match_digits E rest) as [g|]; [now eexists|].
    rewrite Ht. now eexists.
  - destruct IH as [g Hg]; [discriminate|]. rewrite Hg. now eexists.
Qed.

(** The compiled pattern accepts exactly the names of the form
    [accepted], and its group is the digits of such a reading. *)
Lemma pattern_match_sound prefix nm ds :
  pattern_match E prefix nm = Some ds -> accepted E prefix nm ds.
Proof.
  unfold pattern_match.
  destruct (match_literal E (prefix ++ lit "_") nm) as [r|] eqn:Hm; [|discriminate].
  intros Hd. apply match_literal_sound in Hm. destruct Hm as [pre [-> Hpre]].
  apply match_digits_sound in Hd. destruct Hd as (Hne & Hds & rest & -> & Ht).
  apply match_tail_spec in Ht. destruct Ht as (ext & nl & -> & Hext & Hnl).
  exists pre, ext, nl. repeat split; assumption.
Qed.

Lemma pattern_match_complete prefix nm ds :
  accepted E prefix nm ds -> exists ds', pattern_match E prefix nm = Some ds'.
Proof.
  intros (pre & ext & nl & -> & Hpre & Hne & Hds & Hext & Hnl).
  unfold pattern_match. rewrite (match_literal_complete _ Hpre).
  apply match_digits_complete; [assumption..|].
  apply match_tail_spec. now exists ext, nl.
Qed.

Lemma seq_name_accepted prefix nm ds : seq_name E prefix nm ds -> accepted E prefix nm ds.
Proof.
  intros (pre & ext & -> & Hpre & Hne & Hds & Hext).
  exists pre, ext, []. rewrite app_nil_r. repeat split; auto.
Qed.

Lemma app_eq_length {A} (l1 l2 r1 r2 : list A) :
  l1 ++ r1 = l2 ++ r2 -> List.length l1 = List.length l2 -> l1 = l2 /\ r1 = r2.
Proof.
  revert l2. induction l1 as [|a l1 IH]; intros [|b l2] H Hl; simpl in *; try discriminate.
  - now split.
  - injection H as -> H. injection Hl as Hl. destruct (IH _ H Hl) as [-> ->]. now split.
Qed.

Lemma ci_equal_length pat s : ci_equal E pat s -> List.length s = List.length pat.
Proof. intros H. symmetry. exact (Forall2_length H). Qed.

(** The digits of a sequential name are determined by the name. *)
Lemma seq_name_unique prefix nm ds ds' :
  seq_name E prefix nm ds -> seq_name E prefix nm ds' -> ds = ds'.
Proof.
  intros (pre & ext & -> & Hpre & _ & _ & Hext) (pre' & ext' & Heq & Hpre' & _ & _ & Hext').
  apply ci_equal_length in Hpre, Hpre', Hext, Hext'.
  apply app_eq_length in Heq; [|congruence]. destruct Heq as [_ Heq].
  apply (f_equal (@rev N)) in Heq. rewrite !rev_app_distr in Heq.
  apply app_eq_length in Heq; [|rewrite !length_rev; congruence].
  destruct Heq as [_ Heq]. apply (f_equal (@rev N)) in Heq.
  now rewrite !rev_involutive in Heq.
Qed.

(** A name the glob selects does not end with a newline. *)
Lemma glob_m4a_last (x : pystr) :
  newline_is_no_extension E -> glob_m4a E (x ++ [10]) = true -> False.
Proof.
  intros Hnl. unfold glob_m4a.
  destruct (glob_case_sensitive E) eqn:Hcs.
  - unfold endswith. rewrite rev_app_distr. cbn. discriminate.
  - destruct Hnl as [Hnl|Hnl]; [congruence|].
    intros H. apply andb_true_iff in H. destruct H as [Hlen H].
    apply Nat.leb_le in Hlen.
    destruct (match_literal E (lit ".m4a") (skipn (List.length (x ++ [10]) - 4) (x ++ [10])))
      as [[|? ?]|] eqn:Hm; try discriminate.
    apply match_literal_sound in Hm. destruct Hm as (s1 & Hs & Hci).
    rewrite app_nil_r in Hs. subst s1.
    rewrite length_app in *. cbn [List.length] in *.
    rewrite skipn_app in Hci.
    replace (List.length x + 1 - 4 - List.length x)%nat with 0%nat in Hci by lia.
    cbn [skipn] in Hci.
    apply Forall2_app_inv_r in Hci. destruct Hci as (p1 & p2 & _ & Hp2 & Hp).
    inversion Hp2 as [|a b l l' Hab Hnil]; subst. inversion Hnil; subst.
    change (lit ".m4a") with ([46; 109; 52] ++ [97]) in Hp.
    apply app_inj_tail in Hp. destruct Hp as [_ <-]. congruence.
Qed.

Lemma accepted_seq_name prefix nm ds :
  newline_is_no_extension E -> glob_m4a E nm = true ->
  accepted E prefix nm ds -> seq_name E prefix nm ds.
Proof.
  intros Hnl Hg (pre & ext & nl & -> & Hpre & Hne & Hds & Hext & [->| ->]).
  - exists pre, ext. rewrite app_nil_r. repeat split; auto.
  - exfalso. rewrite !app_assoc in Hg. exact (glob_m4a_last _ Hnl Hg).
Qed.

Lemma collect_num prefix paths :
  Forall (fun x => sequence_num E prefix (snd x) = Some (fst x)) (collect E prefix paths).
Proof.
  induction paths as [|p paths IH]; simpl; [constructor|].
  destruct (pattern_match E prefix (name p)) as [g|] eqn:Hg; [|exact IH].
  constructor; [|exact IH]. unfold sequence_num; simpl. now rewrite Hg.
Qed.

Lemma collect_snd prefix paths :
  map snd (collect E prefix paths) = filter (matches E prefix) paths.
Proof.
  induction paths as [|p paths IH]; simpl; [reflexivity|]. unfold matches at 1.
  destruct (pattern_match E prefix (name p)); simpl; now rewrite IH.
Qed.

Lemma filter_num_map_snd prefix n (l : list (N * Path)) :
  Forall (fun x => sequence_num E prefix (snd x) = Some (fst x)) l ->
  filter (has_num E prefix n) (map snd l) = map snd (filter (fun x => fst x =? n) l).
Proof.
  induction 1 as [|x l Hx _ IH]; simpl; [reflexivity|].
  unfold has_num at 1. rewrite Hx.
  destruct (fst x =? n); simpl; now rewrite IH.
Qed.

Lemma sorted_map_snd prefix (l : list (N * Path)) :
  Forall (fun x => sequence_num E prefix (snd x) = Some (fst x)) l ->
  StronglySorted (fun x y => fst x <= fst y) l ->
  StronglySorted (seq_le E prefix) (map snd l).
Proof.
  intros Hn Hs. induction Hs as [|x l Hs IH Hx]; simpl; [constructor|].
  inversion Hn as [|? ? Hnx Hnl]; subst.
  constructor; [now apply IH|].
  apply Forall_map. rewrite Forall_forall in *. intros y Hy.
  unfold seq_le. rewrite Hnx, (Hnl y Hy). now apply Hx.
Qed.

Lemma filter_has_num_matches prefix n l :
  filter (has_num E prefix n) (filter (matches E prefix) l) = filter (has_num E prefix n) l.
Proof.
  induction l as [|p l IH]; simpl; [reflexivity|].
  unfold matches at 1, has_num at 2, sequence_num.
  destruct (pattern_match E prefix (name p)) as [g|] eqn:Hg; simpl.
  - unfold has_num at 1, sequence_num. rewrite Hg; simpl. now rewrite IH.
  - exact IH.
Qed.

Lemma in_glob dir p :
  In p (glob E dir) <->
  parent p = dir /\ In (name p) (listdir E dir) /\ glob_m4a E (name p) = true.
Proof.
  unfold glob. rewrite in_map_iff. split.
  - intros (nm & <- & Hin). apply filter_In in Hin. now simpl.
  - intros (Hp & Hin & Hg). exists (name p). split.
    + destruct p; simpl in *; now subst.
    + now apply filter_In.
Qed.

(** C3, as the source has it.  [find_sequential_files] returns exactly
    the entries of the directory that the glob [*.m4a] selects and whose
    name reads: the prefix and an underscore, character by character but
    up to case, then digits, then the extension up to case.  They are in
    ascending order of the integer the digits denote, and the entries of
    one number are as many and in the order the directory gave them. *)
Theorem find_sequential_files_spec dir prefix :
  newline_is_no_extension E ->
  let r := find_sequential_files E dir prefix in
  (forall p, In p r <->
     parent p = dir /\ In (name p) (listdir E dir) /\ glob_m4a E (name p) = true /\
     exists ds, seq_name E prefix (name p) ds) /\
  (forall p ds, In p r -> seq_name E prefix (name p) ds ->
     sequence_num E prefix p = Some (int_of E ds)) /\
  StronglySorted (seq_le E prefix) r /\
  (forall n, filter (has_num E prefix n) r = filter (has_num E prefix n) (glob E dir)).
Proof.
  intros Hnl. cbv zeta. unfold find_sequential_files.
  set (cs := collect E prefix (glob E dir)).
  assert (Hperm : Permutation (sort_by fst cs) cs) by apply sort_by_perm.
  assert (Hnum : Forall (fun x => sequence_num E prefix (snd x) = Some (fst x)) (sort_by fst cs)).
  { eapply Permutation_Forall; [symmetry; exact Hperm | apply collect_num]. }
  assert (Hin : forall p, In p (map snd (sort_by fst cs)) <->
                          In p (glob E dir) /\ matches E prefix p = true).
  { intros p. rewrite <- filter_In, <- collect_snd. fold cs.
    split; apply Permutation_in; apply Permutation_map; [|symmetry]; exact Hperm. }
  assert (Hgroup : forall p, In p (map snd (sort_by fst cs)) ->
                     glob_m4a E (name p) = true /\
                     exists g, pattern_match E prefix (name p) = Some g /\
                               seq_name E prefix (name p) g).
  { intros p H. apply Hin in H. destruct H as [Hg Hm].
    apply in_glob in Hg. destruct Hg as (_ & _ & Hg). split; [exact Hg|].
    unfold matches in Hm.
    destruct (pattern_match E prefix (name p)) as [g|] eqn:Hpm; [|discriminate].
    exists g. split; [reflexivity|].
    apply accepted_seq_name; [assumption.. | now apply pattern_match_sound]. }
  split; [|split; [|split]].
  - intros p. split.
    + intros H. destruct (Hgroup p H) as (Hg & g & _ & Hs).
      apply Hin in H. destruct H as [Hgl _]. apply in_glob in Hgl.
      destruct Hgl as (Hp & Hl & _). repeat split; try assumption. now exists g.
    + intros (Hp & Hl & Hg & ds & Hds). apply Hin. split; [now apply in_glob|].
      unfold matches.
      destruct (pattern_match_complete (seq_name_accepted Hds)) as [g ->]. reflexivity.
  - intros p ds H Hds. destruct (Hgroup p H) as (_ & g & Hpm & Hs).
    unfold sequence_num. rewrite Hpm. cbn. f_equal. f_equal.
    exact (seq_name_unique Hs Hds).
  - apply sorted_map_snd; [exact Hnum | apply sort_by_sorted].
  - intros n. rewrite (filter_num_map_snd prefix n Hnum), sort_by_stable. subst cs.
    rewrite <- (filter_num_map_snd prefix n (collect_num prefix (glob E dir))).
    rewrite collect_snd. apply filter_has_num_matches.
Qed.

End LocatorFacts.

(** The order is that of the numbers, not of the names. *)
Example find_sequential_files_numeric :
  find_sequential_files
    (posix_env [lit "p_10.m4a"; lit "notes.txt"; lit "p_2.m4a"; lit "q_3.m4a"; lit "p_1.m4a"]
               (fun _ => 0) (fun _ => None) (fun _ _ _ => Reply []))
    (lit "rec") (lit "p") =
  [mkPath (lit "rec") (lit "p_1.m4a"); mkPath (lit "rec") (lit "p_2.m4a");
   mkPath (lit "rec") (lit "p_10.m4a")].
Proof. vm_compute. reflexivity. Qed.

(** The characters of the prefix are not read as a regular expression. *)
Example find_sequential_files_escaped :
  find_sequential_files
    (posix_env [lit "axb_1.m4a"; lit "a.b_2.m4a"]
               (fun _ => 0) (fun _ => None) (fun _ _ _ => Reply []))
    (lit "rec") (lit "a.b") =
  [mkPath (lit "rec") (lit "a.b_2.m4a")].
Proof. vm_compute. reflexivity. Qed.

(** Where the glob compares names case-sensitively, an extension in upper
    case is not selected, although the pattern would accept it. *)
Example find_sequential_files_upper_extension :
  let E0 := posix_env [lit "p_1.M4A"] (fun _ => 0) (fun _ => None) (fun _ _ _ => Reply []) in
  pattern_match E0 (lit "p") (lit "p_1.M4A") = Some (lit "1") /\
  find_sequential_files E0 (lit "rec") (lit "p") = [].
Proof. vm_compute. split; reflexivity. Qed.

(** C3, as the specification words it, fails: with the prefix [meet] the
    entry [MEET_1.m4a] is returned, and its name does not start with the
    prefix. *)
Lemma find_sequential_files_prefix_case :
  let E0 := posix_env [lit "MEET_1.m4a"] (fun _ => 0) (fun _ => None) (fun _ _ _ => Reply []) in
  find_sequential_files E0 (lit "rec") (lit "meet") = [mkPath (lit "rec") (lit "MEET_1.m4a")] /\
  ~ (forall p,
       In p (find_sequential_files E0 (lit "rec") (lit "meet")) <->
       parent p = lit "rec" /\ In (name p) (listdir E0 (lit "rec")) /\
       named_as_specified E0 (lit "meet") (name p)).
Proof.
  cbv zeta. split; [vm_compute; reflexivity|].
  intros H.
  destruct (H (mkPath (lit "rec") (lit "MEET_1.m4a"))) as [H1 _].
  destruct H1 as (_ & _ & ds & ext & Heq & _).
  - vm_compute. left. reflexivity.
  - cbv in Heq. discriminate Heq.
Qed.

(* ================================================================== *)
(** * BatchAggregator *)

Lemma progress_part_app evs1 evs2 :
  progress_part (evs1 ++ evs2) = progress_part evs1 ++ progress_part evs2.
Proof. apply filter_app. Qed.

Lemma requests_of_progress_part evs : requests_of (progress_part evs) = requests_of evs.
Proof.
  induction evs as [|e evs IH]; [reflexivity|]. destruct e; simpl; now rewrite ?IH.
Qed.

Lemma completed_progress_part evs : completed (progress_part evs) = completed evs.
Proof.
  induction evs as [|e evs IH]; [reflexivity|]. destruct e; simpl; now rewrite ?IH.
Qed.

Lemma completed_app evs1 evs2 : completed (evs1 ++ evs2) = completed evs1 + completed evs2.
Proof.
  induction evs1 as [|e evs1 IH]; [reflexivity|]. destruct e; simpl; rewrite ?IH; lia.
Qed.

Lemma attempt_events_app lang s1 s2 :
  attempt_events lang (s1 ++ s2) = attempt_events lang s1 ++ attempt_events lang s2.
Proof. apply flat_map_app. Qed.

Lemma requests_of_attempt_events lang segs :
  requests_of (attempt_events lang segs) = List.length segs.
Proof. induction segs as [|s segs IH]; simpl; now rewrite ?IH. Qed.

Lemma completed_attempt_events lang segs :
  completed (attempt_events lang segs) = N.of_nat (List.length segs).
Proof. induction segs as [|s segs IH]; [reflexivity|]. cbn [attempt_events flat_map app completed List.length]. fold (attempt_events lang segs). lia. Qed.

Lemma local_progress_part evs : Forall is_local evs -> progress_part evs = [].
Proof.
  induction 1 as [|e evs He _ IH]; [reflexivity|].
  destruct e; try destruct He; exact IH.
Qed.

Lemma local_described total evs : Forall is_local evs -> forall c, described total c evs.
Proof.
  induction 1 as [|e evs He _ IH]; intros c; [exact I|].
  destruct e; try destruct He; apply IH.
Qed.

Lemma local_exports {X} (g : X -> Path) (h : X -> AudioSegment) (l : list X) :
  Forall is_local (map (fun x => EvExport (g x) (h x)) l).
Proof. induction l as [|x l IH]; constructor; [exact I | exact IH]. Qed.

Lemma described_app total evs1 : forall c evs2,
  described total c (evs1 ++ evs2) <->
  described total c evs1 /\ described total (c + completed evs1) evs2.
Proof.
  induction evs1 as [|e evs1 IH]; intros c evs2.
  - cbn. rewrite N.add_0_r. tauto.
  - destruct e; cbn [app described completed]; rewrite ?IH, ?N.add_assoc; tauto.
Qed.

(** The error marker is never kept. *)
Lemma keep_marker nm : keep (lit "[ERROR: Could not transcribe " ++ nm ++ lit "]") = false.
Proof. reflexivity. Qed.

Lemma kept_texts_cons r rs :
  kept_texts (r :: rs) =
    match r with
    | Reply text => if keep (strip text) then [strip text] else []
    | Failed _ => []
    end ++ kept_texts rs.
Proof.
  unfold kept_texts. cbn [successful_texts flat_map]. rewrite filter_app.
  destruct r as [text|detail]; [|reflexivity].
  cbn [filter]. destruct (keep (strip text)); reflexivity.
Qed.

Section AggregatorFacts.
Variable E : Env.

Lemma chunk_audio_file_run self f tmp w :
  exists w' evs,
    chunk_audio_file E self f tmp w = (segments E self f tmp, w') /\
    trace w' = trace w ++ evs /\ Forall is_local evs.
Proof.
  unfold segments, chunk_audio_file, bind, from_file, emit, bind.
  destruct (decode E f) as [d|].
  - cbn [ret]. destruct (test_mode self).
    + unfold export, ret. eexists; eexists. split; [reflexivity|].
      cbn [trace]. rewrite <- app_assoc. split; [reflexivity|].
      repeat constructor.
    + destruct (within_limit E self f).
      * unfold ret. eexists; exists [EvDecode f]. split; [reflexivity|].
        split; [reflexivity | repeat constructor].
      * set (cs := make_chunks _ _).
        destruct (export_chunks_eq f tmp cs 0 []
                    (mkWorld (trace w ++ [EvDecode f]) (dirs w) (artifacts w) (outputs w)))
          as (w1 & H1 & H2 & _).
        destruct (export_chunks_eq f tmp cs 0 []
                    (mkWorld (trace empty_world ++ [EvDecode f]) (dirs empty_world)
                             (artifacts empty_world) (outputs empty_world)))
          as (w2 & H3 & _).
        change (N.of_nat 0) with 0 in H1, H3. rewrite H1, H3.
        eexists; eexists. split; [reflexivity|]. split.
        -- rewrite H2. cbn [trace]. rewrite <- app_assoc. reflexivity.
        -- cbn [app]. constructor; [exact I|].
           apply (local_exports (fun kc => chunk_path f tmp (fst kc)) snd).
  - unfold raise. eexists; exists [EvDecode f]. split; [reflexivity|].
    split; [reflexivity | repeat constructor].
Qed.

Lemma get_chunk_count_run self f w :
  exists w' evs,
    get_chunk_count E self f w = (planned E self f, w') /\
    trace w' = trace w ++ evs /\ Forall is_local evs.
Proof.
  unfold planned, get_chunk_count.
  destruct (test_mode self).
  { exists w, []. rewrite app_nil_r. repeat split. constructor. }
  destruct (within_limit E self f).
  { exists w, []. rewrite app_nil_r. repeat split. constructor. }
  unfold bind, from_file, emit, bind.
  destruct (decode E f) as [d|]; eexists; exists [EvDecode f];
    (split; [reflexivity|]); (split; [reflexivity | repeat constructor]).
Qed.

Lemma sum_chunk_counts_run self files : forall acc w,
  exists w' evs,
    sum_chunk_counts E self files acc w = (planned_total E self files acc, w') /\
    trace w' = trace w ++ evs /\ Forall is_local evs.
Proof.
  induction files as [|f files IH]; intros acc w.
  - exists w, []. rewrite app_nil_r. repeat split. constructor.
  - cbn [sum_chunk_counts planned_total]. unfold bind.
    destruct (get_chunk_count_run self f w) as (w1 & ev1 & H1 & H2 & H3).
    rewrite H1. destruct (planned E self f) as [n|e].
    + destruct (IH (acc + n) w1) as (w2 & ev2 & H4 & H5 & H6).
      exists w2, (ev1 ++ ev2). split; [exact H4|]. split.
      * now rewrite H5, H2, app_assoc.
      * apply Forall_app. now split.
    + exists w1, ev1. repeat split; assumption.
Qed.

Lemma transcribe_chunks_run self lang i nf nc tot chunks : forall j cur acc w,
  exists w' evs,
    transcribe_chunks E self lang i nf nc tot chunks j cur acc w =
      (Val (cur + N.of_nat (List.length chunks),
            acc ++ kept_texts (responses E lang (requests_of (trace w)) chunks)), w') /\
    trace w' = trace w ++ evs /\ progress_part evs = attempt_events lang chunks /\
    described tot cur evs.
Proof.
  induction chunks as [|c chunks IH]; intros j cur acc w.
  - exists w, []. cbn. rewrite N.add_0_r, !app_nil_r. repeat split.
  - cbn [transcribe_chunks]. unfold bind at 1. unfold emit at 1. cbv beta iota.
    unfold bind at 1. rewrite transcribe_audio_eq. cbv beta iota.
    unfold bind at 1. unfold emit at 1. cbv beta iota.
    cbn [trace dirs artifacts outputs].
    match goal with
    | |- context [transcribe_chunks E self lang i nf nc tot chunks ?j' ?cur' ?acc' ?w1] =>
        destruct (IH j' cur' acc' w1) as (w' & evs & H1 & H2 & H3 & H4)
    end.
    rewrite H1. cbn [trace] in *.
    exists w', (EvSetDescription i nf j nc (cur + 1) tot :: EvRequest c lang :: EvUpdate 1 :: evs).
    split; [|split; [|split]].
    + f_equal. f_equal. f_equal; [cbn [List.length]; lia|].
      rewrite !requests_of_app. cbn [requests_of]. rewrite !Nat.add_0_r.
      cbn [responses]. rewrite kept_texts_cons.
      replace (requests_of (trace w) + 1)%nat with (S (requests_of (trace w))) by lia.
      destruct (whisper E (requests_of (trace w)) c lang) as [text|detail].
      * destruct (keep (strip text)); [rewrite <- app_assoc|]; reflexivity.
      * rewrite keep_marker. reflexivity.
    + rewrite H2, <- !app_assoc. reflexivity.
    + cbn [progress_part filter is_progress attempt_events flat_map app].
      fold (progress_part evs). now rewrite H3.
    + cbn [described]. repeat split. exact H4.
Qed.

Lemma requests_of_quiet evs : progress_part evs = [] -> requests_of evs = 0%nat.
Proof. intros H. now rewrite <- requests_of_progress_part, H. Qed.

Lemma completed_quiet evs : progress_part evs = [] -> completed evs = 0.
Proof. intros H. now rewrite <- completed_progress_part, H. Qed.

Lemma process_files_run self lang tmp nf tot files : forall i cur acc w,
  exists w' evs,
    process_files E self lang tmp nf tot files i cur acc w =
      (match first_failure E self tmp files with
       | None =>
           Val (cur + N.of_nat (List.length (attempted E self tmp files)),
                acc ++ blocks E self lang tmp kept_texts (requests_of (trace w)) i files)
       | Some e => Raise e
       end, w') /\
    trace w' = trace w ++ evs /\
    progress_part evs = attempt_events lang (attempted E self tmp files) /\
    described tot cur evs.
Proof.
  induction files as [|f files IH]; intros i cur acc w.
  - exists w, []. cbn. rewrite N.add_0_r, !app_nil_r. repeat split.
  - cbn [process_files first_failure attempted blocks]. unfold bind at 1.
    destruct (chunk_audio_file_run self f tmp w) as (w1 & ev1 & H1 & H2 & Hl).
    pose proof (local_progress_part Hl) as H3.
    rewrite H1. destruct (segments E self f tmp) as [segs|e].
    + unfold bind at 1.
      destruct (transcribe_chunks_run self lang i nf (N.of_nat (List.length segs)) tot
                  segs 1 cur [] w1) as (w2 & ev2 & H4 & H5 & H6 & Hd2).
      rewrite H4. cbv beta iota. cbn [app].
      assert (Hk1 : requests_of (trace w1) = requests_of (trace w)).
      { rewrite H2, requests_of_app, (requests_of_quiet _ H3). lia. }
      assert (Hk2 : requests_of (trace w2) = (requests_of (trace w) + List.length segs)%nat).
      { rewrite H5, requests_of_app, <- (requests_of_progress_part ev2), H6,
                requests_of_attempt_events. lia. }
      rewrite Hk1.
      set (ts := kept_texts (responses E lang (requests_of (trace w)) segs)).
      match goal with
      | |- context [process_files E self lang tmp nf tot files ?i' ?cur' ?acc' w2] =>
          destruct (IH i' cur' acc' w2) as (w3 & ev3 & H7 & H8 & H9 & Hd3)
      end.
      rewrite H7, Hk2. exists w3, (ev1 ++ ev2 ++ ev3). split; [|split; [|split]].
      * destruct (first_failure E self tmp files); [reflexivity|].
        f_equal. f_equal. f_equal; [rewrite length_app; lia|].
        destruct ts; cbn [truthy]; [reflexivity | now rewrite <- app_assoc].
      * rewrite H8, H5, H2, <- !app_assoc. reflexivity.
      * rewrite !progress_part_app, H3, H6, H9, attempt_events_app. reflexivity.
      * apply described_app. split; [now apply local_described|].
        rewrite (completed_quiet _ H3), N.add_0_r.
        apply described_app. split; [exact Hd2|].
        rewrite <- (completed_progress_part ev2), H6, completed_attempt_events.
        exact Hd3.
    + exists w1, ev1. split; [reflexivity|]. split; [exact H2|].
      split; [exact H3 | now apply local_described].
Qed.

Lemma batch_body_run self files lang d w :
  exists w' evs,
    trace w' = trace w ++ evs /\
    match planned_total E self files 0 with
    | Raise e =>
        batch_body E self files lang d w = (Raise e, w') /\ progress_part evs = []
    | Val total =>
        batch_body E self files lang d w =
          (match first_failure E self d files with
           | None => Val (blocks E self lang d kept_texts (requests_of (trace w)) 1 files)
           | Some e => Raise e
           end, w') /\
        exists plan exec,
          evs = plan ++ EvTqdm total :: exec /\
          progress_part plan = [] /\
          progress_part exec = attempt_events lang (attempted E self d files) /\
          described total 0 exec
    end.
Proof.
  destruct (sum_chunk_counts_run self files 0 w) as (w1 & ev1 & H1 & H2 & Hl).
  pose proof (local_progress_part Hl) as H3.
  destruct (planned_total E self files 0) as [total|e];
    unfold batch_body; unfold bind at 1; rewrite H1.
  - unfold bind at 1. unfold emit at 1. cbv beta iota. unfold bind at 1.
    match goal with
    | |- context [process_files E self lang d ?nf total files 1 0 [] ?w2] =>
        destruct (process_files_run self lang d nf total files 1 0 [] w2)
          as (w3 & ev3 & H4 & H5 & H6 & Hd)
    end.
    rewrite H4. cbn [trace] in H4, H5.
    assert (Hk : requests_of (trace w1 ++ [EvTqdm total]) = requests_of (trace w)).
    { rewrite H2, !requests_of_app, (requests_of_quiet _ H3). simpl. lia. }
    cbn [trace]. rewrite Hk.
    destruct (first_failure E self d files) as [e|].
    + exists w3, (ev1 ++ EvTqdm total :: ev3). split; [|split; [reflexivity|]].
      * rewrite H5, H2, <- !app_assoc. reflexivity.
      * exists ev1, ev3. repeat split; assumption.
    + unfold bind, emit, ret. cbn [app snd].
      eexists; exists (ev1 ++ EvTqdm total :: ev3 ++ [EvClose]).
      split; [|split; [reflexivity|]].
      * cbn [trace]. rewrite H5, H2, <- !app_assoc. reflexivity.
      * exists ev1, (ev3 ++ [EvClose]). split; [reflexivity|]. split; [assumption|].
        split.
        -- rewrite progress_part_app, H6. cbn. now rewrite app_nil_r.
        -- apply described_app. split; [exact Hd | exact I].
  - exists w1, ev1. split; [exact H2 | split; [reflexivity | exact H3]].
Qed.

(** What a batch returns and what it does, from the plans and the
    segments of its files. *)
Lemma process_sequential_files_run self files lang w :
  let d := workspace E w in
  let run := process_sequential_files E self files lang w in
  exists evs,
    trace (snd run) = trace w ++ evs /\
    match planned_total E self files 0 with
    | Raise e => fst run = Raise e /\ progress_part evs = []
    | Val total =>
        fst run =
          match first_failure E self d files with
          | None => Val (transcript_of E self lang kept_texts files w)
          | Some e => Raise e
          end /\
        exists plan exec,
          evs = plan ++ EvTqdm total :: exec /\
          progress_part plan = [] /\
          progress_part exec = attempt_events lang (attempted E self d files) /\
          described total 0 exec
    end.
Proof.
  cbv zeta. rewrite process_sequential_files_unfold. cbv zeta.
  fold (workspace E w). set (d := workspace E w). set (w1 := mkWorld _ _ _ _).
  destruct (batch_body_run self files lang d w1) as (wb & evs & Ht & Hb).
  exists (EvMkdtemp d :: evs ++ [EvRmtree d]).
  destruct (planned_total E self files 0) as [total|e].
  - destruct Hb as (Hb & plan & exec & Hevs & Hp & Hx & Hd). rewrite Hb. cbn [fst snd trace].
    split; [rewrite Ht; subst w1; cbn [trace]; now rewrite <- !app_assoc|].
    split.
    + destruct (first_failure E self d files); [reflexivity|].
      unfold transcript_of. fold d. subst w1. cbn [trace].
      rewrite requests_of_app. cbn [requests_of]. now rewrite Nat.add_0_r.
    + exists (EvMkdtemp d :: plan), (exec ++ [EvRmtree d]).
      split; [rewrite Hevs, <- app_assoc; reflexivity|]. split; [exact Hp|]. split.
      * rewrite progress_part_app, Hx. cbn. now rewrite app_nil_r.
      * apply described_app. split; [exact Hd | exact I].
  - destruct Hb as (Hb & Hq). rewrite Hb. cbn [fst snd trace].
    split; [rewrite Ht; subst w1; cbn [trace]; now rewrite <- !app_assoc|].
    split; [reflexivity|].
    cbn [progress_part filter is_progress]. fold (progress_part (evs ++ [EvRmtree d])).
    rewrite progress_part_app, Hq. reflexivity.
Qed.

End AggregatorFacts.

(* ================================================================== *)
(** * Plans and segments *)

Section PlanFacts.
Variable E : Env.

Lemma grows_mkdtemp prefix : grows (mkdtemp E prefix).
Proof. intros w. split; [now eexists | reflexivity]. Qed.

Lemma grows_rmtree d : grows (rmtree d).
Proof. intros w. split; [now eexists | reflexivity]. Qed.

Lemma grows_process_sequential_files self files lang :
  grows (process_sequential_files E self files lang).
Proof.
  intros w. rewrite process_sequential_files_unfold. cbv zeta. cbn [snd].
  set (w1 := mkWorld (trace w ++ _) _ _ _).
  pose proof (grows_batch_body E self files lang (lit "audio_chunks_" ++ tmp_suffix E (dirs w)) w1)
    as Hb.
  eapply extends_trans; [apply (extends_trans (w2 := w1))|].
  - split; [now eexists | reflexivity].
  - exact Hb.
  - split; [now eexists | reflexivity].
Qed.

Lemma segments_undecodable self f tmp :
  decode E f = None -> segments E self f tmp = Raise (CouldntDecodeError f).
Proof.
  intros H. unfold segments, chunk_audio_file, bind, from_file, emit, bind.
  now rewrite H.
Qed.

Lemma segments_decodable self f tmp d :
  decode E f = Some d -> exists segs, segments E self f tmp = Val segs.
Proof.
  intros H. unfold segments, chunk_audio_file, bind, from_file, emit, bind.
  rewrite H. cbn [ret].
  destruct (test_mode self); [now eexists|].
  destruct (within_limit E self f); [now eexists|].
  set (cs := make_chunks _ _).
  destruct (export_chunks_eq f tmp cs 0 []
              (mkWorld (trace empty_world ++ [EvDecode f]) (dirs empty_world)
                       (artifacts empty_world) (outputs empty_world)))
    as (w2 & H3 & _).
  change (N.of_nat 0) with 0 in H3. rewrite H3. now eexists.
Qed.

Lemma segments_raise self f tmp e :
  segments E self f tmp = Raise e -> e = CouldntDecodeError f /\ decode E f = None.
Proof.
  destruct (decode E f) as [d|] eqn:Hd.
  - destruct (segments_decodable self f tmp Hd) as [segs ->]. discriminate.
  - rewrite (segments_undecodable self f tmp Hd). intros H. injection H as <-. now split.
Qed.

Lemma planned_raise self f e :
  planned E self f = Raise e -> e = CouldntDecodeError f /\ decode E f = None.
Proof.
  unfold planned, get_chunk_count.
  destruct (test_mode self); [discriminate|].
  destruct (within_limit E self f); [discriminate|].
  unfold bind, from_file, emit, bind.
  destruct (decode E f); [discriminate|].
  intros H. injection H as <-. now split.
Qed.

Lemma planned_decodable self f d :
  decode E f = Some d -> exists n, planned E self f = Val n.
Proof.
  intros Hd. destruct (planned E self f) as [n|e] eqn:Hp; [now exists n|].
  apply planned_raise in Hp. destruct Hp as [_ Hp]. congruence.
Qed.

(** The plan of a file counts the segments its materialization gives. *)
Lemma planned_segments self f tmp n segs :
  planned E self f = Val n -> segments E self f tmp = Val segs ->
  N.of_nat (List.length segs) = n.
Proof.
  unfold planned, segments, get_chunk_count, chunk_audio_file, bind, from_file, emit, bind.
  destruct (decode E f) as [d|]; [|destruct (test_mode self), (within_limit E self f); discriminate].
  cbn [ret]. destruct (test_mode self).
  { unfold export, ret. intros H1 H2. injection H1 as <-. injection H2 as <-. reflexivity. }
  destruct (within_limit E self f).
  { unfold ret. intros H1 H2. injection H1 as <-. injection H2 as <-. reflexivity. }
  set (cs := make_chunks _ _).
  destruct (export_chunks_eq f tmp cs 0 []
              (mkWorld (trace empty_world ++ [EvDecode f]) (dirs empty_world)
                       (artifacts empty_world) (outputs empty_world)))
    as (w2 & H3 & _).
  change (N.of_nat 0) with 0 in H3. rewrite H3. unfold ret. cbn [fst app].
  intros H1 H2. injection H1 as <-. injection H2 as <-.
  now rewrite length_map, length_seq.
Qed.

Lemma planned_total_ok self files : forall acc,
  Forall (fun f => decode E f <> None) files ->
  exists total, planned_total E self files acc = Val total.
Proof.
  induction files as [|f files IH]; intros acc Hd; [now eexists|].
  inversion Hd as [|? ? Hf Hfs]; subst. cbn [planned_total].
  destruct (decode E f) as [d|] eqn:Hdf; [|congruence].
  destruct (planned_decodable self f Hdf) as [n ->]. now apply IH.
Qed.

Lemma first_failure_none self tmp files :
  Forall (fun f => decode E f <> None) files -> first_failure E self tmp files = None.
Proof.
  induction 1 as [|f files Hf _ IH]; [reflexivity|]. cbn [first_failure].
  destruct (decode E f) as [d|] eqn:Hd; [|congruence].
  destruct (segments_decodable self f tmp Hd) as [segs ->]. exact IH.
Qed.

Lemma first_failure_some self tmp files e :
  first_failure E self tmp files = Some e ->
  exists g, In g files /\ decode E g = None /\ e = CouldntDecodeError g.
Proof.
  induction files as [|f files IH]; cbn [first_failure]; [discriminate|].
  destruct (segments E self f tmp) as [segs|e'] eqn:Hs.
  - intros H. destruct (IH H) as (g & Hg & Hd & He). exists g. repeat split; auto. now right.
  - intros H. injection H as <-. apply segments_raise in Hs. destruct Hs as [He Hd].
    exists f. repeat split; auto. now left.
Qed.

Lemma planned_total_some self files : forall acc e,
  planned_total E self files acc = Raise e ->
  exists g, In g files /\ decode E g = None /\ e = CouldntDecodeError g.
Proof.
  induction files as [|f files IH]; intros acc e; cbn [planned_total]; [discriminate|].
  destruct (planned E self f) as [n|e'] eqn:Hp.
  - intros H. destruct (IH _ _ H) as (g & Hg & Hd & He). exists g. repeat split; auto. now right.
  - intros H. injection H as <-. apply planned_raise in Hp. destruct Hp as [He Hd].
    exists f. repeat split; auto. now left.
Qed.

Lemma planned_total_le self files : forall acc total,
  planned_total E self files acc = Val total -> acc <= total.
Proof.
  induction files as [|f files IH]; intros acc total; cbn [planned_total].
  - intros H. injection H as <-. lia.
  - destruct (planned E self f) as [n|e]; [|discriminate].
    intros H. apply IH in H. lia.
Qed.

(** The segments that are attempted are never more than planned, and as
    many when every file is materialized. *)
Lemma planned_total_bound self tmp files : forall acc total,
  planned_total E self files acc = Val total ->
  acc + N.of_nat (List.length (attempted E self tmp files)) <= total /\
  (first_failure E self tmp files = None ->
   acc + N.of_nat (List.length (attempted E self tmp files)) = total).
Proof.
  induction files as [|f files IH]; intros acc total; cbn [planned_total attempted first_failure].
  - intros H. injection H as <-. cbn. split; [lia | intros _; lia].
  - destruct (planned E self f) as [n|e] eqn:Hp; [|discriminate].
    intros H. destruct (segments E self f tmp) as [segs|e] eqn:Hs.
    + pose proof (planned_segments self f tmp Hp Hs) as Hn.
      destruct (IH _ _ H) as [H1 H2]. rewrite length_app. split; [lia|].
      intros Hf. specialize (H2 Hf). lia.
    + apply planned_total_le in H. cbn. split; [lia | discriminate].
Qed.

Lemma attempted_stops self tmp pre bad post :
  decode E bad = None ->
  exists rest, attempted E self tmp pre = attempted E self tmp (pre ++ bad :: post) ++ rest.
Proof.
  intros Hb. induction pre as [|f pre IH]; cbn [attempted app].
  - rewrite (segments_undecodable self bad tmp Hb). now exists [].
  - destruct (segments E self f tmp) as [segs|e]; [|now exists []].
    destruct IH as [rest ->]. exists rest. now rewrite app_assoc.
Qed.

Lemma first_failure_stops self tmp pre bad post :
  decode E bad = None -> first_failure E self tmp (pre ++ bad :: post) <> None.
Proof.
  intros Hb. induction pre as [|f pre IH]; cbn [first_failure app].
  - now rewrite (segments_undecodable self bad tmp Hb).
  - destruct (segments E self f tmp); [exact IH | discriminate].
Qed.

End PlanFacts.

(* ================================================================== *)
(** * The combined transcript *)

Section TranscriptFacts.
Variable E : Env.

(** C1, as the source has it.  When every file decodes, the batch returns
    the blocks of the files of which a text is kept, in file order,
    joined by a blank line; the block of file [i] (counted from 1) is the
    header with [i] and the name of the file, after the test marker in
    test mode, a newline, and the kept texts of the segments of the file
    joined by single spaces in ordinal order.  A text is kept when the
    request succeeded and the trimmed reply is not empty and does not
    start with [[ERROR]; a file without kept text gives no block. *)
Theorem combined_transcript self files lang w :
  let run := process_sequential_files E self files lang w in
  (Forall (fun f => decode E f <> None) files ->
   fst run = Val (transcript_of E self lang kept_texts files w)) /\
  (forall transcript,
     fst run = Val transcript ->
     transcript = transcript_of E self lang kept_texts files w).
Proof.
  cbv zeta.
  destruct (process_sequential_files_run E self files lang w) as (evs & _ & H).
  split.
  - intros Hd. destruct (planned_total_ok E self 0 Hd) as [total Ht]. rewrite Ht in H.
    destruct H as [H _]. rewrite H.
    now rewrite (first_failure_none E self (workspace E w) Hd).
  - intros transcript Hv. destruct (planned_total E self files 0) as [total|e].
    + destruct H as [H _]. rewrite H in Hv.
      destruct (first_failure E self (workspace E w) files); [discriminate|].
      now injection Hv.
    + destruct H as [H _]. rewrite H in Hv. discriminate.
Qed.

End TranscriptFacts.

(** Segment 2 of 3 fails: the text of the file is the first text, a
    space, the third text. *)
Example combined_transcript_skips_failure :
  let f := mkPath (lit "rec") (lit "a_1.m4a") in
  let E0 := posix_env [] (fun _ => 25 * 1024 * 1024) (fun _ => Some 1320000)
              (fun k _ _ => match k with
                            | 0%nat => Reply (lit " one ")
                            | 1%nat => Failed (lit "timeout")
                            | _ => Reply (lit "three")
                            end) in
  fst (process_sequential_files E0 (new_transcriber false) [f] (lit "th") empty_world) =
    Val (lit "=== File 1: a_1.m4a ===" ++ [10] ++ lit "one three").
Proof. vm_compute. reflexivity. Qed.

(** C1, as the specification words it, fails: a file whose only segment
    is transcribed successfully, to nothing but white space, has a
    successful segment but gets no block. *)
Lemma combined_transcript_blank_reply :
  let f := mkPath (lit "rec") (lit "a_1.m4a") in
  let E0 := posix_env [] (fun _ => 5) (fun _ => Some 1000) (fun _ _ _ => Reply (lit " ")) in
  let self := new_transcriber false in
  segments E0 self f (workspace E0 empty_world) = Val [f] /\
  responses E0 (lit "th") 0 [f] = [Reply (lit " ")] /\
  transcript_of E0 self (lit "th") successful_texts [f] empty_world =
    lit "=== File 1: a_1.m4a ===" ++ [10] /\
  fst (process_sequential_files E0 self [f] (lit "th") empty_world) = Val [] /\
  fst (process_sequential_files E0 self [f] (lit "th") empty_world) <>
    Val (transcript_of E0 self (lit "th") successful_texts [f] empty_world).
Proof.
  cbv zeta. repeat split; try (vm_compute; reflexivity).
  vm_compute. discriminate.
Qed.

Section KeepFacts.
Variable E : Env.

Lemma kept_texts_kept rs :
  Forall (fun t => t <> [] /\ startswith error_prefix t = false) (kept_texts rs).
Proof.
  unfold kept_texts. apply Forall_forall. intros t Ht.
  apply filter_In in Ht. destruct Ht as [_ Hk]. unfold keep in Hk.
  apply andb_true_iff in Hk. destruct Hk as [H1 H2]. split.
  - destruct t; [discriminate | discriminate].
  - now apply negb_true_iff.
Qed.

Lemma transcribe_chunks_as_failure self lang i nf nc tot chunks : forall j cur acc w,
  transcribe_chunks (with_service E (fun k p l => as_failure (whisper E k p l)))
                    self lang i nf nc tot chunks j cur acc w =
  transcribe_chunks E self lang i nf nc tot chunks j cur acc w.
Proof.
  induction chunks as [|c chunks IH]; intros j cur acc w; [reflexivity|].
  cbn [transcribe_chunks]. unfold bind at 1 4. unfold emit at 1 3. cbv beta iota.
  unfold bind at 1 3. rewrite !transcribe_audio_eq. cbv beta iota.
  cbn [whisper with_service]. unfold as_failure.
  destruct (whisper E _ c lang) as [text|detail].
  - destruct (keep (strip text)) eqn:Hk.
    + rewrite Hk. unfold bind at 1 2. unfold emit at 1 2. cbv beta iota. apply IH.
    + rewrite keep_marker. unfold bind at 1 2. unfold emit at 1 2. cbv beta iota. apply IH.
  - unfold bind at 1 2. unfold emit at 1 2. cbv beta iota. apply IH.
Qed.

Lemma process_files_as_failure self lang tmp nf tot files : forall i cur acc w,
  process_files (with_service E (fun k p l => as_failure (whisper E k p l)))
                self lang tmp nf tot files i cur acc w =
  process_files E self lang tmp nf tot files i cur acc w.
Proof.
  induction files as [|f files IH]; intros i cur acc w; [reflexivity|].
  cbn [process_files]. unfold bind at 1 3.
  change (chunk_audio_file (with_service E _) self f tmp w)
    with (chunk_audio_file E self f tmp w).
  destruct (chunk_audio_file E self f tmp w) as [[segs|e] w1]; [|reflexivity].
  unfold bind at 1 2. rewrite transcribe_chunks_as_failure.
  destruct (transcribe_chunks E _ _ _ _ _ _ _ _ _ _ _) as [[[c ts]|e] w2]; [|reflexivity].
  apply IH.
Qed.

Lemma sum_chunk_counts_as_failure self files : forall acc w,
  sum_chunk_counts (with_service E (fun k p l => as_failure (whisper E k p l)))
                   self files acc w =
  sum_chunk_counts E self files acc w.
Proof.
  induction files as [|f files IH]; intros acc w; [reflexivity|].
  cbn [sum_chunk_counts]. unfold bind.
  change (get_chunk_count (with_service E _) self f w) with (get_chunk_count E self f w).
  destruct (get_chunk_count E self f w) as [[n|e] w1]; [apply IH | reflexivity].
Qed.

(** C10. A reply whose trimmed text is empty or starts with [[ERROR] is
    treated as a failed request: replacing every such reply of the service
    by a failure changes nothing to what the batch returns and does.  The
    texts the inner loop collects are the kept texts of the outcomes, in
    order, and each of them is non-empty and does not start with
    [[ERROR]. *)
Theorem unkept_reply_as_failure self files lang w :
  process_sequential_files (with_service E (fun k p l => as_failure (whisper E k p l)))
                           self files lang w =
    process_sequential_files E self files lang w /\
  (forall i nf nc tot chunks j cur acc w0,
     fst (transcribe_chunks E self lang i nf nc tot chunks j cur acc w0) =
       Val (cur + N.of_nat (List.length chunks),
            acc ++ kept_texts (responses E lang (requests_of (trace w0)) chunks))) /\
  (forall rs, Forall (fun t => t <> [] /\ startswith error_prefix t = false) (kept_texts rs)) /\
  (forall rs, kept_texts (map as_failure rs) = kept_texts rs).
Proof.
  split; [|split; [|split]].
  - rewrite !process_sequential_files_unfold. cbv zeta.
    cbn [tmp_suffix with_service]. unfold batch_body.
    set (w1 := mkWorld (trace w ++ _) _ _ _).
    set (d := lit "audio_chunks_" ++ tmp_suffix E (dirs w)).
    assert (Hb :
      (total_chunks <- sum_chunk_counts (with_service E (fun k p l => as_failure (whisper E k p l))) self files 0;;
       emit (EvTqdm total_chunks);;;
       st <- process_files (with_service E (fun k p l => as_failure (whisper E k p l))) self lang d
               (N.of_nat (List.length files)) total_chunks files 1 0 [];;
       emit EvClose;;; ret (snd st)) w1 =
      (total_chunks <- sum_chunk_counts E self files 0;;
       emit (EvTqdm total_chunks);;;
       st <- process_files E self lang d
               (N.of_nat (List.length files)) total_chunks files 1 0 [];;
       emit EvClose;;; ret (snd st)) w1).
    { unfold bind at 1 5. rewrite sum_chunk_counts_as_failure.
      destruct (sum_chunk_counts E self files 0 w1) as [[n|e] w2]; [|reflexivity].
      unfold bind at 1 4. unfold emit at 1 3. cbv beta iota.
      unfold bind at 1 3. rewrite process_files_as_failure. reflexivity. }
    rewrite Hb. reflexivity.
  - intros i nf nc tot chunks j cur acc w0.
    destruct (transcribe_chunks_run E self lang i nf nc tot chunks j cur acc w0)
      as (w' & evs & H & _).
    now rewrite H.
  - apply kept_texts_kept.
  - induction rs as [|r rs IH]; [reflexivity|].
    cbn [map]. rewrite !kept_texts_cons, IH. destruct r as [text|detail]; [|reflexivity].
    cbn [as_failure]. destruct (keep (strip text)) eqn:Hk; [now rewrite Hk | reflexivity].
Qed.

End KeepFacts.

(* ================================================================== *)
(** * One request per segment *)

Section DriverLoop.
Variable E : Env.

(** C5, as the source has it.  [transcribe_audio] sends exactly one request and nothing else
    happens; it always returns a value, never an exception: the reply
    without the white space at its two ends when the service replied, the
    error marker naming the file it was given when the call failed.  So
    the loop over the segments of a file never stops early: it sends one
    request for every segment, in order, whatever the outcomes. *)
Theorem transcribe_audio_once self p lang cur total w :
  (exists r,
     transcribe_audio E self p lang cur total w =
       (Val r, mkWorld (trace w ++ [EvRequest p lang]) (dirs w) (artifacts w) (outputs w)) /\
     requests_of (trace w ++ [EvRequest p lang]) = S (requests_of (trace w)) /\
     match whisper E (requests_of (trace w)) p lang with
     | Reply text =>
         r = strip text /\
         exists l t,
           text = l ++ r ++ t /\
           forallb isspace l = true /\ forallb isspace t = true /\
           (forall c s, r = c :: s -> isspace c = false) /\
           (forall s c, r = s ++ [c] -> isspace c = false)
     | Failed _ =>
         r = lit "[ERROR: Could not transcribe " ++ name p ++ lit "]"
     end) /\
  (forall i nf nc chunks j acc,
     exists st evs,
       fst (transcribe_chunks E self lang i nf nc total chunks j cur acc w) = Val st /\
       trace (snd (transcribe_chunks E self lang i nf nc total chunks j cur acc w)) =
         trace w ++ evs /\
       progress_part evs = attempt_events lang chunks).
Proof.
  split.
  - rewrite transcribe_audio_eq. eexists. split; [reflexivity|]. split.
    + rewrite requests_of_app. simpl. lia.
    + destruct (whisper E _ p lang) as [text|detail]; [|reflexivity].
      split; [reflexivity|]. apply strip_spec.
  - intros i nf nc chunks j acc.
    destruct (transcribe_chunks_run E self lang i nf nc total chunks j cur acc w)
      as (w' & evs & H1 & H2 & H3 & _).
    rewrite H1. eexists; exists evs. repeat split; assumption.
Qed.

End DriverLoop.

(** C5, as the specification words it, fails: the second segment of a
    split file is the artifact [meet_2_chunk_002.mp4], cut from
    [meet_2.m4a]; when its request fails the marker names the artifact,
    not the file the segment originates from.  So it is for the sample
    of a file in test mode. *)
Lemma transcribe_audio_names_artifact :
  let E0 := silent_env in
  let tmp := workspace E0 empty_world in
  let p := chunk_path meet_2 tmp 1 in
  let a := mkAudio meet_2 600000 1200000 in
  let q := joinpath tmp (lit "meet_2_test_1min.mp4") in
  segments E0 (new_transcriber false) meet_2 tmp =
    Val [chunk_path meet_2 tmp 0; p; chunk_path meet_2 tmp 2] /\
  In (p, a) (artifacts (snd (chunk_audio_file E0 (new_transcriber false) meet_2 tmp
                               empty_world))) /\
  source a = meet_2 /\
  fst (transcribe_audio E0 (new_transcriber false) p (lit "th") 2 3 empty_world) =
    Val (lit "[ERROR: Could not transcribe meet_2_chunk_002.mp4]") /\
  marker_of_origin a = lit "[ERROR: Could not transcribe meet_2.m4a]" /\
  fst (transcribe_audio E0 (new_transcriber false) p (lit "th") 2 3 empty_world) <>
    Val (marker_of_origin a) /\
  segments E0 (new_transcriber true) meet_2 tmp = Val [q] /\
  fst (transcribe_audio E0 (new_transcriber true) q (lit "th") 1 1 empty_world) =
    Val (lit "[ERROR: Could not transcribe meet_2_test_1min.mp4]").
Proof.
  cbv zeta. repeat split; try (vm_compute; reflexivity).
  - vm_compute. right. left. reflexivity.
  - vm_compute. discriminate.
Qed.

(* ================================================================== *)
(** * The progress counter and decode failures *)

Lemma in_progress_part e evs : In e evs -> is_progress e = true -> In e (progress_part evs).
Proof. intros H1 H2. now apply filter_In. Qed.

Lemma in_attempt_events e lang segs :
  In e (attempt_events lang segs) ->
  (exists p, In p segs /\ e = EvRequest p lang) \/ e = EvUpdate 1.
Proof.
  unfold attempt_events. rewrite in_flat_map. intros (p & Hp & [H|[H|[]]]).
  - left. now exists p.
  - now right.
Qed.

(** At every moment of a sequence of attempts the count of the bar is
    the number of requests sent, or one less while a request is under
    way. *)
Lemma attempt_events_prefix lang segs : forall l1 l2,
  l1 ++ l2 = attempt_events lang segs ->
  completed l1 <= N.of_nat (List.length segs) /\
  (N.of_nat (requests_of l1) = completed l1 \/
   N.of_nat (requests_of l1) = completed l1 + 1).
Proof.
  induction segs as [|s segs IH]; intros l1 l2 H.
  - apply app_eq_nil in H. destruct H as [-> _]. cbn. split; [lia | now left].
  - cbn [attempt_events flat_map app] in H. fold (attempt_events lang segs) in H.
    destruct l1 as [|a [|b l1]].
    + cbn. split; [lia | now left].
    + cbn [app] in H. injection H as -> _. cbn. split; [lia | now right].
    + cbn [app] in H. injection H as -> -> H.
      destruct (IH _ _ H) as [H1 H2].
      cbn [completed requests_of List.length]. split; lia.
Qed.

Section ProgressFacts.
Variable E : Env.

(** C6. The bar is created once, with the sum of the planned counts as
    its total, after the planning and before any request; nothing is
    requested when the planning fails.  From then on the count starts at
    zero, every step is a step of one that follows one request, the count
    never decreases and never exceeds the total, every description shows
    this total and the count plus one as the current chunk, and the count
    is the total when the batch returns. *)
Theorem progress_counter self files lang w :
  let run := process_sequential_files E self files lang w in
  exists evs,
    trace (snd run) = trace w ++ evs /\
    match planned_total E self files 0 with
    | Raise _ => requests_of evs = 0%nat /\ (forall t, ~ In (EvTqdm t) evs)
    | Val total =>
        exists plan exec,
          evs = plan ++ EvTqdm total :: exec /\
          requests_of plan = 0%nat /\
          (forall t, ~ In (EvTqdm t) plan) /\
          (forall t, ~ In (EvTqdm t) exec) /\
          (forall n, In (EvUpdate n) exec -> n = 1) /\
          (forall pre post, exec = pre ++ post ->
             completed pre <= completed exec /\
             completed pre <= total /\
             (N.of_nat (requests_of pre) = completed pre \/
              N.of_nat (requests_of pre) = completed pre + 1)) /\
          (forall pre i nf j nc current_chunk total_chunks post,
             exec = pre ++ EvSetDescription i nf j nc current_chunk total_chunks :: post ->
             total_chunks = total /\ current_chunk = completed pre + 1) /\
          N.of_nat (requests_of exec) = completed exec /\
          (forall transcript, fst run = Val transcript -> completed exec = total)
    end.
Proof.
  cbv zeta.
  destruct (process_sequential_files_run E self files lang w) as (evs & Ht & H).
  exists evs. split; [exact Ht|].
  destruct (planned_total E self files 0) as [total|e] eqn:Hp.
  - destruct H as (Hr & plan & exec & Hevs & Hplan & Hexec & Hdesc).
    set (att := attempted E self (workspace E w) files) in *.
    destruct (@planned_total_bound E self (workspace E w) files 0 total Hp) as [Hle Heq].
    fold att in Hle, Heq.
    exists plan, exec. split; [exact Hevs|]. split; [now apply requests_of_quiet|].
    split; [|split; [|split; [|split; [|split; [|split]]]]].
    + intros t Hin. apply in_progress_part in Hin; [|reflexivity].
      rewrite Hplan in Hin. destruct Hin.
    + intros t Hin. apply in_progress_part in Hin; [|reflexivity].
      rewrite Hexec in Hin. apply in_attempt_events in Hin.
      destruct Hin as [(p & _ & Hin)|Hin]; discriminate.
    + intros n Hin. apply in_progress_part in Hin; [|reflexivity].
      rewrite Hexec in Hin. apply in_attempt_events in Hin.
      destruct Hin as [(p & _ & Hin)|Hin]; [discriminate | now injection Hin].
    + intros pre post Hsplit.
      assert (Hpp : progress_part pre ++ progress_part post = attempt_events lang att).
      { now rewrite <- progress_part_app, <- Hsplit. }
      destruct (@attempt_events_prefix lang att _ _ Hpp) as [H1 H2].
      rewrite requests_of_progress_part, completed_progress_part in *.
      split; [rewrite Hsplit, completed_app; lia|]. split; [lia | exact H2].
    + intros pre i nf j nc c t post Hsplit. rewrite Hsplit in Hdesc.
      apply described_app in Hdesc. destruct Hdesc as [_ Hdesc].
      cbn [described] in Hdesc. destruct Hdesc as (Ht' & Hc & _).
      split; [exact Ht' | rewrite Hc; lia].
    + rewrite <- requests_of_progress_part, <- completed_progress_part, Hexec.
      now rewrite requests_of_attempt_events, completed_attempt_events.
    + intros transcript Hv. rewrite Hr in Hv.
      destruct (first_failure E self (workspace E w) files) as [e|]; [discriminate|].
      rewrite <- completed_progress_part, Hexec, completed_attempt_events.
      specialize (Heq eq_refl). lia.
  - destruct H as [_ Hq]. split; [now apply requests_of_quiet|].
    intros t Hin. apply in_progress_part in Hin; [|reflexivity].
    rewrite Hq in Hin. destruct Hin.
Qed.

(** C4, as the source has it.  A file that does not decode makes the
    whole batch raise the decode error of a file of the list; no request
    is sent but for segments of the files before it, so no later file is
    attempted. *)
Theorem decode_failure_aborts_batch self pre bad post lang w :
  decode E bad = None ->
  let run := process_sequential_files E self (pre ++ bad :: post) lang w in
  (exists g, In g (pre ++ bad :: post) /\ decode E g = None /\
             fst run = Raise (CouldntDecodeError g)) /\
  exists evs,
    trace (snd run) = trace w ++ evs /\
    (requests_of evs <= List.length (attempted E self (workspace E w) pre))%nat /\
    (forall p l, In (EvRequest p l) evs -> In p (attempted E self (workspace E w) pre)).
Proof.
  intros Hb. cbv zeta.
  destruct (process_sequential_files_run E self (pre ++ bad :: post) lang w) as (evs & Ht & H).
  destruct (@attempted_stops E self (workspace E w) pre bad post Hb) as [rest Hrest].
  destruct (planned_total E self (pre ++ bad :: post) 0) as [total|e] eqn:Hp.
  - destruct H as (Hr & plan & exec & Hevs & Hplan & Hexec & _).
    pose proof (@first_failure_stops E self (workspace E w) pre bad post Hb) as Hff.
    destruct (first_failure E self (workspace E w) (pre ++ bad :: post)) as [e|] eqn:Hf;
      [|congruence].
    destruct (@first_failure_some E self (workspace E w) _ _ Hf) as (g & Hg & Hd & He).
    split; [exists g; repeat split; [assumption.. | congruence]|].
    exists evs. split; [exact Ht|]. split.
    + rewrite Hevs, requests_of_app. cbn [requests_of].
      rewrite (requests_of_quiet _ Hplan), <- requests_of_progress_part, Hexec,
              requests_of_attempt_events, Hrest, length_app. lia.
    + intros p l Hin. apply in_progress_part in Hin; [|reflexivity].
      rewrite Hevs, progress_part_app, Hplan in Hin. cbn in Hin.
      destruct Hin as [Hin|Hin]; [discriminate|].
      fold (progress_part exec) in Hin. rewrite Hexec in Hin.
      apply in_attempt_events in Hin. destruct Hin as [(q & Hq & Hin)|Hin]; [|discriminate].
      injection Hin as -> _. rewrite Hrest. apply in_or_app. now left.
  - destruct H as [Hr Hq].
    destruct (@planned_total_some E self _ _ _ Hp) as (g & Hg & Hd & He).
    split; [exists g; repeat split; [assumption.. | congruence]|].
    exists evs. split; [exact Ht|]. split.
    + rewrite (requests_of_quiet _ Hq). lia.
    + intros p l Hin. apply in_progress_part in Hin; [|reflexivity].
      rewrite Hq in Hin. destruct Hin.
Qed.

End ProgressFacts.

(** C4, as the specification words it, fails: the first file does not
    decode, the batch raises, and the second file is neither decoded nor
    sent to the service. *)
Lemma decode_failure_not_isolated :
  let bad := mkPath (lit "rec") (lit "a_1.m4a") in
  let good := mkPath (lit "rec") (lit "a_2.m4a") in
  let E0 := posix_env [] (fun _ => 5)
              (fun p => if PyStr.eqb (name p) (lit "a_1.m4a") then None else Some 1000)
              (fun _ _ _ => Reply (lit "hello")) in
  let run := process_sequential_files E0 (new_transcriber false) [bad; good] (lit "th")
                                      empty_world in
  decode E0 good = Some 1000 /\
  fst run = Raise (CouldntDecodeError bad) /\
  trace (snd run) =
    [EvMkdtemp (lit "audio_chunks_k3x9"); EvTqdm 2; EvDecode bad;
     EvRmtree (lit "audio_chunks_k3x9")] /\
  ~ In (EvRequest good (lit "th")) (trace (snd run)) /\
  ~ (exists transcript, fst run = Val transcript).
Proof.
  cbv zeta. split; [reflexivity|]. split; [vm_compute; reflexivity|].
  split; [vm_compute; reflexivity|]. split.
  - vm_compute. intros [H|[H|[H|[H|[]]]]]; discriminate.
  - intros [t H]. vm_compute in H. discriminate.
Qed.

(* ================================================================== *)
(** * The command line *)

Section MainFacts.
Variable E : Env.

Lemma init_cases test w :
  init E None test w = (Val (new_transcriber test), w) \/
  exists e, init E None test w = (Raise e, w).
Proof.
  unfold init. destruct (getenv_api_key E) as [[|c k]|].
  - right. now eexists.
  - now left.
  - right. now eexists.
Qed.

Lemma grows_generate_summary self transcript lang :
  grows (generate_summary E self transcript lang).
Proof.
  unfold generate_summary. grows_step; [|grows_step].
  grows_step; [grows_step|].
  destruct (chat E _ _); grows_step.
Qed.

Lemma generate_summary_returns self transcript lang w :
  exists summary, fst (generate_summary E self transcript lang w) = Val summary.
Proof.
  unfold generate_summary, try_except, bind, emit.
  destruct (chat E _ _); now eexists.
Qed.

(** C7, as the source has it.  [main] returns 1 when the construction of
    the transcriber or the batch raises, and nothing is written; it
    returns [None] and writes nothing when no file matches or when the
    combined transcript is empty; otherwise it returns [None] after
    writing the transcript file and then the summary file. *)
Theorem main_outcomes args w :
  let run := main E args w in
  let files := find_sequential_files E (directory args) (prefix args) in
  let batch :=
    process_sequential_files E (new_transcriber (test args)) files (language args) w in
  match fst (init E None (test args) w), files, fst batch with
  | Raise _, _, _ => fst run = Val (Some 1%Z) /\ outputs (snd run) = outputs w
  | Val _, [], _ => fst run = Val None /\ outputs (snd run) = outputs w
  | Val _, _ :: _, Raise _ => fst run = Val (Some 1%Z) /\ outputs (snd run) = outputs w
  | Val _, _ :: _, Val transcript =>
      fst run = Val None /\
      if truthy transcript then
        exists summary before,
          trace (snd run) =
            before ++ [EvWrite (transcript_file args) transcript;
                       EvWrite (summary_file args) summary] /\
          outputs (snd run) =
            written (summary_file args) summary
                    (written (transcript_file args) transcript (outputs w))
      else outputs (snd run) = outputs w
  end.
Proof.
  cbv zeta.
  destruct (init_cases (test args) w) as [Hi|[e Hi]]; rewrite Hi; cbn [fst].
  2: { unfold main, try_except, bind. rewrite Hi. split; reflexivity. }
  destruct (find_sequential_files E (directory args) (prefix args)) as [|f files] eqn:Hf.
  { unfold main, try_except, bind. rewrite Hi, Hf. split; reflexivity. }
  pose proof (grows_process_sequential_files E (new_transcriber (test args)) (f :: files)
                (language args) w) as [_ Hout].
  destruct (process_sequential_files E (new_transcriber (test args)) (f :: files)
              (language args) w) as [[transcript|e] w1] eqn:Hb; cbn [fst snd] in *.
  2: { unfold main, try_except, bind. rewrite Hi, Hf, Hb. split; [reflexivity | exact Hout]. }
  destruct (truthy transcript) eqn:Htr.
  2: { unfold main, try_except, bind. rewrite Hi, Hf, Hb, Htr.
       split; [reflexivity | exact Hout]. }
  destruct (generate_summary_returns (new_transcriber (test args)) transcript
              (summary_lang args) w1) as [summary Hs].
  pose proof (grows_generate_summary (new_transcriber (test args)) transcript
                (summary_lang args) w1) as [_ Hout2].
  destruct (generate_summary E (new_transcriber (test args)) transcript
              (summary_lang args) w1) as [rs w2] eqn:Hg; cbn [fst snd] in *. subst rs.
  unfold main, try_except, bind. rewrite Hi, Hf, Hb, Htr. cbn [negb]. rewrite Hg.
  unfold save_outputs, bind, write_text, ret. cbn [fst snd test_mode new_transcriber].
  split; [reflexivity|].
  exists summary, (trace w2). split.
  - cbn [trace]. rewrite <- app_assoc. reflexivity.
  - cbn [outputs]. rewrite Hout2, Hout. reflexivity.
Qed.

End MainFacts.

(** C7, as the specification words it, fails: no entry of the directory
    matches, and [main] returns [None], the script ends with status 0 and
    nothing signals a failure. *)
Lemma main_no_files_no_failure :
  let E0 := posix_env [lit "notes.txt"] (fun _ => 0) (fun _ => None) (fun _ _ _ => Reply []) in
  let args := mkArgs (lit "rec") (lit "meet") (lit "th") (lit "output") (lit "thai") false in
  find_sequential_files E0 (directory args) (prefix args) = [] /\
  main E0 args empty_world = (Val None, empty_world) /\
  fst (script E0 args empty_world) = 0%Z /\
  ~ (exists status, status <> 0%Z /\
       (fst (main E0 args empty_world) = Val (Some status) \/
        fst (script E0 args empty_world) = status)).
Proof.
  cbv zeta. split; [vm_compute; reflexivity|]. split; [vm_compute; reflexivity|].
  split; [vm_compute; reflexivity|].
  intros (status & Hne & [H|H]); vm_compute in H; congruence.
Qed.

(* ================================================================== *)
(** * The properties on a sample batch *)

Example meeting_batch :
  let files := find_sequential_files meeting_env (lit "rec") (lit "meet") in
  let self := new_transcriber false in
  files = [meet_1; meet_2] /\
  planned meeting_env self meet_1 = Val 1 /\
  planned meeting_env self meet_2 = Val 3 /\
  planned_total meeting_env self files 0 = Val 4 /\
  fst (process_sequential_files meeting_env self files (lit "th") empty_world) =
    Val (lit "=== File 1: meet_1.m4a ===" ++ [10] ++ lit "part 0" ++ [10; 10]
         ++ lit "=== File 2: meet_2.m4a ===" ++ [10] ++ lit "part 1 part 2 part 3").
Proof. vm_compute. repeat split. Qed.

(** The boundary of the limit: 10 * 1024 * 1024 bytes is within it, one
    byte more is not. *)
Example chunk_plan_boundary :
  let self := new_transcriber false in
  let E0 size := posix_env [] (fun _ => size) (fun _ => Some 1320000) (fun _ _ _ => Reply []) in
  within_limit (E0 10485760) self meet_1 = true /\
  within_limit (E0 10485761) self meet_1 = false /\
  planned (E0 10485760) self meet_1 = Val 1 /\
  planned (E0 10485761) self meet_1 = Val 3.
Proof. vm_compute. repeat split. Qed.

Lemma combined_transcript_witness :
  Forall (fun f => decode meeting_env f <> None) [meet_1; meet_2] /\
  fst (process_sequential_files meeting_env (new_transcriber false) [meet_1; meet_2]
                                (lit "th") empty_world) =
    Val (transcript_of meeting_env (new_transcriber false) (lit "th") kept_texts
                       [meet_1; meet_2] empty_world).
Proof.
  assert (H : Forall (fun f => decode meeting_env f <> None) [meet_1; meet_2]).
  { repeat constructor; vm_compute; discriminate. }
  split; [exact H|].
  exact (proj1 (@combined_transcript meeting_env (new_transcriber false) [meet_1; meet_2]
                  (lit "th") empty_world) H).
Defined.

Lemma find_sequential_files_spec_witness :
  newline_is_no_extension meeting_env /\
  StronglySorted (seq_le meeting_env (lit "meet"))
                 (find_sequential_files meeting_env (lit "rec") (lit "meet")) /\
  sequence_num meeting_env (lit "meet") meet_2 = Some 2.
Proof.
  assert (H : newline_is_no_extension meeting_env) by (left; reflexivity).
  destruct (@find_sequential_files_spec meeting_env (lit "rec") (lit "meet") H)
    as (Hin & Hnum & Hs & _).
  split; [exact H|]. split; [exact Hs|].
  apply (Hnum meet_2 (lit "2")).
  - vm_compute. right. left. reflexivity.
  - exists (lit "meet_"), (lit ".m4a"). split; [reflexivity|].
    split; [repeat constructor|]. split; [discriminate|].
    split; repeat constructor.
Defined.

Lemma chunk_plan_witness :
  st_size meeting_env meet_1 <= 10 * 1024 * 1024 /\
  10 * 1024 * 1024 < st_size meeting_env meet_2 /\
  get_chunk_count meeting_env (new_transcriber false) meet_1 empty_world =
    (Val 1, empty_world) /\
  chunk_audio_file meeting_env (new_transcriber false) meet_1 (lit "tmp") empty_world =
    (Val [meet_1], mkWorld [EvDecode meet_1] [] [] []) /\
  fst (get_chunk_count meeting_env (new_transcriber false) meet_2 empty_world) = Val 3 /\
  fst (chunk_audio_file meeting_env (new_transcriber false) meet_2 (lit "tmp") empty_world) =
    Val (map (chunk_path meet_2 (lit "tmp")) [0; 1; 2]%nat).
Proof.
  assert (H1 : st_size meeting_env meet_1 <= 10 * 1024 * 1024) by (vm_compute; discriminate).
  assert (H2 : 10 * 1024 * 1024 < st_size meeting_env meet_2) by (vm_compute; reflexivity).
  destruct (@chunk_plan meeting_env meet_1 (lit "tmp") empty_world) as [Hsmall _].
  destruct (@chunk_plan meeting_env meet_2 (lit "tmp") empty_world) as [_ Hlarge].
  destruct (Hsmall H1) as [Hc Hm].
  destruct (Hlarge H2 1320000 eq_refl) as (_ & Hn & Hs & _).
  split; [exact H1|]. split; [exact H2|]. split; [exact Hc|].
  split; [exact (Hm 300000 eq_refl)|]. split.
  - rewrite Hn. reflexivity.
  - exact Hs.
Defined.

Lemma test_mode_sample_witness :
  decode meeting_env meet_2 = Some 1320000 /\
  get_chunk_count meeting_env (new_transcriber true) meet_2 empty_world =
    (Val 1, empty_world) /\
  fst (chunk_audio_file meeting_env (new_transcriber true) meet_2 (lit "tmp") empty_world) =
    Val [mkPath (lit "tmp") (lit "meet_2_test_1min.mp4")] /\
  artifacts (snd (chunk_audio_file meeting_env (new_transcriber true) meet_2 (lit "tmp")
                                   empty_world)) =
    [(mkPath (lit "tmp") (lit "meet_2_test_1min.mp4"), mkAudio meet_2 0 60000)].
Proof.
  assert (H : decode meeting_env meet_2 = Some 1320000) by reflexivity.
  destruct (@test_mode_sample meeting_env meet_2 (lit "tmp") empty_world) as [Hc Hm].
  destruct (Hm 1320000 H) as [Hm' _]. clear Hm. rename Hm' into Hm.
  split; [exact H|]. split; [exact Hc|]. rewrite Hm. split; reflexivity.
Defined.

Lemma decode_failure_aborts_batch_witness :
  let E0 := posix_env [] (fun _ => 5)
              (fun p => if PyStr.eqb (name p) (lit "meet_2.m4a") then None else Some 1000)
              (fun _ _ _ => Reply (lit "hello")) in
  let run := process_sequential_files E0 (new_transcriber false) [meet_1; meet_2; meet_1]
                                      (lit "th") empty_world in
  decode E0 meet_2 = None /\
  (exists g, In g [meet_1; meet_2; meet_1] /\ decode E0 g = None /\
             fst run = Raise (CouldntDecodeError g)) /\
  (requests_of (trace (snd run)) <= 1)%nat.
Proof.
  cbv zeta.
  set (E0 := posix_env [] (fun _ => 5)
               (fun p => if PyStr.eqb (name p) (lit "meet_2.m4a") then None else Some 1000)
               (fun _ _ _ => Reply (lit "hello"))).
  assert (H : decode E0 meet_2 = None) by reflexivity.
  destruct (@decode_failure_aborts_batch E0 (new_transcriber false) [meet_1] meet_2 [meet_1]
              (lit "th") empty_world H) as (Hg & evs & Ht & Hn & _).
  split; [exact H|]. split; [exact Hg|].
  cbn [app] in Ht. rewrite Ht. exact Hn.
Defined.

(* ================================================================== *)
(** * Further properties: the windows of a split *)

Unset Implicit Arguments.

Lemma chained_map_slice (a : AudioSegment) (L : N) : forall n k,
  chained (start_ms a + N.min (N.of_nat k * L) (len a))
          (map (fun i => slice a (N.of_nat i * L) ((N.of_nat i + 1) * L)) (seq k n))
          (start_ms a + N.min (N.of_nat (k + n) * L) (len a)).
Proof.
  induction n as [|n IH]; intros k; cbn [seq map chained].
  - now rewrite Nat.add_0_r.
  - split; [reflexivity|]. cbn [slice stop_ms].
    replace (N.of_nat k + 1) with (N.of_nat (S k)) by lia.
    replace (k + S n)%nat with (S k + n)%nat by lia.
    apply IH.
Qed.

Lemma chained_sum cs : forall from to,
  chained from cs to -> Forall (fun c => start_ms c <= stop_ms c) cs ->
  from <= to /\ fold_right (fun c s => len c + s) 0 cs = to - from.
Proof.
  induction cs as [|c cs IH]; intros from to Hc Hwf; cbn [chained fold_right] in *.
  - subst. split; lia.
  - destruct Hc as [<- Hc]. inversion Hwf as [|? ? Hc0 Hcs]; subst.
    destruct (IH _ _ Hc Hcs) as [Hle ->]. unfold len. split; lia.
Qed.

Lemma removelast_map_seq {A} (f : nat -> A) : forall n k,
  removelast (map f (seq k n)) = map f (seq k (n - 1)).
Proof.
  induction n as [|n IH]; intros k; [reflexivity|].
  destruct n as [|m]; [reflexivity|].
  specialize (IH (S k)).
  replace (S (S m) - 1)%nat with (S m) by lia.
  replace (S m - 1)%nat with m in IH by lia.
  change (seq k (S (S m))) with (k :: seq (S k) (S m)).
  change (seq k (S m)) with (k :: seq (S k) m).
  cbn [map]. rewrite <- IH.
  change (seq (S k) (S m)) with (S k :: seq (S (S k)) m). reflexivity.
Qed.

(** The windows of [make_chunks] tile the audio: they follow one another
    from its start to its end, each belongs to the same source, none is
    empty, none is longer than the window length and all but the last
    have exactly this length, and their lengths add up to the length of
    the audio. *)
Lemma make_chunks_tiles (a : AudioSegment) (L : N) :
  0 < L ->
  start_ms a <= stop_ms a ->
  let cs := make_chunks a L in
  chained (start_ms a) cs (stop_ms a) /\
  Forall (fun c => source c = source a /\ 0 < len c /\ len c <= L) cs /\
  fold_right (fun c s => len c + s) 0 cs = len a /\
  (forall c, In c (removelast cs) -> len c = L).
Proof.
  intros HL Hwf. cbv zeta.
  assert (Hn : forall i, (i < N.to_nat (ceil_div (len a) L))%nat -> N.of_nat i * L < len a).
  { intros i Hi. apply lt_ceil_div; [exact HL | lia]. }
  assert (Hlast : len a <= N.of_nat (N.to_nat (ceil_div (len a) L)) * L).
  { rewrite N2Nat.id. now apply ceil_div_least. }
  assert (Hchain : chained (start_ms a) (make_chunks a L) (stop_ms a)).
  { pose proof (chained_map_slice a L (N.to_nat (ceil_div (len a) L)) 0) as H.
    cbn [N.of_nat Nat.add] in H. rewrite N.mul_0_l, N.min_0_l, N.add_0_r in H.
    rewrite N.min_r in H by exact Hlast.
    replace (start_ms a + len a) with (stop_ms a) in H by (unfold len; lia).
    exact H. }
  assert (Hall : Forall (fun c => source c = source a /\ 0 < len c /\ len c <= L)
                        (make_chunks a L)).
  { apply Forall_forall. intros c Hc. apply in_map_iff in Hc.
    destruct Hc as (i & <- & Hi). apply in_seq in Hi.
    specialize (Hn i ltac:(lia)).
    unfold slice. split; [reflexivity|]. unfold len in *. cbn [start_ms stop_ms].
    set (x := N.of_nat i * L) in *.
    replace ((N.of_nat i + 1) * L) with (x + L) by (unfold x; lia). lia. }
  split; [exact Hchain|]. split; [exact Hall|]. split.
  - destruct (chained_sum _ _ _ Hchain) as [_ ->]; [|reflexivity].
    eapply Forall_impl; [|exact Hall]. cbv beta. unfold len. intros c (_ & H & _). lia.
  - intros c Hc. unfold make_chunks in Hc.
    rewrite removelast_map_seq in Hc.
    apply in_map_iff in Hc. destruct Hc as (i & <- & Hi). apply in_seq in Hi.
    specialize (Hn (S i) ltac:(lia)).
    unfold slice. unfold len in *. cbn [start_ms stop_ms].
    replace (N.of_nat (S i) * L) with (N.of_nat i * L + L) in Hn by lia.
    set (x := N.of_nat i * L) in *.
    replace ((N.of_nat i + 1) * L) with (x + L) by (unfold x; lia). lia.
Qed.

(* ================================================================== *)
(** * Further properties: sequence numbers *)

Section NumberFacts.
Variable E : Env.
Hypothesis Hdigits : forall c, 48 <= c <= 57 -> decimal_value E c = Some (c - 48).

Lemma lit_digits (d : Decimal.uint) :
  Forall (fun c => 48 <= c <= 57) (lit (NilEmpty.string_of_uint d)).
Proof.
  induction d; [constructor | ..]; (constructor; [cbv; split; discriminate | exact IHd]).
Qed.

Lemma fold_digits_acc (d : Decimal.uint) : forall acc : positive,
  fold_left (int_step E) (lit (NilEmpty.string_of_uint d)) (N.pos acc) =
  N.pos (Pos.of_uint_acc d acc).
Proof.
  induction d; intros acc; [reflexivity | ..];
    (change (lit (NilEmpty.string_of_uint (_ d)))
       with (_ :: lit (NilEmpty.string_of_uint d)) ||
     idtac);
    unfold lit; cbn [NilEmpty.string_of_uint list_ascii_of_string map fold_left];
    fold (lit (NilEmpty.string_of_uint d)); cbn [Pos.of_uint_acc];
    rewrite <- IHd; f_equal; unfold int_step; rewrite Hdigits by (cbv; split; discriminate);
    cbn [N_of_ascii N_of_digits]; lia.
Qed.

Lemma fold_digits (d : Decimal.uint) :
  fold_left (int_step E) (lit (NilEmpty.string_of_uint d)) 0 = N.of_uint d.
Proof.
  unfold N.of_uint.
  induction d; [reflexivity | ..];
    unfold lit; cbn [NilEmpty.string_of_uint list_ascii_of_string map fold_left];
    fold (lit (NilEmpty.string_of_uint d)); cbn [Pos.of_uint].
  1: { rewrite <- IHd. f_equal. unfold int_step.
       rewrite Hdigits by (cbv; split; discriminate). reflexivity. }
  all: rewrite <- fold_digits_acc; f_equal; unfold int_step;
    rewrite Hdigits by (cbv; split; discriminate); reflexivity.
Qed.

(** Reading a printed number gives the number back. *)
Lemma int_of_str_of_N (n : N) : int_of E (str_of_N n) = n.
Proof.
  unfold int_of, str_of_N. fold (int_step E). rewrite fold_digits.
  apply DecimalN.Unsigned.of_to.
Qed.

Lemma fold_zeros (k : nat) : forall s, fold_left (int_step E) (repeat 48 k ++ s) 0 = fold_left (int_step E) s 0.
Proof.
  induction k as [|k IH]; intros s; [reflexivity|].
  cbn [repeat app fold_left]. unfold int_step at 2.
  rewrite Hdigits by lia. cbn. apply IH.
Qed.

Lemma int_of_format_03d (n : N) : int_of E (format_03d n) = n.
Proof.
  unfold int_of, format_03d. fold (int_step E). cbv zeta. rewrite fold_zeros.
  apply int_of_str_of_N.
Qed.

End NumberFacts.

(* ================================================================== *)
(** * Further properties: the locator *)

Lemma Path_eqb_eq (p q : Path) : Path_eqb p q = true <-> p = q.
Proof.
  unfold Path_eqb. rewrite andb_true_iff, !eqb_eq. destruct p, q; cbn.
  split; [intros [-> ->]; reflexivity | intros H; injection H; auto].
Qed.

Lemma str_of_N_inj (a b : N) : str_of_N a = str_of_N b -> a = b.
Proof.
  intros H.
  assert (Hd : forall c, 48 <= c <= 57 -> decimal_value meeting_env c = Some (c - 48)).
  { intros c [H1 H2]. cbn. unfold ascii_decimal.
    apply N.leb_le in H1, H2. now rewrite H1, H2. }
  rewrite <- (int_of_str_of_N meeting_env Hd a), <- (int_of_str_of_N meeting_env Hd b).
  now rewrite H.
Qed.

Lemma format_03d_inj (a b : N) : format_03d a = format_03d b -> a = b.
Proof.
  intros H.
  assert (Hd : forall c, 48 <= c <= 57 -> decimal_value meeting_env c = Some (c - 48)).
  { intros c [H1 H2]. cbn. unfold ascii_decimal.
    apply N.leb_le in H1, H2. now rewrite H1, H2. }
  rewrite <- (int_of_format_03d meeting_env Hd a), <- (int_of_format_03d meeting_env Hd b).
  now rewrite H.
Qed.

Section LocatorMore.
Variable E : Env.

Lemma in_find_sequential_files dir prefix p :
  In p (find_sequential_files E dir prefix) <->
  In p (glob E dir) /\ matches E prefix p = true.
Proof.
  unfold find_sequential_files.
  rewrite <- filter_In, <- collect_snd.
  split; apply Permutation_in; apply Permutation_map; [|symmetry]; apply sort_by_perm.
Qed.

Lemma find_sequential_files_perm dir prefix :
  Permutation (find_sequential_files E dir prefix) (filter (matches E prefix) (glob E dir)).
Proof.
  unfold find_sequential_files. rewrite <- collect_snd.
  apply Permutation_map, sort_by_perm.
Qed.

Lemma ci_equal_refl (s : pystr) : (forall c, same_case E c c = true) -> ci_equal E s s.
Proof. intros H. induction s; constructor; auto. Qed.

Lemma match_digits_all (ds : pystr) :
  (forall c, same_case E c c = true) -> decimal_value E 46 = None ->
  ds <> [] -> Forall (fun c => is_digit E c = true) ds ->
  match_digits E (ds ++ lit ".m4a") = Some ds.
Proof.
  intros Hrefl Hdot Hne Hds.
  assert (Htail : match_tail E (lit ".m4a") = true).
  { unfold match_tail.
    rewrite <- (app_nil_r (lit ".m4a")) at 2.
    now rewrite (@match_literal_complete E _ _ [] (ci_equal_refl (lit ".m4a") Hrefl)). }
  assert (Hnone : match_digits E (lit ".m4a") = None).
  { change (lit ".m4a") with (46 :: lit "m4a"). cbn [match_digits].
    unfold is_digit. now rewrite Hdot. }
  induction Hds as [|c ds Hc Hds IH]; [congruence|].
  cbn [app match_digits]. rewrite Hc. destruct ds as [|c' ds].
  - cbn [app]. now rewrite Hnone, Htail.
  - rewrite IH by discriminate. reflexivity.
Qed.

Lemma str_of_N_digits (n : N) :
  (forall c, 48 <= c <= 57 -> decimal_value E c = Some (c - 48)) ->
  str_of_N n <> [] /\ Forall (fun c => is_digit E c = true) (str_of_N n).
Proof.
  intros Hd. split.
  - intros H. pose proof (int_of_str_of_N E Hd n) as Hn. rewrite H in Hn. cbn in Hn.
    subst n. discriminate H.
  - unfold str_of_N. eapply Forall_impl; [|apply lit_digits].
    intros c Hc. unfold is_digit. now rewrite (Hd c Hc).
Qed.

Lemma glob_m4a_extension (x : pystr) :
  (forall c, same_case E c c = true) -> glob_m4a E (x ++ lit ".m4a") = true.
Proof.
  intros Hrefl. unfold glob_m4a. destruct (glob_case_sensitive E).
  - unfold endswith. rewrite rev_app_distr. apply startswith_app.
  - rewrite length_app. change (List.length (lit ".m4a")) with 4%nat.
    replace (List.length x + 4 - 4)%nat with (List.length x + 0)%nat by lia.
    rewrite skipn_app, Nat.add_0_r, skipn_all, Nat.sub_diag. cbn [app skipn].
    replace (4 <=? List.length x + 4)%nat with true by (symmetry; apply Nat.leb_le; lia).
    rewrite <- (app_nil_r (lit ".m4a")) at 2.
    now rewrite (@match_literal_complete E _ _ [] (ci_equal_refl (lit ".m4a") Hrefl)).
Qed.

Lemma sequential_name_match prefix n :
  ascii_compatible E ->
  pattern_match E prefix (sequential_name prefix n) = Some (str_of_N n) /\
  int_of E (str_of_N n) = n /\
  glob_m4a E (sequential_name prefix n) = true.
Proof.
  intros (Hrefl & Hd & Hdot).
  destruct (str_of_N_digits n Hd) as [Hne Hds].
  split; [|split].
  - unfold pattern_match, sequential_name.
    rewrite (app_assoc prefix).
    rewrite (@match_literal_complete E _ _ _ (ci_equal_refl (prefix ++ lit "_") Hrefl)).
    now apply match_digits_all.
  - now apply int_of_str_of_N.
  - unfold sequential_name. rewrite !app_assoc. now apply glob_m4a_extension.
Qed.

(** X1. With tables that agree with ASCII, the file of a directory that is
    named after the scheme, [<prefix>_<n>.m4a] with [n] in decimal, is
    found, and the sequence number read from its name is [n]. *)
Theorem sequential_name_found dir prefix n :
  ascii_compatible E ->
  In (sequential_name prefix n) (listdir E dir) ->
  let p := mkPath dir (sequential_name prefix n) in
  pattern_match E prefix (name p) = Some (str_of_N n) /\
  sequence_num E prefix p = Some n /\
  In p (find_sequential_files E dir prefix).
Proof.
  intros Ha Hin. cbv zeta. cbn [name].
  destruct (sequential_name_match prefix n Ha) as (Hpm & Hint & Hg).
  split; [exact Hpm|]. split.
  - unfold sequence_num. cbn [name]. rewrite Hpm. cbn. now f_equal.
  - apply in_find_sequential_files. split.
    + apply in_glob. cbn [parent name]. repeat split; assumption.
    + unfold matches. cbn [name]. now rewrite Hpm.
Qed.

(** X4. A directory that lists no entry twice gives no path twice, and
    never more paths than it has entries. *)
Theorem find_sequential_files_nodup dir prefix :
  NoDup (listdir E dir) ->
  NoDup (find_sequential_files E dir prefix) /\
  (List.length (find_sequential_files E dir prefix) <= List.length (listdir E dir))%nat.
Proof.
  intros Hnd.
  assert (Hg : NoDup (glob E dir)).
  { unfold glob. apply NoDup_map_NoDup_ForallPairs.
    - intros a b _ _ H. now injection H.
    - now apply NoDup_filter. }
  split.
  - eapply Permutation_NoDup; [symmetry; apply find_sequential_files_perm|].
    now apply NoDup_filter.
  - rewrite (Permutation_length (find_sequential_files_perm dir prefix)).
    etransitivity; [apply filter_length_le|].
    unfold glob. rewrite length_map. apply filter_length_le.
Qed.

Lemma collect_perm prefix l1 l2 :
  Permutation l1 l2 -> Permutation (collect E prefix l1) (collect E prefix l2).
Proof.
  induction 1 as [|x l l' _ IH|x y l|l l' l'' _ IH1 _ IH2]; cbn [collect].
  - constructor.
  - destruct (pattern_match E prefix (name x)); [now constructor | exact IH].
  - destruct (pattern_match E prefix (name x)), (pattern_match E prefix (name y));
      try reflexivity. apply perm_swap.
  - now transitivity (collect E prefix l').
Qed.

Lemma collect_with_entries entries prefix paths :
  collect (with_entries E entries) prefix paths = collect E prefix paths.
Proof.
  induction paths as [|p paths IH]; [reflexivity|]. cbn [collect].
  change (pattern_match (with_entries E entries) prefix (name p))
    with (pattern_match E prefix (name p)).
  change (int_of (with_entries E entries)) with (int_of E).
  now rewrite IH.
Qed.

Lemma glob_with_entries entries dir :
  glob (with_entries E entries) dir = map (joinpath dir) (filter (glob_m4a E) entries).
Proof. reflexivity. Qed.

Lemma Permutation_filter {A} (f : A -> bool) (l1 l2 : list A) :
  Permutation l1 l2 -> Permutation (filter f l1) (filter f l2).
Proof.
  induction 1 as [|x l l' _ IH|x y l|l l' l'' _ IH1 _ IH2]; cbn [filter].
  - constructor.
  - destruct (f x); [now constructor | exact IH].
  - destruct (f x), (f y); try reflexivity. apply perm_swap.
  - now transitivity (filter f l').
Qed.

Lemma filter_none {A} (f : A -> bool) (l : list A) :
  (forall x, In x l -> f x = false) -> filter f l = [].
Proof.
  induction l as [|x l IH]; intros H; [reflexivity|]. cbn [filter].
  rewrite (H x) by now left. apply IH. intros y Hy. apply H. now right.
Qed.

Lemma filter_all {A} (f : A -> bool) (l : list A) :
  (forall x, In x l -> f x = true) -> filter f l = l.
Proof.
  induction l as [|x l IH]; intros H; [reflexivity|]. cbn [filter].
  rewrite (H x) by now left. f_equal. apply IH. intros y Hy. apply H. now right.
Qed.

Lemma numbered_pairs (path : N -> Path) (num : Path -> option N) :
  (forall n, num (path n) = Some n) ->
  forall (cs : list (N * Path)) (ns : list N),
  Forall (fun x => num (snd x) = Some (fst x)) cs ->
  map snd cs = map path ns ->
  map fst cs = ns.
Proof.
  intros Hnum. induction cs as [|x cs IH]; intros [|n ns] Hall Hmap; try discriminate Hmap.
  - reflexivity.
  - inversion Hall as [|? ? Hx Hcs]; subst. cbn [map] in *.
    injection Hmap as Hp Hmap. rewrite Hp, Hnum in Hx. injection Hx as <-.
    f_equal. now apply IH.
Qed.

Lemma sorted_map_fst (cs : list (N * Path)) :
  StronglySorted (fun a b => fst a <= fst b) cs -> StronglySorted N.le (map fst cs).
Proof.
  induction 1 as [|x cs _ IH Hx]; cbn [map]; constructor; [exact IH|].
  rewrite Forall_map. exact Hx.
Qed.

(** X2. With tables that agree with ASCII: when the entries of the directory
    are the files numbered [ns] of the scheme, in any order and among
    entries that are not selected, the result is these files in ascending
    order of their numbers, so that number 10 comes after number 2. *)
Theorem named_sequence_in_order dir prefix (ns : list N) (others : list pystr) :
  ascii_compatible E ->
  Permutation (listdir E dir) (map (sequential_name prefix) ns ++ others) ->
  (forall o, In o others -> glob_m4a E o = false \/ pattern_match E prefix o = None) ->
  exists sorted,
    Permutation ns sorted /\ StronglySorted N.le sorted /\
    find_sequential_files E dir prefix =
      map (fun n => mkPath dir (sequential_name prefix n)) sorted.
Proof.
  intros Ha Hp Ho.
  set (path := fun n => mkPath dir (sequential_name prefix n)).
  set (sel := fun o => glob_m4a E o && matches E prefix (joinpath dir o)).
  assert (Hsel : forall l, filter (matches E prefix) (map (joinpath dir) (filter (glob_m4a E) l)) =
                           map (joinpath dir) (filter sel l)).
  { induction l as [|o l IH]; [reflexivity|]. cbn [filter]. unfold sel at 1.
    destruct (glob_m4a E o); cbn [andb map filter]; [|exact IH].
    destruct (matches E prefix (joinpath dir o)); cbn [map]; now rewrite IH. }
  assert (Hr : Permutation (find_sequential_files E dir prefix) (map path ns)).
  { rewrite find_sequential_files_perm. unfold glob. rewrite Hsel.
    rewrite (Permutation_filter sel _ _ Hp), filter_app.
    rewrite (filter_none sel others), app_nil_r.
    - rewrite filter_all, map_map; [reflexivity|].
      intros o Hin. apply in_map_iff in Hin. destruct Hin as (n & <- & _).
      destruct (sequential_name_match prefix n Ha) as (Hpm & _ & Hg).
      unfold sel, matches. cbn [joinpath name]. now rewrite Hg, Hpm.
    - intros o Hin. unfold sel, matches. cbn [joinpath name].
      destruct (Ho o Hin) as [->| ->]; [reflexivity | apply andb_false_r]. }
  apply Permutation_map_inv in Hr. destruct Hr as (sorted & Heq & Hperm).
  exists sorted. split; [exact Hperm|]. split; [|exact Heq].
  unfold find_sequential_files in Heq.
  set (cs := sort_by fst (collect E prefix (glob E dir))) in *.
  assert (Hnum : Forall (fun x => sequence_num E prefix (snd x) = Some (fst x)) cs).
  { eapply Permutation_Forall; [symmetry; apply sort_by_perm | apply collect_num]. }
  rewrite <- (numbered_pairs path (sequence_num E prefix)) with (cs := cs) (ns := sorted).
  - apply sorted_map_fst, sort_by_sorted.
  - intros n. destruct (sequential_name_match prefix n Ha) as (Hpm & Hint & _).
    unfold sequence_num, path. cbn [name]. rewrite Hpm. cbn. now f_equal.
  - exact Hnum.
  - exact Heq.
Qed.

End LocatorMore.

(** Two lists sorted by a key without repetition are equal when they
    have the same elements. *)
Lemma sorted_perm_unique {A} (key : A -> N) : forall l1 l2 : list A,
  StronglySorted (fun a b => key a <= key b) l1 ->
  StronglySorted (fun a b => key a <= key b) l2 ->
  Permutation l1 l2 -> NoDup (map key l1) -> l1 = l2.
Proof.
  induction l1 as [|x l1 IH]; intros l2 Hs1 Hs2 Hp Hnd.
  - apply Permutation_nil in Hp. now subst.
  - destruct l2 as [|y l2]; [symmetry in Hp; now apply Permutation_nil in Hp|].
    inversion Hs1 as [|? ? Hs1' Hx]; subst. inversion Hs2 as [|? ? Hs2' Hy]; subst.
    cbn [map] in Hnd. inversion Hnd as [|? ? Hnx Hnd']; subst.
    rewrite Forall_forall in Hx, Hy.
    assert (Hyx : x = y).
    { assert (Hin1 : In y (x :: l1)) by (eapply Permutation_in; [symmetry; exact Hp | now left]).
      assert (Hin2 : In x (y :: l2)) by (eapply Permutation_in; [exact Hp | now left]).
      destruct Hin1 as [->|Hin1]; [reflexivity|].
      destruct Hin2 as [->|Hin2]; [reflexivity|].
      exfalso. apply Hnx. specialize (Hx _ Hin1). specialize (Hy _ Hin2).
      replace (key x) with (key y) by lia. now apply in_map. }
    subst y. f_equal. apply IH; try assumption.
    now apply Permutation_cons_inv in Hp.
Qed.

(** X3. When the sequence numbers of the files found are distinct, the
    result does not depend on the order in which the directory lists its
    entries. *)
Theorem find_sequential_files_order E dir prefix entries1 entries2 :
  Permutation entries1 entries2 ->
  NoDup (map (sequence_num E prefix)
             (find_sequential_files (with_entries E entries1) dir prefix)) ->
  find_sequential_files (with_entries E entries1) dir prefix =
  find_sequential_files (with_entries E entries2) dir prefix.
Proof.
  intros Hp Hnd. unfold find_sequential_files in *.
  rewrite !collect_with_entries, !glob_with_entries in *.
  set (cs1 := collect E prefix (map (joinpath dir) (filter (glob_m4a E) entries1))) in *.
  set (cs2 := collect E prefix (map (joinpath dir) (filter (glob_m4a E) entries2))).
  assert (Hcs : Permutation cs1 cs2).
  { apply collect_perm, Permutation_map.
    clear -Hp. induction Hp as [|x l l' _ IH|x y l|l l' l'' _ IH1 _ IH2]; cbn [filter].
    - constructor.
    - destruct (glob_m4a E x); [now constructor | exact IH].
    - destruct (glob_m4a E x), (glob_m4a E y); try reflexivity. apply perm_swap.
    - now transitivity (filter (glob_m4a E) l'). }
  f_equal. apply (sorted_perm_unique fst); try apply sort_by_sorted.
  - rewrite (sort_by_perm fst cs1), Hcs. symmetry. apply sort_by_perm.
  - assert (Hnum : Forall (fun x => sequence_num E prefix (snd x) = Some (fst x))
                          (sort_by fst cs1)).
    { eapply Permutation_Forall; [symmetry; apply sort_by_perm | apply collect_num]. }
    rewrite map_map in Hnd.
    assert (Heq : map (fun x => sequence_num E prefix (snd x)) (sort_by fst cs1) =
                  map Some (map fst (sort_by fst cs1))).
    { rewrite map_map. apply map_ext_in. intros x Hx.
      rewrite Forall_forall in Hnum. now apply Hnum. }
    rewrite Heq in Hnd. now apply NoDup_map_inv in Hnd.
Qed.

(* ================================================================== *)
(** * Further properties: what the materializer and the batch leave behind *)

Section PreservesFacts.
Variable R : World -> World -> Prop.
Hypothesis R_refl : forall w, R w w.
Hypothesis R_trans : forall w1 w2 w3, R w1 w2 -> R w2 w3 -> R w1 w3.
Hypothesis R_event : forall w e,
  R w (mkWorld (trace w ++ [e]) (dirs w) (artifacts w) (outputs w)).

Lemma preserves_ret {A} (a : A) : preserves R (ret a).
Proof. intros w. apply R_refl. Qed.

Lemma preserves_raise {A} e : preserves R (@raise A e).
Proof. intros w. apply R_refl. Qed.

Lemma preserves_emit e : preserves R (emit e).
Proof. intros w. apply R_event. Qed.

Lemma preserves_bind {A B} (m : M A) (k : A -> M B) :
  preserves R m -> (forall a, preserves R (k a)) -> preserves R (bind m k).
Proof.
  intros Hm Hk w. unfold bind. specialize (Hm w).
  destruct (m w) as [[a|e] w1]; cbn [snd] in *.
  - eapply R_trans; [exact Hm | apply Hk].
  - exact Hm.
Qed.

Lemma preserves_try_except {A} (m : M A) (h : exn -> M A) :
  preserves R m -> (forall e, preserves R (h e)) -> preserves R (try_except m h).
Proof.
  intros Hm Hh w. unfold try_except. specialize (Hm w).
  destruct (m w) as [[a|e] w1]; cbn [snd] in *.
  - exact Hm.
  - eapply R_trans; [exact Hm | apply Hh].
Qed.

Variable E : Env.

Lemma preserves_from_file p : preserves R (from_file E p).
Proof.
  unfold from_file. apply preserves_bind; [apply preserves_emit|]. intros _.
  destruct (decode E p); [apply preserves_ret | apply preserves_raise].
Qed.

Lemma preserves_get_chunk_count self p : preserves R (get_chunk_count E self p).
Proof.
  unfold get_chunk_count.
  destruct (test_mode self); [apply preserves_ret|].
  destruct (within_limit E self p); [apply preserves_ret|].
  apply preserves_bind; [apply preserves_from_file | intros a; apply preserves_ret].
Qed.

Lemma preserves_sum_chunk_counts self files :
  forall acc, preserves R (sum_chunk_counts E self files acc).
Proof.
  induction files as [|f files IH]; intros acc; cbn [sum_chunk_counts].
  - apply preserves_ret.
  - apply preserves_bind; [apply preserves_get_chunk_count | intros n; apply IH].
Qed.

Lemma preserves_transcribe_audio self p lang c t :
  preserves R (transcribe_audio E self p lang c t).
Proof. intros w. rewrite transcribe_audio_eq. cbn [snd]. apply R_event. Qed.

Lemma preserves_transcribe_chunks self lang i nf nc tot chunks :
  forall j cur acc, preserves R (transcribe_chunks E self lang i nf nc tot chunks j cur acc).
Proof.
  induction chunks as [|c chunks IH]; intros j cur acc; cbn [transcribe_chunks].
  - apply preserves_ret.
  - apply preserves_bind; [apply preserves_emit|]. intros _.
    apply preserves_bind; [apply preserves_transcribe_audio|]. intros t.
    apply preserves_bind; [apply preserves_emit|]. intros _. apply IH.
Qed.

End PreservesFacts.

Lemma filter_outside_drop (d : pystr) (p : Path) (l : list (Path * AudioSegment)) :
  parent p = d ->
  filter (outside d) (filter (fun x => negb (Path_eqb (fst x) p)) l) = filter (outside d) l.
Proof.
  intros Hp. induction l as [|x l IH]; [reflexivity|].
  cbn [filter]. destruct (Path_eqb (fst x) p) eqn:Hx; cbn [negb filter].
  - apply Path_eqb_eq in Hx. unfold outside at 2. rewrite Hx, Hp, eqb_refl. cbn. exact IH.
  - now rewrite IH.
Qed.

Lemma same_outside_refl d w : same_outside d w w.
Proof. split; reflexivity. Qed.

Lemma same_outside_trans d w1 w2 w3 :
  same_outside d w1 w2 -> same_outside d w2 w3 -> same_outside d w1 w3.
Proof. intros [H1 H2] [H3 H4]. split; congruence. Qed.

Lemma same_outside_event d w e :
  same_outside d w (mkWorld (trace w ++ [e]) (dirs w) (artifacts w) (outputs w)).
Proof. split; reflexivity. Qed.

Section KeepsOutside.
Variable E : Env.
Variable d : pystr.

Lemma preserves_export a nm : preserves (same_outside d) (export a (joinpath d nm)).
Proof.
  intros w. split; [reflexivity|]. cbn [export snd artifacts filter].
  unfold outside at 1. cbn [fst parent joinpath]. rewrite eqb_refl. cbn [negb].
  now apply filter_outside_drop.
Qed.

Lemma preserves_export_chunks f chunks :
  forall i acc, preserves (same_outside d) (export_chunks f d i chunks acc).
Proof.
  induction chunks as [|c chunks IH]; intros i acc; cbn [export_chunks].
  - apply preserves_ret. apply same_outside_refl.
  - apply preserves_bind; [apply same_outside_trans | apply preserves_export | intros _; apply IH].
Qed.

Lemma preserves_chunk_audio_file self f :
  preserves (same_outside d) (chunk_audio_file E self f d).
Proof.
  unfold chunk_audio_file.
  apply preserves_bind; [apply same_outside_trans | |].
  - apply preserves_from_file;
      [apply same_outside_refl | apply same_outside_trans | apply same_outside_event].
  - intros a. destruct (test_mode self).
    + apply preserves_bind; [apply same_outside_trans | apply preserves_export|].
      intros _. apply preserves_ret, same_outside_refl.
    + destruct (within_limit E self f);
        [apply preserves_ret, same_outside_refl | apply preserves_export_chunks].
Qed.

Lemma preserves_process_files self lang nf tot files :
  forall i cur acc, preserves (same_outside d) (process_files E self lang d nf tot files i cur acc).
Proof.
  induction files as [|f files IH]; intros i cur acc; cbn [process_files].
  - apply preserves_ret, same_outside_refl.
  - apply preserves_bind; [apply same_outside_trans | apply preserves_chunk_audio_file|].
    intros segs.
    apply preserves_bind; [apply same_outside_trans | |].
    + apply preserves_transcribe_chunks;
        [apply same_outside_refl | apply same_outside_trans | apply same_outside_event].
    + intros [c ts]. apply IH.
Qed.

Lemma preserves_batch_body self files lang :
  preserves (same_outside d) (batch_body E self files lang d).
Proof.
  unfold batch_body.
  apply preserves_bind; [apply same_outside_trans | |].
  - apply preserves_sum_chunk_counts;
      [apply same_outside_refl | apply same_outside_trans | apply same_outside_event].
  - intros total.
    apply preserves_bind;
      [apply same_outside_trans | apply preserves_emit, same_outside_event|].
    intros _.
    apply preserves_bind; [apply same_outside_trans | apply preserves_process_files|].
    intros st.
    apply preserves_bind;
      [apply same_outside_trans | apply preserves_emit, same_outside_event|].
    intros _. apply preserves_ret, same_outside_refl.
Qed.

End KeepsOutside.

(** X7. Whatever [chunk_audio_file] does, return or raise, it changes
    nothing outside the directory it is given: the temporary directories
    and the text files are as before, and so are the artifacts that are
    not in this directory. *)
Theorem chunk_audio_file_frame E self f tmp w :
  let w' := snd (chunk_audio_file E self f tmp w) in
  dirs w' = dirs w /\
  outputs w' = outputs w /\
  filter (outside tmp) (artifacts w') = filter (outside tmp) (artifacts w).
Proof.
  cbv zeta. destruct (preserves_chunk_audio_file E tmp self f w) as [H1 H2].
  destruct (grows_chunk_audio_file E self f tmp w) as [_ H3].
  repeat split; assumption.
Qed.

(** X8. A batch leaves nothing behind and removes nothing else: when it
    ends, by a return or by an exception, the temporary directories, the
    artifacts and the text files are those it found, provided the
    directory [mkdtemp] gave it did not exist before. *)
Theorem batch_leaves_nothing E self files lang w :
  ~ In (workspace E w) (dirs w) ->
  (forall x, In x (artifacts w) -> parent (fst x) <> workspace E w) ->
  let w' := snd (process_sequential_files E self files lang w) in
  dirs w' = dirs w /\ artifacts w' = artifacts w /\ outputs w' = outputs w.
Proof.
  intros Hfresh Hnone. cbv zeta.
  destruct (grows_process_sequential_files E self files lang w) as [_ Hout].
  rewrite process_sequential_files_unfold in *. cbv zeta in *. cbn [snd] in *.
  fold (workspace E w) in *. remember (workspace E w) as d eqn:Hdef. clear Hdef.
  match goal with
  | |- context [batch_body E self files lang d ?w1] =>
      destruct (preserves_batch_body E d self files lang w1) as [Hd Ha]
  end.
  cbn [dirs artifacts] in Hd, Ha |- *.
  split; [|split; [|exact Hout]].
  - rewrite Hd. cbn [filter]. rewrite eqb_refl. cbn [negb].
    apply filter_all. intros x Hx. apply negb_true_iff.
    destruct (PyStr.eqb x d) eqn:Hxd; [|reflexivity].
    apply eqb_eq in Hxd. subst x. contradiction.
  - change (fun x : Path * AudioSegment => negb (PyStr.eqb (parent (fst x)) d))
      with (outside d).
    rewrite Ha.
    apply filter_all. intros x Hx. unfold outside. apply negb_true_iff.
    destruct (PyStr.eqb (parent (fst x)) d) eqn:Hxd; [|reflexivity].
    apply eqb_eq in Hxd. exfalso. exact (Hnone x Hx Hxd).
Qed.

(* ================================================================== *)
(** * Further properties: the artifacts of a split *)

Lemma chunk_path_inj f tmp (a b : nat) : chunk_path f tmp a = chunk_path f tmp b -> a = b.
Proof.
  intros H. apply (f_equal name) in H. unfold chunk_path, joinpath in H. cbn [name] in H.
  apply app_inv_head in H. apply (app_inv_head (lit "_chunk_")) in H.
  apply app_inv_tail in H.
  apply format_03d_inj in H. lia.
Qed.

Lemma exported_exports (l : list (nat * AudioSegment)) (g : nat -> Path) :
  exported (map (fun kc => EvExport (g (fst kc)) (snd kc)) l) = map snd l.
Proof.
  induction l as [|x l IH]; [reflexivity|].
  unfold exported in *. cbn [map flat_map app]. now rewrite IH.
Qed.

Lemma map_snd_combine_seq {A} (l : list A) (i : nat) :
  map snd (combine (seq i (List.length l)) l) = l.
Proof.
  revert i. induction l as [|x l IH]; intros i; [reflexivity|].
  cbn. now rewrite IH.
Qed.

Lemma export_chunks_kept f tmp chunks : forall i acc w,
  (forall x, In x (artifacts w) ->
     (forall k, (k < List.length chunks)%nat -> fst x <> chunk_path f tmp (i + k)) ->
     In x (artifacts (snd (export_chunks f tmp (N.of_nat i) chunks acc w)))) /\
  (forall k c, nth_error chunks k = Some c ->
     In (chunk_path f tmp (i + k), c)
        (artifacts (snd (export_chunks f tmp (N.of_nat i) chunks acc w)))).
Proof.
  induction chunks as [|c chunks IH]; intros i acc w.
  - split; [intros x Hx _; exact Hx | intros [|k] c' H; discriminate H].
  - cbn [export_chunks]. unfold bind, export.
    fold (chunk_path f tmp i).
    replace (N.of_nat i + 1) with (N.of_nat (S i)) by lia.
    match goal with
    | |- context [export_chunks f tmp (N.of_nat (S i)) chunks ?acc' ?w1] =>
        destruct (IH (S i) acc' w1) as [HA HB]
    end.
    cbn [artifacts] in HA. split.
    + intros x Hx Hne. apply HA.
      * right. apply filter_In. split; [exact Hx|]. apply negb_true_iff.
        destruct (Path_eqb (fst x) (chunk_path f tmp i)) eqn:He; [|reflexivity].
        apply Path_eqb_eq in He. exfalso. apply (Hne 0%nat); [cbn; lia|].
        now rewrite Nat.add_0_r.
      * intros k Hk. replace (S i + k)%nat with (i + S k)%nat by lia.
        apply Hne. cbn [List.length]. lia.
    + intros [|k] c' Hc; cbn [nth_error] in Hc.
      * injection Hc as <-. rewrite Nat.add_0_r. apply HA; [now left|].
        intros k Hk Heq. cbn [fst] in Heq. apply chunk_path_inj in Heq. lia.
      * replace (i + S k)%nat with (S i + k)%nat by lia. now apply HB.
Qed.

Section SplitFacts.
Variable E : Env.

Lemma chunk_audio_file_split f tmp w d :
  10 * 1024 * 1024 < st_size E f -> decode E f = Some d ->
  chunk_audio_file E (new_transcriber false) f tmp w =
    export_chunks f tmp 0 (make_chunks (mkAudio f 0 d) 600000) []
      (mkWorld (trace w ++ [EvDecode f]) (dirs w) (artifacts w) (outputs w)).
Proof.
  intros Hs Hd. unfold chunk_audio_file, bind, from_file, emit, bind. rewrite Hd.
  cbn [test_mode new_transcriber ret chunk_length_ms]. rewrite within_limit_bytes.
  apply N.leb_gt in Hs. rewrite Hs. reflexivity.
Qed.

(** X5. The artifacts a split exports tile the audio of the file: the
    windows follow one another from 0 to the duration, each is cut from
    the file, none is empty or longer than 600 000 ms, all but the last
    are exactly 600 000 ms long, and their lengths add up to the
    duration. *)
Theorem split_windows_tile f tmp w d :
  10 * 1024 * 1024 < st_size E f -> decode E f = Some d ->
  exists evs,
    trace (snd (chunk_audio_file E (new_transcriber false) f tmp w)) =
      trace w ++ EvDecode f :: evs /\
    let cs := exported evs in
    List.length cs = N.to_nat (ceil_div d 600000) /\
    chained 0 cs d /\
    Forall (fun c => source c = f /\ 0 < len c /\ len c <= 600000) cs /\
    fold_right (fun c s => len c + s) 0 cs = d /\
    (forall c, In c (removelast cs) -> len c = 600000).
Proof.
  intros Hs Hd. rewrite (chunk_audio_file_split f tmp w d Hs Hd).
  set (cs := make_chunks (mkAudio f 0 d) 600000).
  destruct (export_chunks_eq f tmp cs 0 []
              (mkWorld (trace w ++ [EvDecode f]) (dirs w) (artifacts w) (outputs w)))
    as (w' & H1 & H2 & _).
  change (N.of_nat 0) with 0 in H1. rewrite H1. cbn [snd].
  eexists. split; [rewrite H2; cbn [trace]; rewrite <- app_assoc; reflexivity|].
  cbv zeta. rewrite exported_exports, map_snd_combine_seq.
  destruct (make_chunks_tiles (mkAudio f 0 d) 600000) as (Hc & Hall & Hsum & Hlast);
    [reflexivity | cbn; lia |].
  fold cs in Hc, Hall, Hsum, Hlast. cbn [start_ms stop_ms source] in *.
  split; [unfold cs; rewrite length_make_chunks; unfold len; cbn; now rewrite N.sub_0_r|].
  split; [exact Hc|]. split; [exact Hall|]. split; [|exact Hlast].
  rewrite Hsum. unfold len. cbn. apply N.sub_0_r.
Qed.

(** X6. After a split every window is in the workspace under the name of
    its ordinal: the names of the ordinals differ from one another, so no
    export overwrites another, and the paths returned are these names in
    order. *)
Theorem split_artifacts_kept f tmp w d :
  10 * 1024 * 1024 < st_size E f -> decode E f = Some d ->
  let run := chunk_audio_file E (new_transcriber false) f tmp w in
  let n := N.to_nat (ceil_div d 600000) in
  fst run = Val (map (chunk_path f tmp) (seq 0 n)) /\
  NoDup (map (chunk_path f tmp) (seq 0 n)) /\
  forall k, (k < n)%nat ->
    In (chunk_path f tmp k,
        mkAudio f (N.of_nat k * 600000) (N.min ((N.of_nat k + 1) * 600000) d))
       (artifacts (snd run)).
Proof.
  intros Hs Hd. cbv zeta. rewrite (chunk_audio_file_split f tmp w d Hs Hd).
  rewrite make_chunks_windows by reflexivity.
  set (n := N.to_nat (ceil_div d 600000)).
  set (ws := map _ (seq 0 n)).
  set (w1 := mkWorld _ _ _ _).
  destruct (export_chunks_eq f tmp ws 0 [] w1) as (w' & H1 & _).
  destruct (export_chunks_kept f tmp ws 0 [] w1) as [_ HB].
  change (N.of_nat 0) with 0 in *. rewrite H1 in *. cbn [fst snd] in *.
  split; [|split].
  - subst ws. now rewrite length_map, length_seq.
  - apply NoDup_map_NoDup_ForallPairs; [|apply seq_NoDup].
    intros a b _ _. apply chunk_path_inj.
  - intros k Hk. apply (HB k). subst ws.
    rewrite nth_error_map, nth_error_seq.
    destruct (Nat.ltb_spec k n) as [_|Hge]; [reflexivity | lia].
Qed.

End SplitFacts.

(* ================================================================== *)
(** * Further properties: the command line and the output files *)

Unset Implicit Arguments.

Lemma read_text_written_same p content files :
  read_text p (written p content files) = Some content.
Proof.
  unfold read_text, written. cbn [find fst].
  assert (H : Path_eqb p p = true) by now apply Path_eqb_eq.
  now rewrite H.
Qed.

Lemma find_filter_other (p q : Path) (files : list (Path * pystr)) :
  p <> q ->
  find (fun x => Path_eqb (fst x) q) (filter (fun x => negb (Path_eqb (fst x) p)) files) =
  find (fun x => Path_eqb (fst x) q) files.
Proof.
  intros Hne. induction files as [|x files IH]; [reflexivity|].
  cbn [filter find].
  destruct (Path_eqb (fst x) p) eqn:Hp; cbn [negb].
  - apply Path_eqb_eq in Hp.
    destruct (Path_eqb (fst x) q) eqn:Hq; [|exact IH].
    apply Path_eqb_eq in Hq. congruence.
  - cbn [find]. destruct (Path_eqb (fst x) q); [reflexivity | exact IH].
Qed.

Lemma read_text_written_other p q content files :
  p <> q -> read_text q (written p content files) = read_text q files.
Proof.
  intros Hne. unfold read_text, written. cbn [find fst].
  destruct (Path_eqb p q) eqn:Hpq; [apply Path_eqb_eq in Hpq; congruence|].
  now rewrite find_filter_other.
Qed.

Lemma save_outputs_eq self transcript summary out pre w :
  save_outputs self transcript summary out pre w =
    (Val tt,
     mkWorld (trace w ++ [EvWrite (transcript_path self out pre) transcript;
                          EvWrite (summary_path self out pre) summary])
             (dirs w) (artifacts w)
             (written (summary_path self out pre) summary
                      (written (transcript_path self out pre) transcript (outputs w)))).
Proof.
  unfold save_outputs, bind, write_text, transcript_path, summary_path, written.
  cbn [trace dirs artifacts outputs]. now rewrite <- app_assoc.
Qed.

Lemma transcript_summary_apart self self' out pre :
  transcript_path self out pre <> summary_path self' out pre.
Proof.
  unfold transcript_path, summary_path, joinpath. intros H.
  apply (f_equal name) in H. cbn [name] in H.
  destruct (test_mode self), (test_mode self'); rewrite <- ?app_assoc in H;
    apply app_inv_head in H; vm_compute in H; discriminate H.
Qed.

Lemma modes_apart out pre :
  transcript_path (new_transcriber true) out pre <>
    transcript_path (new_transcriber false) out pre /\
  summary_path (new_transcriber true) out pre <>
    summary_path (new_transcriber false) out pre.
Proof.
  unfold transcript_path, summary_path, joinpath. cbn [test_mode new_transcriber].
  split; intros H; apply (f_equal name) in H; cbn [name] in H;
    rewrite <- app_assoc in H; apply app_inv_head in H; vm_compute in H; discriminate H.
Qed.

Section OutputFacts.
Variable E : Env.

(** X13. The two files of a run can be read back: the transcript file holds
    the transcript and the summary file the summary, since the two names
    differ, and every other text file is as it was. *)
Theorem save_outputs_read_back self transcript summary out pre w :
  let w' := snd (save_outputs self transcript summary out pre w) in
  read_text (transcript_path self out pre) (outputs w') = Some transcript /\
  read_text (summary_path self out pre) (outputs w') = Some summary /\
  (forall p, p <> transcript_path self out pre -> p <> summary_path self out pre ->
     read_text p (outputs w') = read_text p (outputs w)) /\
  dirs w' = dirs w /\ artifacts w' = artifacts w.
Proof.
  cbv zeta. rewrite save_outputs_eq. cbn [snd outputs dirs artifacts].
  split; [|split; [|split; [|split; reflexivity]]].
  - rewrite read_text_written_other
      by (intros H; symmetry in H; revert H; apply transcript_summary_apart).
    apply read_text_written_same.
  - apply read_text_written_same.
  - intros p H1 H2.
    rewrite !read_text_written_other by congruence. reflexivity.
Qed.

(** X14. A run in test mode writes beside the files of a normal run with the
    same prefix and output directory, not over them: its two names differ
    from the two names of the normal run. *)
Theorem test_outputs_apart transcript summary out pre w :
  let normal := new_transcriber false in
  let w' := snd (save_outputs (new_transcriber true) transcript summary out pre w) in
  read_text (transcript_path normal out pre) (outputs w') =
    read_text (transcript_path normal out pre) (outputs w) /\
  read_text (summary_path normal out pre) (outputs w') =
    read_text (summary_path normal out pre) (outputs w).
Proof.
  cbv zeta. rewrite save_outputs_eq. cbn [snd outputs].
  destruct (modes_apart out pre) as [H1 H2].
  pose proof (transcript_summary_apart (new_transcriber true) (new_transcriber false) out pre) as H3.
  pose proof (transcript_summary_apart (new_transcriber false) (new_transcriber true) out pre) as H4.
  split; rewrite !read_text_written_other; congruence.
Qed.

End OutputFacts.

(* ================================================================== *)
(** * Further properties: what makes a run fail, and what does not *)

Section RunFacts.
Variable E : Env.

Lemma first_failure_exists self tmp files f :
  In f files -> decode E f = None -> exists e, first_failure E self tmp files = Some e.
Proof.
  induction files as [|g files IH]; intros Hin Hd; [destruct Hin|].
  cbn [first_failure]. destruct (segments E self g tmp) as [segs|e] eqn:Hs; [|now eexists].
  destruct Hin as [->|Hin]; [|now apply IH].
  rewrite (@segments_undecodable E self f tmp Hd) in Hs. discriminate Hs.
Qed.

Lemma undecodable_dec (files : list Path) :
  Forall (fun f => decode E f <> None) files \/ exists f, In f files /\ decode E f = None.
Proof.
  induction files as [|f files [IH|(g & Hg & Hd)]].
  - left. constructor.
  - destruct (decode E f) as [d|] eqn:Hd.
    + left. constructor; [congruence | exact IH].
    + right. exists f. split; [now left | exact Hd].
  - right. exists g. split; [now right | exact Hd].
Qed.

Lemma batch_returns self files lang w :
  Forall (fun f => decode E f <> None) files ->
  fst (process_sequential_files E self files lang w) =
    Val (transcript_of E self lang kept_texts files w).
Proof.
  intros Hd. destruct (process_sequential_files_run E self files lang w) as (evs & _ & H).
  destruct (@planned_total_ok E self files 0 Hd) as [total Ht]. rewrite Ht in H.
  destruct H as [H _]. rewrite H.
  now rewrite (@first_failure_none E self (workspace E w) files Hd).
Qed.

Lemma batch_raises self files lang w f :
  In f files -> decode E f = None ->
  exists e, fst (process_sequential_files E self files lang w) = Raise e.
Proof.
  intros Hin Hd. destruct (process_sequential_files_run E self files lang w) as (evs & _ & H).
  destruct (planned_total E self files 0) as [total|e].
  - destruct H as [H _]. rewrite H.
    destruct (first_failure_exists self (workspace E w) files f Hin Hd) as [e ->].
    now exists e.
  - destruct H as [H _]. now exists e.
Qed.

Lemma init_with_key test w :
  has_api_key E = true -> init E None test w = (Val (new_transcriber test), w).
Proof.
  unfold has_api_key, init. destruct (getenv_api_key E) as [[|c k]|]; try discriminate.
  reflexivity.
Qed.

Lemma init_without_key test w :
  has_api_key E = false -> exists e, init E None test w = (Raise e, w).
Proof.
  unfold has_api_key, init. destruct (getenv_api_key E) as [[|c k]|]; try discriminate;
    intros _; now eexists.
Qed.

Lemma generate_summary_eq self transcript lang w :
  generate_summary E self transcript lang w =
    (Val match chat E (system_message self lang) (user_message transcript) with
         | Reply content =>
             if test_mode self
             then 129514 :: lit " TEST MODE SUMMARY (1 minute sample)" ++ [10; 10]
                            ++ strip content
             else strip content
         | Failed _ => lit "[ERROR: Could not generate summary]"
         end,
     mkWorld (trace w ++ [EvChat (system_message self lang) (user_message transcript)])
             (dirs w) (artifacts w) (outputs w)).
Proof.
  unfold generate_summary, try_except, bind, emit.
  fold (system_message self lang). fold (user_message transcript).
  destruct (chat E _ _); reflexivity.
Qed.

(** [main] with a key and a file found, from what the batch gives. *)
Lemma main_of_batch args w f files :
  has_api_key E = true ->
  find_sequential_files E (directory args) (prefix args) = f :: files ->
  let self := new_transcriber (test args) in
  let batch := process_sequential_files E self (f :: files) (language args) w in
  main E args w =
    match fst batch with
    | Raise _ => (Val (Some 1%Z), snd batch)
    | Val [] => (Val None, snd batch)
    | Val (c :: t) =>
        (Val None,
         snd (save_outputs self (c :: t)
                (match fst (generate_summary E self (c :: t) (summary_lang args) (snd batch)) with
                 | Val summary => summary
                 | Raise _ => []
                 end)
                (output args) (prefix args)
                (snd (generate_summary E self (c :: t) (summary_lang args) (snd batch)))))
    end.
Proof.
  intros Hk Hf. cbv zeta. unfold main, try_except, bind at 1.
  rewrite (init_with_key (test args) w Hk), Hf. unfold bind at 1.
  destruct (process_sequential_files E (new_transcriber (test args)) (f :: files)
              (language args) w) as [[[|c t]|e] w1]; cbn [fst snd truthy negb]; try reflexivity.
  unfold bind.
  rewrite generate_summary_eq. cbn [fst snd]. rewrite save_outputs_eq. reflexivity.
Qed.

(** X10. With files that can be read and writes that succeed, as the
    environment has them, [main] never raises, and it returns 1 exactly
    when no key is given or one of the files it found cannot be decoded.
    So a transcription or summarization service that fails, or a
    directory without any sequential file, never makes [main] return 1. *)
Theorem main_fails_iff args w :
  let files := find_sequential_files E (directory args) (prefix args) in
  (exists r, fst (main E args w) = Val r) /\
  (fst (main E args w) = Val (Some 1%Z) <->
   has_api_key E = false \/ exists f, In f files /\ decode E f = None).
Proof.
  cbv zeta. destruct (has_api_key E) eqn:Hk.
  2: { destruct (init_without_key (test args) w Hk) as [e Hi].
       assert (Hm : main E args w = (Val (Some 1%Z), w)).
       { unfold main, try_except, bind. now rewrite Hi. }
       rewrite Hm. split; [now eexists|]. split; [now left | reflexivity]. }
  destruct (find_sequential_files E (directory args) (prefix args)) as [|f files] eqn:Hf.
  { assert (Hm : main E args w = (Val None, w)).
    { unfold main, try_except, bind. now rewrite (init_with_key (test args) w Hk), Hf. }
    rewrite Hm. split; [now eexists|]. split; [discriminate|].
    intros [H|(g & [] & _)]. discriminate H. }
  rewrite (main_of_batch args w f files Hk Hf). cbv zeta.
  destruct (undecodable_dec (f :: files)) as [Hd|(g & Hg & Hd)].
  - rewrite (batch_returns _ _ (language args) w Hd).
    assert (Hno : ~ exists g, In g (f :: files) /\ decode E g = None).
    { intros (g & Hg & Hn). rewrite Forall_forall in Hd. now apply (Hd g Hg). }
    destruct (transcript_of E _ _ kept_texts (f :: files) w); cbn [fst];
      (split; [now eexists|]); (split; [discriminate|]);
      intros [H|H]; [discriminate H | contradiction | discriminate H | contradiction].
  - destruct (batch_raises (new_transcriber (test args)) (f :: files) (language args) w g Hg Hd)
      as [e ->].
    cbn [fst]. split; [now eexists|]. split; [|reflexivity].
    intros _. right. now exists g.
Qed.

Lemma kept_texts_unkept lang segs : forall k,
  (forall k p l, unkept (whisper E k p l) = true) ->
  kept_texts (responses E lang k segs) = [].
Proof.
  intros k Hu. revert k. induction segs as [|p segs IH]; intros k; [reflexivity|].
  cbn [responses]. rewrite kept_texts_cons, IH. specialize (Hu k p lang).
  destruct (whisper E k p lang) as [text|detail]; [|reflexivity].
  cbn [unkept] in Hu. apply negb_true_iff in Hu. now rewrite Hu.
Qed.

Lemma blocks_unkept self lang tmp files : forall k i,
  (forall k p l, unkept (whisper E k p l) = true) ->
  blocks E self lang tmp kept_texts k i files = [].
Proof.
  intros k i Hu. revert k i. induction files as [|f files IH]; intros k i; [reflexivity|].
  cbn [blocks]. destruct (segments E self f tmp) as [segs|e]; [|reflexivity].
  now rewrite kept_texts_unkept, IH.
Qed.

(** X11. When no request gives a text to keep, because the service fails
    every time or replies nothing but white space, the batch still
    returns, with the empty transcript; [main] stops there and returns
    [None]: it asks for no summary and writes no file. *)
Theorem nothing_kept_nothing_written args w :
  let files := find_sequential_files E (directory args) (prefix args) in
  let batch :=
    process_sequential_files E (new_transcriber (test args)) files (language args) w in
  has_api_key E = true ->
  (forall k p l, unkept (whisper E k p l) = true) ->
  Forall (fun f => decode E f <> None) files ->
  fst batch = Val [] /\
  main E args w = (Val None, match files with [] => w | _ :: _ => snd batch end) /\
  outputs (snd (main E args w)) = outputs w.
Proof.
  cbv zeta. intros Hk Hu Hd.
  assert (Hb : fst (process_sequential_files E (new_transcriber (test args))
                      (find_sequential_files E (directory args) (prefix args))
                      (language args) w) = Val []).
  { rewrite (batch_returns _ _ (language args) w Hd). unfold transcript_of.
    now rewrite blocks_unkept. }
  split; [exact Hb|].
  pose proof (@grows_process_sequential_files E (new_transcriber (test args))
                (find_sequential_files E (directory args) (prefix args))
                (language args) w) as [_ Hout].
  destruct (find_sequential_files E (directory args) (prefix args)) as [|f files] eqn:Hf.
  - assert (Hm : main E args w = (Val None, w)).
    { unfold main, try_except, bind. now rewrite (init_with_key (test args) w Hk), Hf. }
    rewrite Hm. split; reflexivity.
  - rewrite (main_of_batch args w f files Hk Hf). cbv zeta. rewrite Hb.
    split; [reflexivity | exact Hout].
Qed.

(** X12. A summarization that fails is not reported: [main] returns [None]
    as after a success, the transcript file holds the transcript, and the
    summary file holds the error marker in place of a summary. *)
Theorem summary_failure_is_written args w transcript :
  let files := find_sequential_files E (directory args) (prefix args) in
  let self := new_transcriber (test args) in
  has_api_key E = true ->
  files <> [] ->
  fst (process_sequential_files E self files (language args) w) = Val transcript ->
  transcript <> [] ->
  (forall system user, exists detail, chat E system user = Failed detail) ->
  let run := main E args w in
  fst run = Val None /\
  read_text (transcript_path self (output args) (prefix args)) (outputs (snd run)) =
    Some transcript /\
  read_text (summary_path self (output args) (prefix args)) (outputs (snd run)) =
    Some (lit "[ERROR: Could not generate summary]").
Proof.
  cbv zeta. intros Hk Hne Hb Ht Hc.
  destruct (find_sequential_files E (directory args) (prefix args)) as [|f files] eqn:Hf;
    [congruence|].
  destruct transcript as [|c t]; [congruence|].
  rewrite (main_of_batch args w f files Hk Hf). cbv zeta. rewrite Hb.
  rewrite generate_summary_eq. cbn [fst snd].
  destruct (Hc (system_message (new_transcriber (test args)) (summary_lang args))
               (user_message (c :: t))) as [detail ->].
  rewrite save_outputs_eq. cbn [fst snd outputs].
  split; [reflexivity|]. split.
  - rewrite read_text_written_other
      by (intros H; symmetry in H; revert H; apply transcript_summary_apart).
    apply read_text_written_same.
  - apply read_text_written_same.
Qed.

Lemma segments_paths self f tmp segs :
  segments E self f tmp = Val segs -> forall p, In p segs -> p = f \/ parent p = tmp.
Proof.
  unfold segments, chunk_audio_file, bind, from_file, emit, bind.
  destruct (decode E f) as [d|]; [|discriminate]. cbn [ret].
  destruct (test_mode self).
  { unfold export, ret. intros H. injection H as <-. intros p [<-|[]]. now right. }
  destruct (within_limit E self f).
  { unfold ret. intros H. injection H as <-. intros p [<-|[]]. now left. }
  set (cs := make_chunks _ _).
  destruct (export_chunks_eq f tmp cs 0 []
              (mkWorld (trace empty_world ++ [EvDecode f]) (dirs empty_world)
                       (artifacts empty_world) (outputs empty_world)))
    as (w2 & H3 & _).
  change (N.of_nat 0) with 0 in H3. rewrite H3. cbn [app].
  intros H. injection H as <-. intros p Hp. apply in_map_iff in Hp.
  destruct Hp as (k & <- & _). now right.
Qed.

Lemma attempted_paths self tmp files p :
  In p (attempted E self tmp files) -> In p files \/ parent p = tmp.
Proof.
  induction files as [|f files IH]; cbn [attempted]; [intros []|].
  destruct (segments E self f tmp) as [segs|e] eqn:Hs; [|intros []].
  intros Hp. apply in_app_or in Hp. destruct Hp as [Hp|Hp].
  - destruct (segments_paths self f tmp segs Hs p Hp) as [->|H]; [left; now left | now right].
  - destruct (IH Hp) as [H|H]; [left; now right | now right].
Qed.

Lemma requests_in_progress_part evs : requests_in (progress_part evs) = requests_in evs.
Proof.
  unfold requests_in, progress_part. induction evs as [|e evs IH]; [reflexivity|].
  destruct e; cbn; rewrite ?IH; reflexivity.
Qed.

Lemma requests_in_attempt_events lang segs :
  requests_in (attempt_events lang segs) = map (fun p => EvRequest p lang) segs.
Proof.
  induction segs as [|p segs IH]; [reflexivity|].
  cbn [attempt_events flat_map app]. fold (attempt_events lang segs).
  unfold requests_in in *. cbn [filter is_request map]. now rewrite IH.
Qed.

Lemma requests_in_app evs1 evs2 :
  requests_in (evs1 ++ evs2) = requests_in evs1 ++ requests_in evs2.
Proof. apply filter_app. Qed.

(** X9. What a batch sends to the transcription service: when the planning
    succeeds, one request for every segment of the files up to the first
    that cannot be decoded, in file order and ordinal order, each with
    the language the batch was given; nothing when the planning fails.
    Every artifact sent is one of the files given or lies in the
    workspace of the batch. *)
Theorem batch_requests self files lang w :
  let run := process_sequential_files E self files lang w in
  let sent := attempted E self (workspace E w) files in
  exists evs,
    trace (snd run) = trace w ++ evs /\
    requests_in evs =
      match planned_total E self files 0 with
      | Val _ => map (fun p => EvRequest p lang) sent
      | Raise _ => []
      end /\
    (forall p, In p sent -> In p files \/ parent p = workspace E w).
Proof.
  cbv zeta. destruct (process_sequential_files_run E self files lang w) as (evs & Ht & H).
  exists evs. split; [exact Ht|]. split; [|intros p; apply attempted_paths].
  rewrite <- requests_in_progress_part.
  destruct (planned_total E self files 0) as [total|e].
  - destruct H as (_ & plan & exec & -> & Hp & Hx & _).
    rewrite progress_part_app. cbn [progress_part filter is_progress].
    fold (progress_part exec). rewrite Hp, Hx. cbn [app].
    unfold requests_in at 1. cbn [filter is_request]. fold (requests_in (attempt_events lang (attempted E self (workspace E w) files))).
    apply requests_in_attempt_events.
  - destruct H as [_ ->]. reflexivity.
Qed.

End RunFacts.

(* ================================================================== *)
(** * The web front end *)

Unset Implicit Arguments.

Import WebApp.

Lemma Qlt_bool_iff (a b : Q) : Qlt_bool a b = true <-> (a < b)%Q.
Proof.
  unfold Qlt_bool. rewrite negb_true_iff. split.
  - intros H. apply Qnot_le_lt. intros Hle. apply Qle_bool_iff in Hle. congruence.
  - intros H. destruct (Qle_bool b a) eqn:Hle; [|reflexivity].
    apply Qle_bool_iff in Hle. exfalso. now apply (Qlt_not_le a b).
Qed.

Lemma Qlt_bool_false (a b : Q) : Qlt_bool a b = false <-> (b <= a)%Q.
Proof.
  unfold Qlt_bool. rewrite negb_false_iff. apply Qle_bool_iff.
Qed.

Lemma recent_all (t : Q) (l : list Q) :
  Forall (fun x => (t - x < 900)%Q) l -> recent t l = l.
Proof.
  induction 1 as [|x l Hx _ IH]; [reflexivity|]. unfold recent in *. cbn [filter].
  apply Qlt_bool_iff in Hx. now rewrite Hx, IH.
Qed.

Lemma recent_old (t x : Q) (l : list Q) :
  (900 <= t - x)%Q -> recent t (x :: l) = recent t l.
Proof.
  intros H. apply Qlt_bool_false in H. unfold recent. cbn [filter]. now rewrite H.
Qed.

Lemma recent_length (t : Q) (l : list Q) : (List.length (recent t l) <= List.length l)%nat.
Proof. apply filter_length_le. Qed.

(** The four ways through [login_post], by what they leave in the
    session. *)
Lemma login_post_cases APP rq t s :
  let ip := client_ip rq in
  let l := recent t (get_default (login_attempts s ip) []) in
  let p := strip (get_default (form_passcode rq) []) in
  let r := login_post APP rq t s in
  (forall k, k <> ip -> login_attempts (snd r) k = login_attempts s k) /\
  if (5 <=? List.length l)%nat || negb (truthy p) then
    fst r = Redirect "login" /\ authenticated (snd r) = authenticated s /\
    login_time (snd r) = login_time s /\ login_attempts (snd r) ip = Some l
  else if PyStr.eqb p APP then
    fst r = Redirect "index" /\ authenticated (snd r) = true /\
    login_time (snd r) = Some t /\ login_attempts (snd r) ip = None
  else
    fst r = Redirect "login" /\ authenticated (snd r) = authenticated s /\
    login_time (snd r) = login_time s /\ login_attempts (snd r) ip = Some (l ++ [t]).
Proof.
  cbv zeta. unfold login_post.
  set (ip := client_ip rq).
  set (s1 := match login_attempts s ip with Some _ => s | None => set_attempts ip (Some []) s end).
  assert (H1 : get_default (login_attempts s1 ip) [] = get_default (login_attempts s ip) []).
  { subst s1. destruct (login_attempts s ip) eqn:Hl; [now rewrite Hl|].
    cbn. now rewrite eqb_refl. }
  assert (H1' : forall k, k <> ip -> login_attempts s1 k = login_attempts s k).
  { intros k Hk. subst s1. destruct (login_attempts s ip); [reflexivity|]. cbn.
    destruct (PyStr.eqb k ip) eqn:He; [apply eqb_eq in He; contradiction | reflexivity]. }
  assert (H1a : authenticated s1 = authenticated s /\ login_time s1 = login_time s).
  { subst s1. destruct (login_attempts s ip); split; reflexivity. }
  rewrite H1. set (l := recent t (get_default (login_attempts s ip) [])).
  set (s2 := set_attempts ip (Some l) s1).
  assert (H2 : login_attempts s2 ip = Some l) by (cbn; now rewrite eqb_refl).
  assert (H2' : forall k, k <> ip -> login_attempts s2 k = login_attempts s k).
  { intros k Hk. cbn. destruct (PyStr.eqb k ip) eqn:He;
      [apply eqb_eq in He; contradiction | now apply H1']. }
  rewrite H2. cbn [get_default].
  destruct (5 <=? List.length l)%nat; cbn [orb].
  { cbn [fst snd]. split; [exact H2'|]. repeat split; try apply H1a. exact H2. }
  destruct (truthy (strip (get_default (form_passcode rq) []))); cbn [negb].
  2: { cbn [fst snd]. split; [exact H2'|]. repeat split; try apply H1a. exact H2. }
  destruct (PyStr.eqb (strip (get_default (form_passcode rq) [])) APP).
  - cbn [login_attempts]. rewrite H2. cbn [fst snd]. split.
    + intros k Hk. cbn. destruct (PyStr.eqb k ip) eqn:He;
        [apply eqb_eq in He; contradiction | now apply H1'].
    + repeat split. cbn. now rewrite eqb_refl.
  - cbn [fst snd]. split.
    + intros k Hk. cbn. destruct (PyStr.eqb k ip) eqn:He;
        [apply eqb_eq in He; contradiction | now apply H1'].
    + repeat split; try apply H1a. cbn. now rewrite eqb_refl.
Qed.

Lemma strip_fixed (t : pystr) : strip (strip t) = strip t.
Proof.
  destruct (strip_spec t) as (l & t' & _ & _ & _ & Hfirst & Hlast).
  set (r := strip t) in *.
  assert (Hl : lstrip r = r).
  { destruct r as [|c r']; [reflexivity|]. cbn [lstrip].
    now rewrite (Hfirst c r' eq_refl). }
  unfold strip at 1. rewrite Hl. unfold rstrip.
  destruct (rev r) as [|c r'] eqn:Hr.
  - cbn. apply (f_equal (@rev N)) in Hr. rewrite rev_involutive in Hr. now rewrite Hr.
  - cbn [lstrip]. assert (Hc : isspace c = false).
    { apply (Hlast (rev r') c). apply (f_equal (@rev N)) in Hr.
      now rewrite rev_involutive in Hr. }
    rewrite Hc, <- Hr. apply rev_involutive.
Qed.

(** X16. A session is locked after five wrong passcodes: five requests from
    one address with wrong passcodes at the times [t1 <= ... <= t5],
    less than 15 minutes apart, are followed by a request with the right
    passcode at the time [t].  It is refused while [t1] is less than 15
    minutes ago, without a look at the passcode, and it is granted from
    then on. *)
Theorem five_failures_lock APP r1 r2 r3 r4 r5 rq (t1 t2 t3 t4 t5 t : Q) s :
  let ip := client_ip rq in
  let wrong r := client_ip r = ip /\
                 strip (get_default (form_passcode r) []) <> [] /\
                 strip (get_default (form_passcode r) []) <> APP in
  wrong r1 -> wrong r2 -> wrong r3 -> wrong r4 -> wrong r5 ->
  (t1 <= t2)%Q -> (t2 <= t3)%Q -> (t3 <= t4)%Q -> (t4 <= t5)%Q -> (t5 <= t)%Q ->
  (t5 - t1 < 900)%Q ->
  get_default (login_attempts s ip) [] = [] ->
  APP <> [] -> strip (get_default (form_passcode rq) []) = APP ->
  let s5 := login_posts APP [(r1, t1); (r2, t2); (r3, t3); (r4, t4); (r5, t5)] s in
  let r := login_post APP rq t s5 in
  login_attempts s5 ip = Some [t1; t2; t3; t4; t5] /\
  ((t - t1 < 900)%Q ->
     fst r = Redirect "login" /\ authenticated (snd r) = authenticated s) /\
  ((900 <= t - t1)%Q ->
     fst r = Redirect "index" /\ authenticated (snd r) = true /\
     login_time (snd r) = Some t).
Proof.
  cbv zeta. intros W1 W2 W3 W4 W5 H12 H23 H34 H45 H5t Hspan Hs HA Hp.
  set (ip := client_ip rq) in *.
  (* one wrong passcode, added to attempts that are all recent *)
  assert (Hstep : forall r0 t0 s0 l0,
             (client_ip r0 = ip /\
              strip (get_default (form_passcode r0) []) <> [] /\
              strip (get_default (form_passcode r0) []) <> APP) ->
             get_default (login_attempts s0 ip) [] = l0 ->
             Forall (fun x => (t0 - x < 900)%Q) l0 -> (List.length l0 < 5)%nat ->
             login_attempts (snd (login_post APP r0 t0 s0)) ip = Some (l0 ++ [t0]) /\
             authenticated (snd (login_post APP r0 t0 s0)) = authenticated s0).
  { intros r0 t0 s0 l0 (Hip & Hne & Hw) Hl Hrec Hlen.
    destruct (login_post_cases APP r0 t0 s0) as [_ Hc]. cbv zeta in Hc.
    rewrite Hip, Hl, (recent_all _ _ Hrec) in Hc.
    replace (5 <=? List.length l0)%nat with false in Hc
      by (symmetry; apply Nat.leb_gt; exact Hlen).
    destruct (strip (get_default (form_passcode r0) [])) as [|c p] eqn:Hs0; [congruence|].
    cbn [truthy negb orb] in Hc.
    destruct (PyStr.eqb (c :: p) APP) eqn:He; [apply eqb_eq in He; congruence|].
    destruct Hc as (_ & Ha & _ & Hl'). now split. }
  cbn [login_posts snd fst].
  destruct (Hstep r1 t1 s [] W1 Hs (Forall_nil _)) as [L1 A1]; [cbn; lia|].
  set (s1 := snd (login_post APP r1 t1 s)) in *.
  destruct (Hstep r2 t2 s1 [t1] W2) as [L2 A2];
    [now rewrite L1 | repeat constructor; lra | cbn; lia |].
  set (s2 := snd (login_post APP r2 t2 s1)) in *.
  destruct (Hstep r3 t3 s2 [t1; t2] W3) as [L3 A3];
    [now rewrite L2 | repeat constructor; lra | cbn; lia |].
  set (s3 := snd (login_post APP r3 t3 s2)) in *.
  destruct (Hstep r4 t4 s3 [t1; t2; t3] W4) as [L4 A4];
    [now rewrite L3 | repeat constructor; lra | cbn; lia |].
  set (s4 := snd (login_post APP r4 t4 s3)) in *.
  destruct (Hstep r5 t5 s4 [t1; t2; t3; t4] W5) as [L5 A5];
    [now rewrite L4 | repeat constructor; lra | cbn; lia |].
  set (s5 := snd (login_post APP r5 t5 s4)) in *.
  cbn [app] in *. split; [exact L5|].
  destruct (login_post_cases APP rq t s5) as [_ Hc]. cbv zeta in Hc. fold ip in Hc.
  rewrite L5 in Hc. cbn [get_default] in Hc. split.
  - intros Hlt. rewrite recent_all in Hc by (repeat constructor; lra).
    cbn [List.length Nat.leb orb] in Hc. destruct Hc as (Hr & Ha & _).
    split; [exact Hr|]. congruence.
  - intros Hge.
    assert (Hlen : (List.length (recent t [t1; t2; t3; t4; t5]) <= 4)%nat).
    { rewrite recent_old by exact Hge.
      etransitivity; [apply recent_length | cbn; lia]. }
    replace (5 <=? List.length (recent t [t1; t2; t3; t4; t5]))%nat with false in Hc
      by (symmetry; apply Nat.leb_gt; lia).
    rewrite Hp in Hc. destruct APP as [|c p]; [congruence|].
    cbn [truthy negb orb] in Hc. rewrite eqb_refl in Hc.
    destruct Hc as (Hr & Ha & Ht & _). repeat split; assumption.
Qed.

Lemma bounded_login_post APP rq t s : bounded s -> bounded (snd (login_post APP rq t s)).
Proof.
  intros Hb k l Hk.
  destruct (login_post_cases APP rq t s) as [Hother Hc]. cbv zeta in Hc.
  destruct (list_eq_dec N.eq_dec k (client_ip rq)) as [->|Hne].
  2: { rewrite (Hother k Hne) in Hk. now apply (Hb k). }
  set (old := get_default (login_attempts s (client_ip rq)) []) in *.
  assert (Hold : (List.length old <= 5)%nat).
  { subst old. destruct (login_attempts s (client_ip rq)) as [l0|] eqn:Hl0; [|cbn; lia].
    now apply (Hb (client_ip rq)). }
  pose proof (recent_length t old) as Hrec.
  destruct (5 <=? List.length (recent t old))%nat eqn:Hfive; cbn [orb] in Hc.
  { destruct Hc as (_ & _ & _ & Hl). rewrite Hl in Hk. injection Hk as <-. lia. }
  apply Nat.leb_gt in Hfive.
  destruct (negb (truthy (strip (get_default (form_passcode rq) [])))).
  { destruct Hc as (_ & _ & _ & Hl). rewrite Hl in Hk. injection Hk as <-. lia. }
  destruct (PyStr.eqb (strip (get_default (form_passcode rq) [])) APP).
  { destruct Hc as (_ & _ & _ & Hl). rewrite Hl in Hk. discriminate Hk. }
  destruct Hc as (_ & _ & _ & Hl). rewrite Hl in Hk. injection Hk as <-.
  rewrite length_app. cbn. lia.
Qed.

(** X17. The session never holds more than five attempts under one key,
    whatever requests are made: a sixth wrong passcode is not recorded. *)
Theorem login_posts_bounded APP rqs : forall s,
  bounded s -> bounded (login_posts APP rqs s).
Proof.
  induction rqs as [|[rq t] rqs IH]; intros s Hb; [exact Hb|].
  cbn [login_posts]. apply IH. now apply bounded_login_post.
Qed.

(** X18. A passcode configured with white space at one of its ends, or with
    no character, lets nobody in: the passcode entered is trimmed before
    the comparison, the one configured is not. *)
Theorem untrimmed_passcode_never_matches APP rqs : forall s,
  strip APP <> APP \/ APP = [] ->
  authenticated (login_posts APP rqs s) = authenticated s /\
  forall rq t, fst (login_post APP rq t s) <> Redirect "index".
Proof.
  intros s HA.
  assert (Hone : forall rq t s0,
             fst (login_post APP rq t s0) <> Redirect "index" /\
             authenticated (snd (login_post APP rq t s0)) = authenticated s0).
  { intros rq t s0. destruct (login_post_cases APP rq t s0) as [_ Hc]. cbv zeta in Hc.
    destruct (strip (get_default (form_passcode rq) [])) as [|c p] eqn:Hp.
    { cbn [truthy negb] in Hc. rewrite orb_true_r in Hc.
      destruct Hc as (-> & Ha & _). split; [discriminate | exact Ha]. }
    destruct (_ || _).
    { destruct Hc as (-> & Ha & _). split; [discriminate | exact Ha]. }
    destruct (PyStr.eqb (c :: p) APP) eqn:He.
    - apply eqb_eq in He. exfalso. destruct HA as [HA|HA].
      + apply HA. rewrite <- He, <- Hp. apply strip_fixed.
      + congruence.
    - destruct Hc as (-> & Ha & _). split; [discriminate | exact Ha]. }
  split; [|intros rq t; apply Hone].
  revert s. induction rqs as [|[rq t] rqs IH]; intros s; [reflexivity|].
  cbn [login_posts]. rewrite IH. apply Hone.
Qed.

(** X19. A login opens the protected views for one hour, counted from the
    login and not from the last request: a view under [login_required]
    runs as long as the login is at most 3600 seconds ago, the bound
    included; later the session is cleared and the client is sent back
    to the login page. *)
Theorem session_window APP rq (t0 : Q) s (f : State -> HttpResponse * State) (now : Q) w :
  let r := login_post APP rq t0 s in
  fst r = Redirect "index" ->
  ((now - t0 <= 3600)%Q -> login_required f now (snd r, w) = f (snd r, w)) /\
  ((3600 < now - t0)%Q ->
     login_required f now (snd r, w) =
       (Redirect "login",
        (flash (lit "Session expired. Please log in again.") "error" (clear (snd r)), w))).
Proof.
  cbv zeta. intros Hr.
  destruct (login_post_cases APP rq t0 s) as [_ Hc]. cbv zeta in Hc.
  assert (Hs : authenticated (snd (login_post APP rq t0 s)) = true /\
               login_time (snd (login_post APP rq t0 s)) = Some t0).
  { destruct (_ || _); [destruct Hc as (Hc & _); rewrite Hc in Hr; discriminate Hr|].
    destruct (PyStr.eqb _ APP).
    - destruct Hc as (_ & Ha & Ht & _). now split.
    - destruct Hc as (Hc & _). rewrite Hc in Hr. discriminate Hr. }
  destruct Hs as [Ha Ht]. unfold login_required. rewrite Ha, Ht. cbn [negb].
  unfold SESSION_TIMEOUT. split; intros H.
  - apply Qlt_bool_false in H. now rewrite H.
  - apply Qlt_bool_iff in H. now rewrite H.
Qed.

Section ViewFacts.
Variable E : Env.
Variable unexpected_keyword : string -> pystr.
Variable str_of_exn : exn -> pystr.
Variable Path_of_str : pystr -> Path.

(** X15. The view that runs the pipeline never runs it.  It constructs the
    transcriber with the keyword [model], which is no parameter of
    [AudioTranscriber.__init__]: the call raises [TypeError] before any
    file is read, and the view answers every request with a redirect to
    the index page, after the message of this error or, without files,
    the message that there are none.  No audio is decoded, no request is
    sent and no result is written. *)
Theorem process_audio_never_runs session_id rq (s : Session) (w : World) (now : Q) :
  let view := process_audio E unexpected_keyword str_of_exn Path_of_str session_id rq in
  view (s, w) =
    (Redirect "index",
     (flash (match args_files rq with
             | [] => lit "No files to process"
             | _ :: _ => lit "Error processing audio: " ++ unexpected_keyword "model"
             end) "error" s, w)) /\
  snd (snd (login_required view now (s, w))) = w /\
  exists endpoint, fst (login_required view now (s, w)) = Redirect endpoint.
Proof.
  cbv zeta.
  assert (Hv : process_audio E unexpected_keyword str_of_exn Path_of_str session_id rq (s, w) =
               (Redirect "index",
                (flash (match args_files rq with
                        | [] => lit "No files to process"
                        | _ :: _ => lit "Error processing audio: " ++ unexpected_keyword "model"
                        end) "error" s, w))).
  { unfold process_audio. destruct (args_files rq) as [|f files]; reflexivity. }
  split; [exact Hv|].
  unfold login_required. destruct (authenticated s); cbn [negb].
  - destruct (login_time s) as [t|].
    + destruct (Qlt_bool SESSION_TIMEOUT (now - t)).
      * split; [reflexivity | now eexists].
      * rewrite Hv. split; [reflexivity | now eexists].
    + rewrite Hv. split; [reflexivity | now eexists].
  - split; [reflexivity | now eexists].
Qed.

End ViewFacts.


(* ================================================================== *)
(** * The further properties on the sample batch and a sample client *)

Lemma ascii_compatible_posix entries size dec service :
  ascii_compatible (posix_env entries size dec service).
Proof.
  split; [|split].
  - intros c. cbn. unfold ascii_same_case. apply N.eqb_refl.
  - intros c [H1 H2]. cbn. unfold ascii_decimal.
    apply N.leb_le in H1, H2. now rewrite H1, H2.
  - reflexivity.
Qed.

Lemma split_windows_tile_witness :
  10 * 1024 * 1024 < st_size meeting_env meet_2 /\
  decode meeting_env meet_2 = Some 1320000 /\
  exists evs,
    trace (snd (chunk_audio_file meeting_env (new_transcriber false) meet_2 (lit "tmp")
                  empty_world)) = trace empty_world ++ EvDecode meet_2 :: evs /\
    List.length (exported evs) = N.to_nat (ceil_div 1320000 600000) /\
    chained 0 (exported evs) 1320000.
Proof.
  assert (H1 : 10 * 1024 * 1024 < st_size meeting_env meet_2) by (vm_compute; reflexivity).
  assert (H2 : decode meeting_env meet_2 = Some 1320000) by reflexivity.
  split; [exact H1|]. split; [exact H2|].
  destruct (split_windows_tile meeting_env meet_2 (lit "tmp") empty_world 1320000 H1 H2)
    as (evs & Ht & Hl & Hc & _).
  exists evs. split; [exact Ht|]. split; [exact Hl | exact Hc].
Defined.

Lemma split_artifacts_kept_witness :
  10 * 1024 * 1024 < st_size meeting_env meet_2 /\
  decode meeting_env meet_2 = Some 1320000 /\
  In (chunk_path meet_2 (lit "tmp") 2, mkAudio meet_2 1200000 1320000)
     (artifacts (snd (chunk_audio_file meeting_env (new_transcriber false) meet_2 (lit "tmp")
                        empty_world))).
Proof.
  assert (H1 : 10 * 1024 * 1024 < st_size meeting_env meet_2) by (vm_compute; reflexivity).
  assert (H2 : decode meeting_env meet_2 = Some 1320000) by reflexivity.
  split; [exact H1|]. split; [exact H2|].
  destruct (split_artifacts_kept meeting_env meet_2 (lit "tmp") empty_world 1320000 H1 H2)
    as (_ & _ & Hin).
  apply (Hin 2%nat). vm_compute. lia.
Defined.

Lemma sequential_name_found_witness :
  ascii_compatible meeting_env /\
  In (sequential_name (lit "meet") 2) (listdir meeting_env (lit "rec")) /\
  sequence_num meeting_env (lit "meet") meet_2 = Some 2 /\
  In meet_2 (find_sequential_files meeting_env (lit "rec") (lit "meet")).
Proof.
  assert (H1 : ascii_compatible meeting_env) by apply ascii_compatible_posix.
  assert (H2 : In (sequential_name (lit "meet") 2) (listdir meeting_env (lit "rec")))
    by (left; reflexivity).
  split; [exact H1|]. split; [exact H2|].
  destruct (sequential_name_found meeting_env (lit "rec") (lit "meet") 2 H1 H2)
    as (_ & Hn & Hin).
  split; [exact Hn | exact Hin].
Defined.

Lemma meeting_entries_nodup : NoDup (listdir meeting_env (lit "rec")).
Proof.
  cbn. constructor; [|constructor; [intros [] | constructor]].
  intros [H|[]]. vm_compute in H. discriminate H.
Qed.

Lemma find_sequential_files_nodup_witness :
  NoDup (listdir meeting_env (lit "rec")) /\
  NoDup (find_sequential_files meeting_env (lit "rec") (lit "meet")) /\
  (List.length (find_sequential_files meeting_env (lit "rec") (lit "meet")) <=
   List.length (listdir meeting_env (lit "rec")))%nat.
Proof.
  split; [exact meeting_entries_nodup|].
  exact (find_sequential_files_nodup meeting_env (lit "rec") (lit "meet") meeting_entries_nodup).
Defined.

Lemma find_sequential_files_order_witness :
  let e1 := [lit "meet_2.m4a"; lit "meet_1.m4a"] in
  let e2 := [lit "meet_1.m4a"; lit "meet_2.m4a"] in
  Permutation e1 e2 /\
  NoDup (map (sequence_num meeting_env (lit "meet"))
             (find_sequential_files (with_entries meeting_env e1) (lit "rec") (lit "meet"))) /\
  find_sequential_files (with_entries meeting_env e1) (lit "rec") (lit "meet") =
  find_sequential_files (with_entries meeting_env e2) (lit "rec") (lit "meet").
Proof.
  cbv zeta.
  assert (H1 : Permutation [lit "meet_2.m4a"; lit "meet_1.m4a"]
                           [lit "meet_1.m4a"; lit "meet_2.m4a"]) by apply perm_swap.
  assert (H2 : NoDup (map (sequence_num meeting_env (lit "meet"))
                        (find_sequential_files
                           (with_entries meeting_env [lit "meet_2.m4a"; lit "meet_1.m4a"])
                           (lit "rec") (lit "meet")))).
  { vm_compute. constructor; [|constructor; [intros [] | constructor]].
    intros [H|[]]. discriminate H. }
  split; [exact H1|]. split; [exact H2|].
  exact (find_sequential_files_order meeting_env (lit "rec") (lit "meet") _ _ H1 H2).
Defined.

Lemma named_sequence_in_order_witness :
  ascii_compatible meeting_env /\
  Permutation (listdir meeting_env (lit "rec"))
              (map (sequential_name (lit "meet")) [2; 1] ++ []) /\
  exists sorted,
    Permutation [2; 1] sorted /\ StronglySorted N.le sorted /\
    find_sequential_files meeting_env (lit "rec") (lit "meet") =
      map (fun n => mkPath (lit "rec") (sequential_name (lit "meet") n)) sorted.
Proof.
  assert (H1 : ascii_compatible meeting_env) by apply ascii_compatible_posix.
  assert (H2 : Permutation (listdir meeting_env (lit "rec"))
                           (map (sequential_name (lit "meet")) [2; 1] ++ []))
    by apply Permutation_refl.
  split; [exact H1|]. split; [exact H2|].
  apply (named_sequence_in_order meeting_env (lit "rec") (lit "meet") [2; 1] [] H1 H2).
  intros o [].
Defined.

Lemma batch_leaves_nothing_witness :
  ~ In (workspace meeting_env empty_world) (dirs empty_world) /\
  (forall x, In x (artifacts empty_world) ->
     parent (fst x) <> workspace meeting_env empty_world) /\
  let w' := snd (process_sequential_files meeting_env (new_transcriber false)
                   [meet_1; meet_2] (lit "th") empty_world) in
  dirs w' = [] /\ artifacts w' = [] /\ outputs w' = [].
Proof.
  assert (H1 : ~ In (workspace meeting_env empty_world) (dirs empty_world)) by (intros []).
  assert (H2 : forall x, In x (artifacts empty_world) ->
                 parent (fst x) <> workspace meeting_env empty_world) by (intros x []).
  split; [exact H1|]. split; [exact H2|].
  exact (batch_leaves_nothing meeting_env (new_transcriber false) [meet_1; meet_2] (lit "th")
           empty_world H1 H2).
Defined.

Lemma silent_files :
  find_sequential_files silent_env (directory meeting_args) (prefix meeting_args) =
    [meet_1; meet_2].
Proof. vm_compute. reflexivity. Qed.

Lemma nothing_kept_nothing_written_witness :
  has_api_key silent_env = true /\
  (forall k p l, unkept (whisper silent_env k p l) = true) /\
  Forall (fun f => decode silent_env f <> None)
         (find_sequential_files silent_env (directory meeting_args) (prefix meeting_args)) /\
  fst (main silent_env meeting_args empty_world) = Val None /\
  outputs (snd (main silent_env meeting_args empty_world)) = [].
Proof.
  assert (H1 : has_api_key silent_env = true) by reflexivity.
  assert (H2 : forall k p l, unkept (whisper silent_env k p l) = true) by reflexivity.
  assert (H3 : Forall (fun f => decode silent_env f <> None)
                 (find_sequential_files silent_env (directory meeting_args)
                                        (prefix meeting_args))).
  { rewrite silent_files. repeat constructor; vm_compute; discriminate. }
  split; [exact H1|]. split; [exact H2|]. split; [exact H3|].
  destruct (nothing_kept_nothing_written silent_env meeting_args empty_world H1 H2 H3)
    as (_ & Hm & Hout).
  split; [now rewrite Hm | exact Hout].
Defined.

Lemma no_summary_batch :
  find_sequential_files no_summary_env (directory meeting_args) (prefix meeting_args) <> [] /\
  fst (process_sequential_files no_summary_env (new_transcriber (test meeting_args))
         (find_sequential_files no_summary_env (directory meeting_args) (prefix meeting_args))
         (language meeting_args) empty_world) = Val meeting_transcript.
Proof. split; [vm_compute; discriminate | vm_compute; reflexivity]. Qed.

Lemma summary_failure_is_written_witness :
  has_api_key no_summary_env = true /\
  meeting_transcript <> [] /\
  (forall system user, exists detail, chat no_summary_env system user = Failed detail) /\
  fst (main no_summary_env meeting_args empty_world) = Val None /\
  read_text (summary_path (new_transcriber false) (lit "output") (lit "meet"))
            (outputs (snd (main no_summary_env meeting_args empty_world))) =
    Some (lit "[ERROR: Could not generate summary]").
Proof.
  assert (H1 : has_api_key no_summary_env = true) by reflexivity.
  assert (H2 : meeting_transcript <> []) by discriminate.
  assert (H3 : forall system user,
             exists detail, chat no_summary_env system user = Failed detail)
    by (intros; now eexists).
  split; [exact H1|]. split; [exact H2|]. split; [exact H3|].
  destruct (summary_failure_is_written no_summary_env meeting_args empty_world
              meeting_transcript H1 (proj1 no_summary_batch) (proj2 no_summary_batch) H2 H3)
    as (Hr & _ & Hs).
  split; [exact Hr | exact Hs].
Defined.

Import WebApp.

Lemma five_failures_lock_witness :
  let guess := login_request "guess" in
  let right := login_request " transcribe2024 " in
  let s5 := login_posts (lit "transcribe2024")
              [(guess, 0%Q); (guess, 60%Q); (guess, 120%Q); (guess, 180%Q); (guess, 240%Q)]
              fresh_session in
  (240 - 0 < 900)%Q /\ (600 - 0 < 900)%Q /\
  fst (login_post (lit "transcribe2024") right 600 s5) = Redirect "login" /\
  authenticated (snd (login_post (lit "transcribe2024") right 600 s5)) = false.
Proof.
  cbv zeta.
  assert (Hw : client_ip (login_request "guess") = client_ip (login_request " transcribe2024 ") /\
               strip (get_default (form_passcode (login_request "guess")) []) <> [] /\
               strip (get_default (form_passcode (login_request "guess")) []) <>
                 lit "transcribe2024").
  { split; [reflexivity|]. split; vm_compute; discriminate. }
  assert (H0 : (0 <= 60)%Q) by (vm_compute; discriminate).
  assert (H1 : (60 <= 120)%Q) by (vm_compute; discriminate).
  assert (H2 : (120 <= 180)%Q) by (vm_compute; discriminate).
  assert (H3 : (180 <= 240)%Q) by (vm_compute; discriminate).
  assert (H4 : (240 <= 600)%Q) by (vm_compute; discriminate).
  assert (H5 : (240 - 0 < 900)%Q) by (vm_compute; reflexivity).
  assert (H6 : (600 - 0 < 900)%Q) by (vm_compute; reflexivity).
  split; [exact H5|]. split; [exact H6|].
  destruct (five_failures_lock (lit "transcribe2024")
              (login_request "guess") (login_request "guess") (login_request "guess")
              (login_request "guess") (login_request "guess")
              (login_request " transcribe2024 ") 0 60 120 180 240 600 fresh_session
              Hw Hw Hw Hw Hw H0 H1 H2 H3 H4 H5)
    as (_ & Hlock & _); [reflexivity | discriminate | vm_compute; reflexivity |].
  exact (Hlock H6).
Defined.

Lemma login_posts_bounded_witness :
  bounded fresh_session /\
  bounded (login_posts (lit "transcribe2024")
             [(login_request "guess", 0%Q); (login_request "again", 1%Q)] fresh_session).
Proof.
  assert (H : bounded fresh_session) by (intros ip l Hl; discriminate Hl).
  split; [exact H|].
  exact (login_posts_bounded (lit "transcribe2024") _ fresh_session H).
Defined.

Lemma untrimmed_passcode_never_matches_witness :
  (strip (lit " secret") <> lit " secret" \/ lit " secret" = []) /\
  fst (login_post (lit " secret") (login_request " secret") 0 fresh_session) <>
    Redirect "index".
Proof.
  assert (H : strip (lit " secret") <> lit " secret" \/ lit " secret" = [])
    by (left; vm_compute; discriminate).
  split; [exact H|].
  exact (proj2 (untrimmed_passcode_never_matches (lit " secret") [] fresh_session H)
               (login_request " secret") 0%Q).
Defined.

Lemma session_window_witness :
  let r := login_post (lit "transcribe2024") (login_request "transcribe2024") 0 fresh_session in
  let index := fun st : State => (Page "index.html", st) in
  fst r = Redirect "index" /\
  (3600 - 0 <= 3600)%Q /\
  login_required index 3600 (snd r, empty_world) = (Page "index.html", (snd r, empty_world)).
Proof.
  cbv zeta.
  assert (H1 : fst (login_post (lit "transcribe2024") (login_request "transcribe2024") 0
                      fresh_session) = Redirect "index") by (vm_compute; reflexivity).
  assert (H2 : (3600 - 0 <= 3600)%Q) by (vm_compute; discriminate).
  split; [exact H1|]. split; [exact H2|].
  exact (proj1 (session_window (lit "transcribe2024") (login_request "transcribe2024") 0
                  fresh_session (fun st : State => (Page "index.html", st)) 3600
                  empty_world H1) H2).
Defined.
